(** * Battleship: ships, fleet generation and the automatic player

    A shallow embedding of [battleship/ship.py] and of the
    [AutomaticPlayer] of [battleship/player.py].

    Python integers are unbounded, so coordinates are in [Z]; a cell is a
    pair [(x, y)]; a Python [set] of cells is a [gset cell]; [range(a, b)]
    is [seqZ a (b - a)].  A method that mutates [self] takes the object and
    returns the updated object next to its result. *)

From stdpp Require Import base decidable option list numbers sets gmap.

Open Scope Z_scope.

(** ** Exceptions, outcomes and the random source *)

(** The exceptions the embedded code can raise. *)
Inductive exn : Set :=
| ValueError
| KeyError
| UnboundLocalError.

(** The outcome of running a piece of code on a finite supply of random
    draws: a value, an exception, or [Starved] when the supply ran out
    while a [while] loop was still asking for more.  A loop that is
    [Starved] on every supply is a loop that does not terminate. *)
Inductive outcome (A : Type) : Type :=
| Done (a : A)
| Raised (e : exn)
| Starved.
Arguments Done {A} a.
Arguments Raised {A} e.
Arguments Starved {A}.

#[global] Instance outcome_ret : MRet outcome := λ A a, Done a.

#[global] Instance outcome_bind : MBind outcome := λ A B k m,
  match m with
  | Done a => k a
  | Raised e => Raised e
  | Starved => Starved
  end.

(** [random.randint(a, b)]: an integer [N] with [a <= N <= b], computed
    from the next raw draw of the generator, which it consumes;
    [ValueError] on an empty range. *)
Definition randint (a b : Z) (draws : list Z) : outcome (Z * list Z) :=
  if b <? a then Raised ValueError
  else match draws with
       | [] => Starved
       | r :: draws' => Done (a + r `mod` (b - a + 1), draws')
       end.

(** [range(a, b)]. *)
Definition range (a b : Z) : list Z := seqZ a (b - a).

Definition cell : Type := Z * Z.

(** ** [class Ship] *)

Record Ship : Type := mkShip {
  x_start : Z;
  y_start : Z;
  x_end : Z;
  y_end : Z;
  cells : gset cell;
  damaged_cells : gset cell
}.

Definition is_vertical (self : Ship) : bool := x_start self =? x_end self.

Definition is_horizontal (self : Ship) : bool := y_start self =? y_end self.

Definition get_cells (self : Ship) : gset cell :=
  if is_horizontal self then
    if x_end self <? x_start self then
      list_to_set ((λ i, (i, y_start self)) <$> range (x_end self) (x_start self + 1))
    else
      list_to_set ((λ i, (i, y_start self)) <$> range (x_start self) (x_end self + 1))
  else
    if y_end self <? y_start self then
      list_to_set ((λ i, (x_start self, i)) <$> range (y_end self) (y_start self + 1))
    else
      list_to_set ((λ i, (x_start self, i)) <$> range (y_start self) (y_end self + 1)).

(** [Ship.__init__]: the coordinates are ordered first, the shape is
    checked on the ordered coordinates, then [cells] is computed. *)
Definition Ship_init (start end_ : cell) (should_validate : bool) : outcome Ship :=
  let self := {| x_start := Z.min (fst start) (fst end_);
                 x_end := Z.max (fst start) (fst end_);
                 y_start := Z.min (snd start) (snd end_);
                 y_end := Z.max (snd start) (snd end_);
                 cells := ∅;
                 damaged_cells := ∅ |} in
  if should_validate && (negb (is_horizontal self) && negb (is_vertical self))
  then Raised ValueError
  else Done {| x_start := x_start self; y_start := y_start self;
               x_end := x_end self; y_end := y_end self;
               cells := get_cells self;
               damaged_cells := ∅ |}.

Definition length (self : Ship) : Z :=
  if is_horizontal self then Z.abs (x_end self - x_start self) + 1
  else Z.abs (y_start self - y_end self) + 1.

Definition is_occupying_cell (self : Ship) (c : cell) : bool :=
  bool_decide (c ∈ get_cells self).

(** [receive_damage] returns its result and the ship after the call. *)
Definition receive_damage (self : Ship) (c : cell) : bool * Ship :=
  if is_occupying_cell self c then
    (true, {| x_start := x_start self; y_start := y_start self;
              x_end := x_end self; y_end := y_end self;
              cells := cells self;
              damaged_cells := {[c]} ∪ damaged_cells self |})
  else (false, self).

Definition count_damaged_cells (self : Ship) : Z :=
  Z.of_nat (size (damaged_cells self)).

(** The loop returns [False] at the first cell that is not damaged. *)
Definition has_sunk (self : Ship) : bool :=
  forallb (λ c, bool_decide (c ∈ damaged_cells self)) (elements (get_cells self)).

Definition is_near_cell (self : Ship) (c : cell) : bool :=
  (x_start self - 1 <=? fst c) && (fst c <=? x_end self + 1)
  && ((y_start self - 1 <=? snd c) && (snd c <=? y_end self + 1)).

(** The loop returns [True] at the first cell of the other ship that is
    near this one. *)
Definition is_near_ship (self other_ship : Ship) : bool :=
  existsb (is_near_cell self) (elements (get_cells other_ship)).

(** ** [class ShipFactory] *)

(** [ships_per_length] is a dict from length to count; its items are kept
    in insertion order, which is the order [generate_ships] visits. *)
Record ShipFactory : Type := mkShipFactory {
  board_size : Z * Z;
  forbidden_cells : gset cell;
  ships_per_length : list (Z * Z)
}.

Definition ShipFactory_init (board_size : option (Z * Z))
    (ships_per_length : option (list (Z * Z))) : ShipFactory :=
  {| board_size := default (10, 10) board_size;
     forbidden_cells := ∅;
     ships_per_length :=
       default [(1, 1); (2, 1); (3, 1); (4, 1); (5, 1)] ships_per_length |}.

(** [t[i]] for a pair [t] and an index [i] that is 0 or 1. *)
Definition getitem (t : Z * Z) (i : Z) : Z := if i =? 0 then fst t else snd t.

(** [direction] and [other_direction] are 0 and 1 in some order, so both
    slots of [start] and of [end] are filled. *)
Definition create_ship_input (length direction other_direction
    start_coordinate other_direction_coordinate : Z) : cell * cell :=
  if direction =? 0 then
    ((start_coordinate, other_direction_coordinate),
     (start_coordinate + length - 1, other_direction_coordinate))
  else
    ((other_direction_coordinate, start_coordinate),
     (other_direction_coordinate, start_coordinate + length - 1)).

(** The bounds 10 and 11 are literals in the source. *)
Definition update_forbidden_cells (self : ShipFactory) (ship : Ship) : ShipFactory :=
  let forbidden := forbidden_cells self ∪ get_cells ship in
  let add_set : gset cell :=
    if is_horizontal ship then
      list_to_set
        (x ← range (Z.max (x_start ship - 1) 1) (Z.min 11 (x_end ship + 2));
         y ← [Z.max 1 (y_start ship - 1); Z.min 10 (y_end ship + 1); y_start ship];
         [(x, y)])
    else
      list_to_set
        (x ← [Z.max 1 (x_start ship - 1); Z.min 10 (x_end ship + 1); x_start ship];
         y ← range (Z.max 1 (y_start ship - 1)) (Z.min 11 (y_end ship + 2));
         [(x, y)]) in
  {| board_size := board_size self;
     forbidden_cells := forbidden ∪ add_set;
     ships_per_length := ships_per_length self |}.

(** The first half of the body of the [while not valid] loop: a candidate
    ship is drawn. *)
Definition draw_ship (self : ShipFactory) (length : Z) (draws : list Z)
  : outcome (Ship * list Z) :=
  '(direction, draws1) ← randint 0 1 draws;
  let other_direction := (direction + 1) `mod` 2 in
  let max_cell_coordinate := getitem (board_size self) direction - length + 1 in
  '(start_coordinate, draws2) ← randint 1 max_cell_coordinate draws1;
  '(other_direction_coordinate, draws3) ←
     randint 1 (getitem (board_size self) other_direction) draws2;
  let '(start, end_) :=
    create_ship_input length direction other_direction
      start_coordinate other_direction_coordinate in
  ship ← Ship_init start end_ true;
  Done (ship, draws3).

(** The second half, the [for] loop that sets [valid] to [False] at the
    first cell of the candidate that is forbidden. *)
Definition is_free (self : ShipFactory) (ship : Ship) : bool :=
  forallb (λ c, negb (bool_decide (c ∈ forbidden_cells self)))
          (elements (get_cells ship)).

(** [fuel] bounds the rounds of the loop and is set from the supply by
    [create_ship], so that only the supply can run out. *)
Fixpoint create_ship_loop (fuel : nat) (self : ShipFactory) (length : Z)
    (draws : list Z) : outcome (Ship * ShipFactory * list Z) :=
  match fuel with
  | O => Starved
  | S fuel' =>
    '(ship, draws') ← draw_ship self length draws;
    if is_free self ship
    then Done (ship, update_forbidden_cells self ship, draws')
    else create_ship_loop fuel' self length draws'
  end.

Definition create_ship (self : ShipFactory) (length : Z) (draws : list Z)
  : outcome (Ship * ShipFactory * list Z) :=
  create_ship_loop (S (List.length draws)) self length draws.

(** [for i in range(count): ships.append(self.create_ship(length))]. *)
Fixpoint create_ships (count : nat) (self : ShipFactory) (length : Z)
    (ships : list Ship) (draws : list Z)
  : outcome (list Ship * ShipFactory * list Z) :=
  match count with
  | O => Done (ships, self, draws)
  | S count' =>
    '(ship, self', draws') ← create_ship self length draws;
    create_ships count' self' length (ships ++ [ship]) draws'
  end.

Fixpoint generate_ships_items (items : list (Z * Z)) (self : ShipFactory)
    (ships : list Ship) (draws : list Z)
  : outcome (list Ship * ShipFactory * list Z) :=
  match items with
  | [] => Done (ships, self, draws)
  | (length, count) :: items' =>
    '(ships', self', draws') ← create_ships (Z.to_nat count) self length ships draws;
    generate_ships_items items' self' ships' draws'
  end.

Definition generate_ships (self : ShipFactory) (draws : list Z)
  : outcome (list Ship * ShipFactory * list Z) :=
  generate_ships_items (ships_per_length self) self [] draws.

(** ** The board *)

(** Modelled from the spec: [battleship/board.py] is not part of the
    sources.  The player reads only the width and the height of its
    board. *)
Record Board : Type := mkBoard {
  width : Z;
  height : Z
}.

(** Modelled from the spec: the fleet validation of the missing
    [battleship/board.py].  It fails when two distinct ships of the fleet
    share a cell or when one is near the other in the sense of
    [Ship.is_near_ship]; [tests/test_shipfactory.py] names the error
    ([ValueError]). *)
Definition overlap (a b : Ship) : bool :=
  existsb (λ c, bool_decide (c ∈ get_cells b)) (elements (get_cells a)).

Definition apart (a b : Ship) : bool :=
  negb (overlap a b) && negb (is_near_ship a b) && negb (is_near_ship b a).

Fixpoint fleet_ok (ships : list Ship) : bool :=
  match ships with
  | [] => true
  | a :: rest => forallb (apart a) rest && fleet_ok rest
  end.

Definition validate_ships (ships : list Ship) : outcome unit :=
  if fleet_ok ships then Done () else Raised ValueError.

(** Modelled from the spec: the resolution of an attack by the missing
    [battleship/board.py] ([is_attacked_at] in [tests/test_board.py]), for
    a cell of the grid: every ship of the fleet receives the damage, and
    the result is [(is_ship_hit, has_ship_sunk)] for the ship that is hit,
    [(False, False)] when none is. *)
Fixpoint is_attacked_at (ships : list Ship) (c : cell) : (bool * bool) * list Ship :=
  match ships with
  | [] => ((false, false), [])
  | ship :: rest =>
    let '(hit, ship') := receive_damage ship c in
    let '(result, rest') := is_attacked_at rest c in
    (if hit then (true, has_sunk ship') else result, ship' :: rest')
  end.

(** The reports of a sequence of attacks. *)
Fixpoint reports (ships : list Ship) (attacks : list cell) : list (bool * bool) :=
  match attacks with
  | [] => []
  | c :: attacks' =>
    let '(result, ships') := is_attacked_at ships c in
    result :: reports ships' attacks'
  end.

(** ** [class RandomPlayer] *)

(** The attributes of the random player that its methods use: its board
    and the set of the cells it has attacked. *)
Record RandomPlayer : Type := mkRandomPlayer {
  rp_board : Board;
  rp_tracker : gset cell
}.

Definition RandomPlayer_init (board : Board) : RandomPlayer :=
  {| rp_board := board; rp_tracker := ∅ |}.

Definition RandomPlayer_get_random_coordinates (self : RandomPlayer) (draws : list Z)
  : outcome (cell * list Z) :=
  '(x, draws1) ← randint 1 (width (rp_board self)) draws;
  '(y, draws2) ← randint 1 (height (rp_board self)) draws1;
  Done ((x, y), draws2).

(** The [while has_been_attacked] loop; [fuel] is set from the supply by
    [RandomPlayer_generate_random_target], so that only the supply can
    run out. *)
Fixpoint RandomPlayer_generate_random_target_loop (fuel : nat) (self : RandomPlayer)
    (draws : list Z) : outcome (cell * list Z) :=
  match fuel with
  | O => Starved
  | S fuel' =>
    '(random_cell, draws') ← RandomPlayer_get_random_coordinates self draws;
    if bool_decide (random_cell ∈ rp_tracker self)
    then RandomPlayer_generate_random_target_loop fuel' self draws'
    else Done (random_cell, draws')
  end.

Definition RandomPlayer_generate_random_target (self : RandomPlayer) (draws : list Z)
  : outcome (cell * list Z) :=
  RandomPlayer_generate_random_target_loop (S (List.length draws)) self draws.

Definition RandomPlayer_select_target (self : RandomPlayer) (draws : list Z)
  : outcome (cell * RandomPlayer * list Z) :=
  '(target_cell, draws') ← RandomPlayer_generate_random_target self draws;
  Done (target_cell,
        {| rp_board := rp_board self;
           rp_tracker := {[target_cell]} ∪ rp_tracker self |},
        draws').

(** ** [class AutomaticPlayer] *)

(** The four keys of the dictionaries of moves, the strings ["left"],
    ["right"], ["up"] and ["down"]. *)
Inductive Direction : Set := Left | Right | Up | Down.

#[global] Instance Direction_eq_dec : EqDecision Direction.
Proof. solve_decision. Defined.

(** The attributes of the player; [direction] and the members of
    [unsuccessful_directions] can be [None]. *)
Record AutomaticPlayer : Type := mkAutomaticPlayer {
  board : Board;
  unsuccessful_directions : list (option Direction);
  tracker : gset cell;
  prev_result : bool * bool;
  target : option cell;
  prev_move : option cell;
  direction : option Direction
}.

Definition AutomaticPlayer_init (board : Board) : AutomaticPlayer :=
  {| board := board;
     unsuccessful_directions := [];
     tracker := ∅;
     prev_result := (false, false);
     target := None;
     prev_move := None;
     direction := None |}.

Definition receive_result (self : AutomaticPlayer)
    (is_ship_hit has_ship_sunk : bool) : AutomaticPlayer :=
  {| board := board self;
     unsuccessful_directions := unsuccessful_directions self;
     tracker := tracker self;
     prev_result := (is_ship_hit, has_ship_sunk);
     target := target self;
     prev_move := prev_move self;
     direction := direction self |}.

Definition is_valid (self : AutomaticPlayer) (c : cell) : bool :=
  negb (bool_decide (c ∈ tracker self))
  && ((1 <=? fst c) && (fst c <=? width (board self)))
  && ((1 <=? snd c) && (snd c <=? height (board self))).

Definition move_left (curr_cell : cell) : cell := (fst curr_cell - 1, snd curr_cell).
Definition move_right (curr_cell : cell) : cell := (fst curr_cell + 1, snd curr_cell).
Definition move_up (curr_cell : cell) : cell := (fst curr_cell, snd curr_cell - 1).
Definition move_down (curr_cell : cell) : cell := (fst curr_cell, snd curr_cell + 1).

Definition opposite_direction (direction : Direction) : Direction :=
  match direction with
  | Left => Right
  | Right => Left
  | Up => Down
  | Down => Up
  end.

(** The dictionary [{"left": move_left(c), "right": move_right(c),
    "up": move_up(c), "down": move_down(c)}] and its keys in order. *)
Definition possible_moves (c : cell) (d : Direction) : cell :=
  match d with
  | Left => move_left c
  | Right => move_right c
  | Up => move_up c
  | Down => move_down c
  end.

Definition keys : list Direction := [Left; Right; Up; Down].

Definition get_random_coordinates (self : AutomaticPlayer) (draws : list Z)
  : outcome (cell * list Z) :=
  '(x, draws1) ← randint 1 (width (board self)) draws;
  '(y, draws2) ← randint 1 (height (board self)) draws1;
  Done ((x, y), draws2).

Fixpoint generate_random_target_loop (fuel : nat) (self : AutomaticPlayer)
    (draws : list Z) : outcome (cell * list Z) :=
  match fuel with
  | O => Starved
  | S fuel' =>
    '(random_cell, draws') ← get_random_coordinates self draws;
    if bool_decide (random_cell ∈ tracker self)
    then generate_random_target_loop fuel' self draws'
    else Done (random_cell, draws')
  end.

Definition generate_random_target (self : AutomaticPlayer) (draws : list Z)
  : outcome (cell * list Z) :=
  generate_random_target_loop (S (List.length draws)) self draws.

(** The common end of every branch that selects a cell:
    [self.prev_move = target_cell; self.tracker.add(target_cell)]. *)
Definition attack (self : AutomaticPlayer) (target_cell : cell) : AutomaticPlayer :=
  {| board := board self;
     unsuccessful_directions := unsuccessful_directions self;
     tracker := {[target_cell]} ∪ tracker self;
     prev_result := prev_result self;
     target := target self;
     prev_move := Some target_cell;
     direction := direction self |}.

Definition set_target (self : AutomaticPlayer) (t : option cell) : AutomaticPlayer :=
  {| board := board self;
     unsuccessful_directions := unsuccessful_directions self;
     tracker := tracker self;
     prev_result := prev_result self;
     target := t;
     prev_move := prev_move self;
     direction := direction self |}.

Definition set_direction (self : AutomaticPlayer) (d : option Direction) : AutomaticPlayer :=
  {| board := board self;
     unsuccessful_directions := unsuccessful_directions self;
     tracker := tracker self;
     prev_result := prev_result self;
     target := target self;
     prev_move := prev_move self;
     direction := d |}.

Definition set_unsuccessful_directions (self : AutomaticPlayer)
    (l : list (option Direction)) : AutomaticPlayer :=
  {| board := board self;
     unsuccessful_directions := l;
     tracker := tracker self;
     prev_result := prev_result self;
     target := target self;
     prev_move := prev_move self;
     direction := direction self |}.

(** [select_target] returns the selected cell, or Python's [None] when
    the function falls off its end, with the player after the call and
    the rest of the supply.  A dictionary of moves exists only when the
    cell it is built from is not [None]; reading it otherwise raises
    [UnboundLocalError], and reading it at the key [None] raises
    [KeyError]. *)
Definition select_target (self : AutomaticPlayer) (draws : list Z)
  : outcome (option cell * AutomaticPlayer * list Z) :=
  if bool_decide (size (tracker self) = 0%nat) then
    (* the very start *)
    '(target_cell, draws') ← generate_random_target self draws;
    Done (Some target_cell, attack self target_cell, draws')
  else if snd (prev_result self) then
    (* the ship has been sunk *)
    let self := set_unsuccessful_directions self [] in
    '(target_cell, draws') ← generate_random_target self draws;
    let self := set_target self None in
    Done (Some target_cell, attack self target_cell, draws')
  else if fst (prev_result self) then
    match target self with
    | None =>
      (* the previous move was the first hit on the ship *)
      let self := set_target self (prev_move self) in
      match prev_move self with
      | None => Raised UnboundLocalError
      | Some pm =>
        match find (λ d, is_valid self (possible_moves pm d)) keys with
        | Some d =>
          let self := set_direction self (Some d) in
          let target_cell := possible_moves pm d in
          Done (Some target_cell, attack self target_cell, draws)
        | None => Done (None, self, draws)
        end
      end
    | Some tg =>
      match prev_move self with
      | None => Raised UnboundLocalError
      | Some pm =>
        match direction self with
        | None => Raised KeyError
        | Some d =>
          if is_valid self (possible_moves pm d) then
            (* continue in the successful direction *)
            let target_cell := possible_moves pm d in
            Done (Some target_cell, attack self target_cell, draws)
          else
            (* opposite direction, from self.target *)
            let new_direction := opposite_direction d in
            let self := set_direction self (Some new_direction) in
            let target_cell := possible_moves tg new_direction in
            Done (Some target_cell, attack self target_cell, draws)
        end
      end
    end
  else
    match target self with
    | Some tg =>
      (* a miss while working on a ship *)
      let self :=
        set_unsuccessful_directions self
          (unsuccessful_directions self ++ [direction self]) in
      match find (λ d, negb (bool_decide (Some d ∈ unsuccessful_directions self))
                       && is_valid self (possible_moves tg d)) keys with
      | Some d =>
        let self := set_direction self (Some d) in
        let target_cell := possible_moves tg d in
        Done (Some target_cell, attack self target_cell, draws)
      | None => Done (None, self, draws)
      end
    | None =>
      '(target_cell, draws') ← generate_random_target self draws;
      Done (Some target_cell, attack self target_cell, draws')
    end.

(** The states that calls of the two methods can bring the player to,
    whatever the reports: a turn is a call of [select_target] that
    selects a cell, followed by a report through [receive_result] in
    which a ship that sank was hit.  The reports need not be those of a
    fleet: the states of a game against a fleet are those of [game]
    below, and they are among these. *)
Inductive reachable (b : Board) : AutomaticPlayer → Prop :=
| reachable_init : reachable b (AutomaticPlayer_init b)
| reachable_turn self draws target_cell self' draws' is_ship_hit has_ship_sunk :
    reachable b self →
    select_target self draws = Done (Some target_cell, self', draws') →
    (has_ship_sunk = true → is_ship_hit = true) →
    reachable b (receive_result self' is_ship_hit has_ship_sunk).

(** ** Definitions used to state the properties *)

(** The halo of a ship as the specification words it: the bounding box
    of the ship grown by one cell on every side, clipped to the grid of
    the given size. *)
Definition halo (size : Z * Z) (ship : Ship) : gset cell :=
  list_to_set
    (x ← range (Z.max 1 (x_start ship - 1)) (Z.min (fst size + 1) (x_end ship + 2));
     y ← range (Z.max 1 (y_start ship - 1)) (Z.min (snd size + 1) (y_end ship + 2));
     [(x, y)]).

(** A ship with ordered coordinates lies on the grid of the given size. *)
Definition on_grid (size : Z * Z) (ship : Ship) : Prop :=
  (1 ≤ x_start ship ∧ x_start ship ≤ x_end ship ∧ x_end ship ≤ fst size)
  ∧ (1 ≤ y_start ship ∧ y_start ship ≤ y_end ship ∧ y_end ship ≤ snd size).

(** [ShipFactory(board_size=(12, 12), ships_per_length={2: 2})]. *)
Definition factory_12 : ShipFactory :=
  ShipFactory_init (Some (12, 12)) (Some [(2, 2)]).

(** [ShipFactory(board_size=(1, 1), ships_per_length={1: 2})]. *)
Definition factory_1 : ShipFactory :=
  ShipFactory_init (Some (1, 1)) (Some [(1, 2)]).

(** The ship from [start] to [end_], as the constructor builds it. *)
Definition ship_at (start end_ : cell) : Ship :=
  {| x_start := Z.min (fst start) (fst end_); y_start := Z.min (snd start) (snd end_);
     x_end := Z.max (fst start) (fst end_); y_end := Z.max (snd start) (snd end_);
     cells := get_cells {| x_start := Z.min (fst start) (fst end_);
                           y_start := Z.min (snd start) (snd end_);
                           x_end := Z.max (fst start) (fst end_);
                           y_end := Z.max (snd start) (snd end_);
                           cells := ∅; damaged_cells := ∅ |};
     damaged_cells := ∅ |}.

(** The factory [factory_1] after it has placed its first ship. *)
Definition crowded : ShipFactory :=
  update_forbidden_cells factory_1 (ship_at (1, 1) (1, 1)).

(** One turn of the game: the player selects a cell from the given draws
    and is told whether it hit and whether it sank a ship.  There is no
    turn when no cell is selected, or when a ship is said to have sunk
    without being hit. *)
Definition turn (self : AutomaticPlayer) (draws : list Z)
    (is_ship_hit has_ship_sunk : bool) : option AutomaticPlayer :=
  match select_target self draws with
  | Done (Some _, self', _) =>
      if has_ship_sunk && negb is_ship_hit then None
      else Some (receive_result self' is_ship_hit has_ship_sunk)
  | _ => None
  end.

Fixpoint play (self : AutomaticPlayer) (turns : list (list Z * (bool * bool)))
  : option AutomaticPlayer :=
  match turns with
  | [] => Some self
  | (draws, (is_ship_hit, has_ship_sunk)) :: turns' =>
      self' ← turn self draws is_ship_hit has_ship_sunk;
      play self' turns'
  end.

(** The default board. *)
Definition board_10 : Board := {| width := 10; height := 10 |}.

(** The player that has just selected (5, 5) on an empty tracker and has
    been told that it hit a ship without sinking it. *)
Definition after_first_hit : AutomaticPlayer :=
  {| board := board_10;
     unsuccessful_directions := [];
     tracker := {[ (5, 5) ]};
     prev_result := (true, false);
     target := None;
     prev_move := Some (5, 5);
     direction := None |}.

(** Misses at (3, 5), then hits at (1, 5) and at (2, 5) that sink
    nothing. *)
Definition blocked_right : AutomaticPlayer :=
  {| board := board_10;
     unsuccessful_directions := [];
     tracker := {[ (3, 5); (1, 5); (2, 5) ]};
     prev_result := (true, false);
     target := Some (1, 5);
     prev_move := Some (2, 5);
     direction := Some Right |}.

(** A miss at (8, 5), a hit at (5, 5), a miss at (4, 5), then hits at
    (6, 5) and at (7, 5) that sink nothing. *)
Definition blocked_between : AutomaticPlayer :=
  {| board := board_10;
     unsuccessful_directions := [Some Left];
     tracker := {[ (8, 5); (5, 5); (4, 5); (6, 5); (7, 5) ]};
     prev_result := (true, false);
     target := Some (5, 5);
     prev_move := Some (7, 5);
     direction := Some Right |}.

(** A hit at the corner (1, 1), then misses at (2, 1) and at (1, 2). *)
Definition cornered : AutomaticPlayer :=
  {| board := board_10;
     unsuccessful_directions := [Some Right];
     tracker := {[ (1, 1); (2, 1); (1, 2) ]};
     prev_result := (false, false);
     target := Some (1, 1);
     prev_move := Some (1, 2);
     direction := Some Down |}.

(** Misses at (2, 1) and at (1, 2), then a hit at the corner (1, 1). *)
Definition walled_in : AutomaticPlayer :=
  {| board := board_10;
     unsuccessful_directions := [];
     tracker := {[ (2, 1); (1, 2); (1, 1) ]};
     prev_result := (true, false);
     target := None;
     prev_move := Some (1, 1);
     direction := None |}.

(** The player of the scenario after its five probes, when it has been
    told that (5, 7) sank the ship. *)
Definition after_sink : AutomaticPlayer :=
  {| board := board_10;
     unsuccessful_directions := [Some Left; Some Right; Some Up];
     tracker := {[ (5, 5); (4, 5); (6, 5); (5, 4); (5, 6); (5, 7) ]};
     prev_result := (true, true);
     target := Some (5, 5);
     prev_move := Some (5, 7);
     direction := Some Down |}.

(** Hunting: a cell drawn at random until it is not in the tracker is
    selected. *)
Definition hunting (self : AutomaticPlayer) (draws : list Z)
  : outcome (option cell * AutomaticPlayer * list Z) :=
  '(target_cell, draws') ← generate_random_target self draws;
  Done (Some target_cell, attack self target_cell, draws').

(** Every ship of the list is a horizontal or vertical ship on the
    10 x 10 grid, and its halo there is forbidden. *)
Definition placed (self : ShipFactory) (ships : list Ship) : Prop :=
  Forall (λ a, on_grid (10, 10) a
               ∧ (is_horizontal a = true ∨ is_vertical a = true)
               ∧ halo (10, 10) a ⊆ forbidden_cells self) ships.

(** A sequence of calls of [receive_damage] on one ship. *)
Fixpoint receive_damages (self : Ship) (attacks : list cell) : Ship :=
  match attacks with
  | [] => self
  | c :: attacks' => receive_damages (snd (receive_damage self c)) attacks'
  end.

(** Two cells touch: they are the same cell or neighbours, diagonals
    included. *)
Definition touching (c c' : cell) : Prop :=
  Z.abs (fst c - fst c') ≤ 1 ∧ Z.abs (snd c - snd c') ≤ 1.

(** The lengths that a specification asks for, in the order of its items:
    [count] times [length] for each item. *)
Definition lengths_of (items : list (Z * Z)) : list Z :=
  items ≫= λ item, replicate (Z.to_nat (snd item)) (fst item).

(** What every turn of a game keeps true of the player: the previous move
    and the target are cells of the tracker, a target comes with a
    direction, and without a target no direction is marked unsuccessful;
    before the first turn nothing is set, and after it the board has
    cells. *)
Definition consistent (self : AutomaticPlayer) : Prop :=
  (tracker self = ∅ →
     prev_move self = None ∧ target self = None ∧ direction self = None)
  ∧ (tracker self ≠ ∅ →
       (∃ pm, prev_move self = Some pm ∧ pm ∈ tracker self)
       ∧ 1 ≤ width (board self) ∧ 1 ≤ height (board self))
  ∧ (∀ tg, target self = Some tg →
       tg ∈ tracker self ∧ ∃ d, direction self = Some d)
  ∧ (target self = None → unsuccessful_directions self = []).

(** The ships that a factory accepts one after the other, for a list of
    requested lengths: each is a candidate drawn for its length that has
    no forbidden cell, and the factory goes on from the forbidden set
    updated with it. *)
Inductive placing : ShipFactory → list Z → list Ship → ShipFactory → Prop :=
| placing_nil self : placing self [] [] self
| placing_cons self len draws ship draws' lens ships self' :
    draw_ship self len draws = Done (ship, draws') →
    is_free self ship = true →
    placing (update_forbidden_cells self ship) lens ships self' →
    placing self (len :: lens) (ship :: ships) self'.

(** [ShipFactory(ships_per_length={2: 1, 1: 2})] on the default board, and
    draws that place its three ships, with one rejected candidate. *)
Definition factory_3 : ShipFactory :=
  ShipFactory_init None (Some [(2, 1); (1, 2)]).

Definition draws_3 : list Z := [0; 0; 0; 0; 0; 0; 0; 4; 4; 1; 6; 6].

(** The player of the scenario after its first probe, (4, 5), has
    missed. *)
Definition after_first_miss : AutomaticPlayer :=
  {| board := board_10;
     unsuccessful_directions := [];
     tracker := {[ (5, 5); (4, 5) ]};
     prev_result := (false, false);
     target := Some (5, 5);
     prev_move := Some (4, 5);
     direction := Some Left |}.

(** ** Games against a fleet *)

(** A ship is straight: horizontal or vertical. *)
Definition straight (s : Ship) : Prop :=
  is_horizontal s = true ∨ is_vertical s = true.

(** A fleet at the start of a game against a player whose board is [b]:
    it passes the validation, and its ships are straight ships of a grid
    of the size of that board, without damage. *)
Definition fleet_on (b : Board) (fleet : list Ship) : Prop :=
  fleet_ok fleet = true
  ∧ Forall (λ s, on_grid (width b, height b) s ∧ straight s
                 ∧ damaged_cells s = ∅) fleet.

(** The states of a game of the player against a fleet, with the fleet as
    the attacks have left it: at each turn the player selects a cell, the
    cell is attacked on the fleet ([is_attacked_at]), and the player
    receives the result of that attack. *)
Inductive game (b : Board) (fleet : list Ship)
  : AutomaticPlayer → list Ship → Prop :=
| game_start : game b fleet (AutomaticPlayer_init b) fleet
| game_turn self ships draws target_cell self' draws' result ships' :
    game b fleet self ships →
    select_target self draws = Done (Some target_cell, self', draws') →
    is_attacked_at ships target_cell = (result, ships') →
    game b fleet (receive_result self' (fst result) (snd result)) ships'.

(** The ship [s] with the damage of the attacks at the cells of [T]. *)
Definition damaged_by (T : gset cell) (s : Ship) : Ship :=
  {| x_start := x_start s; y_start := y_start s;
     x_end := x_end s; y_end := y_end s;
     cells := cells s;
     damaged_cells := T ∩ get_cells s |}.

(** The result of an attack at [c] on a fleet that has been attacked at
    the cells of [T]. *)
Fixpoint report_of (fleet : list Ship) (T : gset cell) (c : cell) : bool * bool :=
  match fleet with
  | [] => (false, false)
  | s :: rest =>
    if is_occupying_cell s c
    then (true, has_sunk (damaged_by ({[c]} ∪ T) s))
    else report_of rest T c
  end.

(** A part of a ship, between two columns and two rows. *)
Record Box : Type := mkBox { bx1 : Z; bx2 : Z; by1 : Z; by2 : Z }.

(** The cells of the ship [s] that are in the tracker are those of the
    box [B]. *)
Definition tracked_box (self : AutomaticPlayer) (s : Ship) (B : Box) : Prop :=
  ∀ c, c ∈ get_cells s →
    (c ∈ tracker self ↔ bx1 B ≤ fst c ≤ bx2 B ∧ by1 B ≤ snd c ≤ by2 B).

(** The box [B] lies in the ship [s] and contains the cell [tg]. *)
Definition box_in (s : Ship) (tg : cell) (B : Box) : Prop :=
  (x_start s ≤ bx1 B ∧ bx1 B ≤ fst tg ∧ fst tg ≤ bx2 B ∧ bx2 B ≤ x_end s)
  ∧ (y_start s ≤ by1 B ∧ by1 B ≤ snd tg ∧ snd tg ≤ by2 B ∧ by2 B ≤ y_end s).

(** The box reaches the end of the ship in the direction [d]. *)
Definition closed (s : Ship) (B : Box) (d : Direction) : Prop :=
  match d with
  | Left => bx1 B = x_start s
  | Right => bx2 B = x_end s
  | Up => by1 B = y_start s
  | Down => by2 B = y_end s
  end.

(** The box has cells beyond [tg] in the direction [d]. *)
Definition has_side (tg : cell) (B : Box) (d : Direction) : Prop :=
  match d with
  | Left => bx1 B < fst tg
  | Right => fst tg < bx2 B
  | Up => by1 B < snd tg
  | Down => snd tg < by2 B
  end.

(** The last cell of the box from [tg] in the direction [d]. *)
Definition far_end (tg : cell) (B : Box) (d : Direction) : cell :=
  match d with
  | Left => (bx1 B, snd tg)
  | Right => (bx2 B, snd tg)
  | Up => (fst tg, by1 B)
  | Down => (fst tg, by2 B)
  end.

(** The box with one more cell in the direction [e]. *)
Definition grow (B : Box) (e : Direction) : Box :=
  match e with
  | Left => mkBox (bx1 B - 1) (bx2 B) (by1 B) (by2 B)
  | Right => mkBox (bx1 B) (bx2 B + 1) (by1 B) (by2 B)
  | Up => mkBox (bx1 B) (bx2 B) (by1 B - 1) (by2 B)
  | Down => mkBox (bx1 B) (bx2 B) (by1 B) (by2 B + 1)
  end.

(** A ship that the player has not touched, or all of whose cells it has
    attacked. *)
Definition settled (self : AutomaticPlayer) (s : Ship) : Prop :=
  get_cells s ## tracker self ∨ get_cells s ⊆ tracker self.

(** Between two ships: every ship is settled, and the player is about to
    hunt. *)
Definition idle (fleet : list Ship) (self : AutomaticPlayer) : Prop :=
  Forall (settled self) fleet
  ∧ (snd (prev_result self) = true ∧ tracker self ≠ ∅
     ∨ prev_result self = (false, false) ∧ target self = None
       ∧ unsuccessful_directions self = []).

(** After the first hit on a ship: the previous move is the only cell of
    the ship in the tracker, the ship has other cells, and every other
    ship is settled. *)
Definition first_hit (fleet : list Ship) (self : AutomaticPlayer) : Prop :=
  prev_result self = (true, false) ∧ target self = None
  ∧ unsuccessful_directions self = []
  ∧ ∃ s pm,
      s ∈ fleet ∧ prev_move self = Some pm ∧ pm ∈ get_cells s
      ∧ tracked_box self s (mkBox (fst pm) (fst pm) (snd pm) (snd pm))
      ∧ ¬ (∀ d, closed s (mkBox (fst pm) (fst pm) (snd pm) (snd pm)) d)
      ∧ ∀ s', s' ∈ fleet → pm ∉ get_cells s' → settled self s'.

(** While a ship is worked on: the cells of the ship in the tracker are a
    box around the target that does not cover the ship; the box reaches
    the end of the ship in every unsuccessful direction and on every side
    where it has cells, the side of the current direction apart; the
    previous move is the last cell of the box in the current direction
    after a hit, and the cell after it, off the ship, after a miss; every
    other ship is settled. *)
Definition probing (fleet : list Ship) (self : AutomaticPlayer) : Prop :=
  snd (prev_result self) = false
  ∧ ∃ s tg d pm B,
      s ∈ fleet ∧ target self = Some tg ∧ direction self = Some d
      ∧ prev_move self = Some pm
      ∧ box_in s tg B ∧ tracked_box self s B
      ∧ ¬ (∀ e, closed s B e)
      ∧ (∀ e, Some e ∈ unsuccessful_directions self → closed s B e)
      ∧ (∀ e, e ≠ d → has_side tg B e → closed s B e)
      ∧ (if fst (prev_result self)
         then has_side tg B d ∧ pm = far_end tg B d
         else pm = possible_moves (far_end tg B d) d ∧ closed s B d)
      ∧ ∀ s', s' ∈ fleet → tg ∉ get_cells s' → settled self s'.

(** What a game keeps true of the player and the fleet. *)
Definition game_inv (b : Board) (fleet : list Ship) (self : AutomaticPlayer) : Prop :=
  board self = b
  ∧ (idle fleet self ∨ first_hit fleet self ∨ probing fleet self).

(** One turn of a game, run on a supply of draws: the player selects a
    cell, the fleet is attacked there, and the player receives the
    result. *)
Definition game_step (self : AutomaticPlayer) (ships : list Ship) (draws : list Z)
  : option (AutomaticPlayer * list Ship) :=
  match select_target self draws with
  | Done (Some target_cell, self', _) =>
      let '(result, ships') := is_attacked_at ships target_cell in
      Some (receive_result self' (fst result) (snd result), ships')
  | _ => None
  end.

(** The turns of a game, one supply of draws for each. *)
Fixpoint game_run (self : AutomaticPlayer) (ships : list Ship)
    (supplies : list (list Z)) : option (AutomaticPlayer * list Ship) :=
  match supplies with
  | [] => Some (self, ships)
  | draws :: supplies' =>
      '(self', ships') ← game_step self ships draws;
      game_run self' ships' supplies'
  end.

(** The fleet of the scenario: one ship, from (5, 5) to (5, 7). *)
Definition fleet_scenario : list Ship := [ship_at (5, 5) (5, 7)].

(** A fleet of one ship at the left edge of the board, from (1, 5) to
    (3, 5). *)
Definition fleet_edge : list Ship := [ship_at (1, 5) (3, 5)].

(** The player in a game against [fleet_edge], after a hit at (2, 5) and a
    hit to its left, at (1, 5): the next cell to the left is off the
    board. *)
Definition at_edge : AutomaticPlayer :=
  {| board := board_10;
     unsuccessful_directions := [];
     tracker := {[ (2, 5); (1, 5) ]};
     prev_result := (true, false);
     target := Some (2, 5);
     prev_move := Some (1, 5);
     direction := Some Left |}.

(** * Properties *)

(** ** Ship geometry *)

Section ship_geometry.
Implicit Types (self : Ship) (c : cell).

Lemma elem_of_range a b i : i ∈ range a b ↔ a ≤ i < b.
Proof. unfold range. rewrite elem_of_seqZ. lia. Qed.

Lemma elem_of_row y a b c :
  c ∈ (list_to_set ((λ i, (i, y)) <$> range a b) : gset cell)
  ↔ snd c = y ∧ a ≤ fst c < b.
Proof.
  rewrite elem_of_list_to_set, list_elem_of_fmap. split.
  - intros (i & -> & Hi%elem_of_range). done.
  - intros [Hy Hx]. exists (fst c). rewrite elem_of_range.
    split; [|done]. destruct c; simpl in *; congruence.
Qed.

Lemma elem_of_column x a b c :
  c ∈ (list_to_set ((λ i, (x, i)) <$> range a b) : gset cell)
  ↔ fst c = x ∧ a ≤ snd c < b.
Proof.
  rewrite elem_of_list_to_set, list_elem_of_fmap. split.
  - intros (i & -> & Hi%elem_of_range). done.
  - intros [Hx Hy]. exists (snd c). rewrite elem_of_range.
    split; [|done]. destruct c; simpl in *; congruence.
Qed.

Lemma size_row y a b :
  size (list_to_set ((λ i, (i, y)) <$> range a b) : gset cell) = Z.to_nat (b - a).
Proof.
  rewrite size_list_to_set.
  - unfold range. by rewrite length_fmap, length_seqZ.
  - apply NoDup_fmap_2; [|apply NoDup_seqZ]. intros i j; congruence.
Qed.

Lemma size_column x a b :
  size (list_to_set ((λ i, (x, i)) <$> range a b) : gset cell) = Z.to_nat (b - a).
Proof.
  rewrite size_list_to_set.
  - unfold range. by rewrite length_fmap, length_seqZ.
  - apply NoDup_fmap_2; [|apply NoDup_seqZ]. intros i j; congruence.
Qed.

(** The cells of a ship whose coordinates are ordered. *)
Lemma elem_of_get_cells self c :
  x_start self ≤ x_end self → y_start self ≤ y_end self →
  c ∈ get_cells self ↔
    if is_horizontal self
    then snd c = y_start self ∧ x_start self ≤ fst c ≤ x_end self
    else fst c = x_start self ∧ y_start self ≤ snd c ≤ y_end self.
Proof.
  intros Hx Hy. unfold get_cells.
  destruct (is_horizontal self).
  - destruct (Z.ltb_spec (x_end self) (x_start self)); [lia|].
    rewrite elem_of_row. lia.
  - destruct (Z.ltb_spec (y_end self) (y_start self)); [lia|].
    rewrite elem_of_column. lia.
Qed.
End ship_geometry.

Example get_cells_docstring :
  (s ← Ship_init (3, 3) (5, 3) true; Done (get_cells s))
  = Done ({[ (3, 3); (4, 3); (5, 3) ]} : gset cell).
Proof. vm_compute. reflexivity. Qed.

(** C8. With validation enabled the constructor raises [ValueError]
    exactly when the two cells differ in both coordinates; in every other
    case, and always when validation is disabled, it returns a ship whose
    coordinates are the given ones ordered, so that [x_start <= x_end]
    and [y_start <= y_end]. *)
Theorem Ship_init_spec (start end_ : cell) (should_validate : bool) :
  (Ship_init start end_ should_validate = Raised ValueError
   ↔ should_validate = true ∧ fst start ≠ fst end_ ∧ snd start ≠ snd end_)
  ∧ match Ship_init start end_ should_validate with
    | Done ship =>
        (should_validate = false ∨ fst start = fst end_ ∨ snd start = snd end_)
        ∧ x_start ship = Z.min (fst start) (fst end_)
        ∧ x_end ship = Z.max (fst start) (fst end_)
        ∧ y_start ship = Z.min (snd start) (snd end_)
        ∧ y_end ship = Z.max (snd start) (snd end_)
        ∧ x_start ship ≤ x_end ship
        ∧ y_start ship ≤ y_end ship
    | Raised e =>
        e = ValueError
        ∧ should_validate = true ∧ fst start ≠ fst end_ ∧ snd start ≠ snd end_
    | Starved => False
    end.
Proof.
  unfold Ship_init, is_horizontal, is_vertical; simpl.
  destruct should_validate; simpl.
  - destruct (Z.eqb_spec (Z.min (snd start) (snd end_)) (Z.max (snd start) (snd end_)));
      destruct (Z.eqb_spec (Z.min (fst start) (fst end_)) (Z.max (fst start) (fst end_)));
      simpl; (split; [split; [try discriminate; lia | intros (_ & ? & ?); try lia] |]);
      try done; repeat split; try lia.
  - split; [split; [discriminate | intros [? _]; discriminate] |].
    repeat split; try lia; by left.
Qed.

(** C9. For an axis-aligned pair of cells the constructor returns a ship
    whose occupied cells are exactly the cells between the ordered end
    points, there are [max(|dx|, |dy|) + 1] of them, and [length()] is
    that number. *)
Theorem get_cells_run (start end_ : cell) (should_validate : bool) :
  fst start = fst end_ ∨ snd start = snd end_ →
  ∃ ship,
    Ship_init start end_ should_validate = Done ship
    ∧ cells ship = get_cells ship
    ∧ (∀ c, c ∈ get_cells ship ↔
         Z.min (fst start) (fst end_) ≤ fst c ≤ Z.max (fst start) (fst end_)
         ∧ Z.min (snd start) (snd end_) ≤ snd c ≤ Z.max (snd start) (snd end_))
    ∧ Z.of_nat (size (get_cells ship))
      = Z.max (Z.abs (fst end_ - fst start)) (Z.abs (snd end_ - snd start)) + 1
    ∧ length ship = Z.of_nat (size (get_cells ship)).
Proof.
  destruct start as [xs ys], end_ as [xe ye]; simpl. intros Haxis.
  unfold Ship_init, is_horizontal, is_vertical; simpl.
  set (ship := {| x_start := Z.min xs xe; y_start := Z.min ys ye;
                  x_end := Z.max xs xe; y_end := Z.max ys ye;
                  cells := get_cells _; damaged_cells := ∅ |}).
  assert (should_validate
          && (negb (Z.min ys ye =? Z.max ys ye) && negb (Z.min xs xe =? Z.max xs xe))
          = false) as ->.
  { destruct should_validate; [simpl|done].
    destruct (Z.eqb_spec (Z.min ys ye) (Z.max ys ye)); [done|].
    destruct (Z.eqb_spec (Z.min xs xe) (Z.max xs xe)); [done|]. lia. }
  exists ship. split; [done|]. split; [done|].
  assert (size (get_cells ship)
          = Z.to_nat (Z.max (Z.abs (xe - xs)) (Z.abs (ye - ys)) + 1)) as Hsize.
  { unfold get_cells, is_horizontal; simpl.
    destruct (Z.eqb_spec (Z.min ys ye) (Z.max ys ye)).
    - destruct (Z.ltb_spec (Z.max xs xe) (Z.min xs xe)); [lia|].
      rewrite size_row. f_equal. lia.
    - destruct (Z.ltb_spec (Z.max ys ye) (Z.min ys ye)); [lia|].
      rewrite size_column. f_equal. lia. }
  split; [|split].
  - intros c. rewrite elem_of_get_cells by (simpl; lia).
    unfold is_horizontal; simpl.
    destruct (Z.eqb_spec (Z.min ys ye) (Z.max ys ye)); lia.
  - rewrite Hsize. lia.
  - rewrite Hsize. unfold length, is_horizontal; simpl.
    destruct (Z.eqb_spec (Z.min ys ye) (Z.max ys ye)); lia.
Qed.

Lemma get_cells_run_witness :
  ∃ ship, Ship_init (3, 10) (3, 1) true = Done ship
    ∧ Z.of_nat (size (get_cells ship)) = 10 ∧ length ship = 10.
Proof.
  destruct (get_cells_run (3, 10) (3, 1) true) as (ship & Hinit & _ & _ & Hsize & Hlen).
  - left. reflexivity.
  - exists ship. split; [exact Hinit|]. split.
    + rewrite Hsize. reflexivity.
    + rewrite Hlen, Hsize. reflexivity.
Defined.

(** ** Damage *)

Lemma has_sunk_subseteq (self : Ship) :
  has_sunk self = true ↔ get_cells self ⊆ damaged_cells self.
Proof.
  unfold has_sunk. rewrite forallb_forall. split.
  - intros H c Hc. eapply bool_decide_eq_true_1, H.
    by apply list_elem_of_In, elem_of_elements.
  - intros H c Hc. apply bool_decide_eq_true_2, H.
    by apply elem_of_elements, list_elem_of_In.
Qed.

(** C7. [receive_damage] returns [True] exactly when the ship occupies
    the cell; it then adds the cell to [damaged_cells] and changes nothing
    else, and otherwise it leaves the ship as it was.  On an occupied cell
    that is already damaged the call changes neither [damaged_cells] nor
    the result of [has_sunk]. *)
Theorem receive_damage_spec (self : Ship) (c : cell) :
  (fst (receive_damage self c) = true ↔ c ∈ get_cells self)
  ∧ (c ∈ get_cells self →
       damaged_cells (snd (receive_damage self c)) = {[c]} ∪ damaged_cells self
       ∧ get_cells (snd (receive_damage self c)) = get_cells self
       ∧ cells (snd (receive_damage self c)) = cells self)
  ∧ (c ∉ get_cells self → receive_damage self c = (false, self))
  ∧ (c ∈ get_cells self → c ∈ damaged_cells self →
       damaged_cells (snd (receive_damage self c)) = damaged_cells self
       ∧ has_sunk (snd (receive_damage self c)) = has_sunk self)
  ∧ receive_damage (snd (receive_damage self c)) c
    = (fst (receive_damage self c), snd (receive_damage self c)).
Proof.
  unfold receive_damage, is_occupying_cell.
  destruct (bool_decide_reflect (c ∈ get_cells self)) as [Hin|Hout]; simpl.
  - split; [done|]. split; [done|]. split; [done|]. split.
    + intros _ Hdam.
      assert ({[c]} ∪ damaged_cells self = damaged_cells self) as Heq
        by set_solver.
      split; [done|]. unfold has_sunk; simpl. by rewrite Heq.
    + change (get_cells _) with (get_cells self).
      rewrite bool_decide_eq_true_2 by done. simpl.
      do 2 f_equal. set_solver.
  - split; [split; [discriminate | done] |].
    split; [done|]. split; [done|]. split; [done|].
    by rewrite bool_decide_eq_false_2.
Qed.

Lemma receive_damage_spec_witness :
  let ship := {| x_start := 3; y_start := 1; x_end := 3; y_end := 10;
                 cells := ∅; damaged_cells := {[ (3, 6) ]} |} in
  damaged_cells (snd (receive_damage ship (3, 6))) = damaged_cells ship
  ∧ has_sunk (snd (receive_damage ship (3, 6))) = has_sunk ship.
Proof.
  intros ship.
  destruct (receive_damage_spec ship (3, 6)) as (_ & _ & _ & Hidem & _).
  apply Hidem.
  - apply (bool_decide_unpack _). vm_compute. exact I.
  - apply (bool_decide_unpack _). vm_compute. exact I.
Defined.

(** ** Forbidden cells *)

(** C4, checked on a 12 x 12 board.  After the ship from (11, 5) to
    (12, 5) is accepted, the cell (12, 4), which is on the board and
    touches the ship, is not forbidden: the set that
    [update_forbidden_cells] adds stops at column and row 10 whatever the
    size of the board, so it is not the halo clipped to the board. *)
Theorem update_forbidden_cells_12 :
  let ship := ship_at (11, 5) (12, 5) in
  let self' := update_forbidden_cells factory_12 ship in
  Ship_init (11, 5) (12, 5) true = Done ship
  ∧ on_grid (board_size factory_12) ship
  ∧ (12, 4) ∈ halo (board_size factory_12) ship
  ∧ ((12, 4) ∉ forbidden_cells self')
  ∧ forbidden_cells self'
    = {[ (11, 5); (12, 5); (10, 4); (10, 5); (10, 6) ]}.
Proof.
  simpl. split; [reflexivity|]. split; [unfold on_grid; simpl; lia|].
  split; [apply (bool_decide_unpack _); vm_compute; exact I|].
  split; [apply (bool_decide_unpack _); vm_compute; exact I|].
  vm_compute. reflexivity.
Qed.

Lemma elem_of_halo (size : Z * Z) (ship : Ship) (c : cell) :
  c ∈ halo size ship ↔
    (Z.max 1 (x_start ship - 1) ≤ fst c ≤ Z.min (fst size) (x_end ship + 1))
    ∧ (Z.max 1 (y_start ship - 1) ≤ snd c ≤ Z.min (snd size) (y_end ship + 1)).
Proof.
  unfold halo. rewrite elem_of_list_to_set, list_elem_of_bind. split.
  - intros (x & (y & ->%list_elem_of_singleton & Hy%elem_of_range)%list_elem_of_bind
              & Hx%elem_of_range).
    simpl. lia.
  - intros [Hx Hy]. exists (fst c). rewrite elem_of_range. split; [|lia].
    apply list_elem_of_bind. exists (snd c). rewrite elem_of_range. split; [|lia].
    destruct c. apply list_elem_of_singleton. done.
Qed.

(** What [update_forbidden_cells] leaves in the forbidden set, on a
    board of any size. *)
Lemma elem_of_update_forbidden_cells (self : ShipFactory) (ship : Ship) (c : cell) :
  c ∈ forbidden_cells (update_forbidden_cells self ship) ↔
    c ∈ forbidden_cells self ∨ c ∈ get_cells ship
    ∨ if is_horizontal ship
      then Z.max (x_start ship - 1) 1 ≤ fst c < Z.min 11 (x_end ship + 2)
           ∧ (snd c = Z.max 1 (y_start ship - 1) ∨ snd c = Z.min 10 (y_end ship + 1)
              ∨ snd c = y_start ship)
      else (fst c = Z.max 1 (x_start ship - 1) ∨ fst c = Z.min 10 (x_end ship + 1)
            ∨ fst c = x_start ship)
           ∧ Z.max 1 (y_start ship - 1) ≤ snd c < Z.min 11 (y_end ship + 2).
Proof.
  unfold update_forbidden_cells; cbn [forbidden_cells].
  rewrite !elem_of_union, Logic.or_assoc.
  apply or_iff_compat_l, or_iff_compat_l.
  destruct (is_horizontal ship).
  - rewrite elem_of_list_to_set, list_elem_of_bind. split.
    + intros (x & Hy & Hx%elem_of_range).
      simpl in Hy. rewrite !elem_of_cons, elem_of_nil in Hy.
      destruct c as [cx cy]; simpl. split; [naive_solver|]. naive_solver.
    + intros [Hx Hy]. exists (fst c). rewrite elem_of_range. split; [|done].
      destruct c as [cx cy]; simpl in *. rewrite !elem_of_cons. naive_solver.
  - rewrite elem_of_list_to_set, list_elem_of_bind. split.
    + intros (x & Hy & Hx).
      rewrite !elem_of_cons, elem_of_nil in Hx.
      apply list_elem_of_bind in Hy as (y & ->%list_elem_of_singleton & Hy%elem_of_range).
      simpl. split; [naive_solver|done].
    + intros [Hx Hy]. exists (fst c). split.
      * apply list_elem_of_bind. exists (snd c). rewrite elem_of_range. split; [|done].
        destruct c. by apply list_elem_of_singleton.
      * rewrite !elem_of_cons. naive_solver.
Qed.

(** On the default 10 x 10 board the literals are the board's bounds: the
    forbidden set grows by exactly the halo of the ship, which contains
    the ship. *)
Lemma update_forbidden_cells_10 (self : ShipFactory) (ship : Ship) :
  is_horizontal ship = true ∨ is_vertical ship = true →
  on_grid (10, 10) ship →
  get_cells ship ⊆ halo (10, 10) ship
  ∧ forbidden_cells (update_forbidden_cells self ship)
    = forbidden_cells self ∪ halo (10, 10) ship.
Proof.
  unfold on_grid; cbn [fst snd]. intros Haxis [Hx Hy].
  assert (get_cells ship ⊆ halo (10, 10) ship) as Hsub.
  { intros c. rewrite elem_of_halo, elem_of_get_cells by lia. cbn [fst snd].
    destruct (is_horizontal ship); lia. }
  split; [done|].
  apply set_eq. intros c.
  rewrite elem_of_update_forbidden_cells, elem_of_union.
  apply or_iff_compat_l. split.
  - intros [Hc|Hc]; [by apply Hsub|].
    apply elem_of_halo. cbn [fst snd]. unfold is_horizontal in Hc.
    destruct (Z.eqb_spec (y_start ship) (y_end ship)); lia.
  - intros Hc%elem_of_halo. cbn [fst snd] in Hc. right.
    unfold is_horizontal, is_vertical in *.
    destruct (Z.eqb_spec (y_start ship) (y_end ship)); [lia|].
    destruct Haxis as [?|Hv%Z.eqb_eq]; [done|]. lia.
Qed.

(** ** Placement *)

(** C3, checked on a 12 x 12 board with two ships of length 2.  With the
    draws below [generate_ships] returns the ships from (11, 5) to (12, 5)
    and from (11, 4) to (12, 4); they share no cell but each is near the
    other, and the validation of the fleet fails. *)
Theorem generate_ships_12 :
  let a := ship_at (11, 5) (12, 5) in
  let b := ship_at (11, 4) (12, 4) in
  (∃ self', generate_ships factory_12 [0; 10; 4; 0; 10; 3] = Done ([a; b], self', []))
  ∧ overlap a b = false
  ∧ is_near_ship a b = true
  ∧ is_near_ship b a = true
  ∧ validate_ships [a; b] = Raised ValueError.
Proof.
  simpl. split; [eexists; vm_compute; reflexivity|].
  repeat split; vm_compute; reflexivity.
Qed.

(** *** The retry loop of [create_ship] *)

Section retries.
Context (self : ShipFactory) (length : Z).

Lemma randint_app a b draws v draws' rest :
  randint a b draws = Done (v, draws') →
  randint a b (draws ++ rest) = Done (v, draws' ++ rest)
  ∧ List.length draws = S (List.length draws').
Proof.
  unfold randint. destruct (b <? a); [done|].
  destruct draws as [|r draws0]; [done|]. by intros [= <- <-].
Qed.

Lemma randint_range a b draws v draws' :
  randint a b draws = Done (v, draws') →
  a ≤ v ≤ b ∧ List.length draws = S (List.length draws').
Proof.
  unfold randint. destruct (Z.ltb_spec b a); [done|].
  destruct draws as [|r draws0]; [done|]. intros [= <- <-].
  split; [|done]. pose proof (Z.mod_pos_bound r (b - a + 1)). lia.
Qed.

(** A candidate is drawn from three draws and from nothing else. *)
Lemma draw_ship_app draws ship draws' rest :
  draw_ship self length draws = Done (ship, draws') →
  draw_ship self length (draws ++ rest) = Done (ship, draws' ++ rest)
  ∧ List.length draws = (3 + List.length draws')%nat.
Proof.
  unfold draw_ship. intros H.
  destruct (randint 0 1 draws) as [[d draws1]| |] eqn:H1; try done.
  apply (randint_app _ _ _ _ _ rest) in H1 as [-> Hl1]. simpl in *.
  destruct (randint 1 _ draws1) as [[sc draws2]| |] eqn:H2; try done.
  apply (randint_app _ _ _ _ _ rest) in H2 as [-> Hl2]. simpl in *.
  destruct (randint 1 _ draws2) as [[oc draws3]| |] eqn:H3; try done.
  apply (randint_app _ _ _ _ _ rest) in H3 as [-> Hl3]. simpl in *.
  destruct (create_ship_input _ _ _ _ _) as [start end_].
  destruct (Ship_init start end_ true) as [s| |]; try done.
  simpl in *. injection H as <- <-. split; [done|lia].
Qed.

Lemma create_ship_loop_retries fuel (rejected : list (list Z)) accepted ship rest :
  Forall (λ draws, ∃ s, draw_ship self length draws = Done (s, [])
                        ∧ is_free self s = false) rejected →
  draw_ship self length accepted = Done (ship, []) →
  is_free self ship = true →
  (List.length rejected < fuel)%nat →
  create_ship_loop fuel self length (concat rejected ++ accepted ++ rest)
  = Done (ship, update_forbidden_cells self ship, rest).
Proof.
  intros Hrej Hacc Hfree. revert fuel.
  induction Hrej as [|draws rejected (s & Hs & Hbusy) _ IH]; intros fuel Hfuel.
  - destruct fuel as [|fuel]; [simpl in Hfuel; lia|]. simpl.
    apply (draw_ship_app _ _ _ rest) in Hacc as [-> _]. simpl.
    by rewrite Hfree.
  - destruct fuel as [|fuel]; [simpl in Hfuel; lia|]. simpl.
    rewrite <-(assoc_L (++)).
    apply (draw_ship_app _ _ _ (concat rejected ++ accepted ++ rest)) in Hs as [-> _].
    simpl. rewrite Hbusy. apply IH. simpl in Hfuel. lia.
Qed.
End retries.

(** C6, as the code has it.  [create_ship] puts no cap on its retries:
    whatever the number of candidates that are rejected because one of
    their cells is forbidden, it goes on drawing, and it returns the first
    candidate that has no forbidden cell, with that ship's cells and
    surroundings added to the forbidden set. *)
Theorem create_ship_retries (self : ShipFactory) (length : Z)
    (rejected : list (list Z)) (accepted : list Z) (ship : Ship) (rest : list Z) :
  Forall (λ draws, ∃ s, draw_ship self length draws = Done (s, [])
                        ∧ is_free self s = false) rejected →
  draw_ship self length accepted = Done (ship, []) →
  is_free self ship = true →
  create_ship self length (concat rejected ++ accepted ++ rest)
  = Done (ship, update_forbidden_cells self ship, rest).
Proof.
  intros Hrej Hacc Hfree. unfold create_ship.
  apply create_ship_loop_retries; [done..|].
  rewrite length_app. apply Nat.lt_succ_r, Nat.le_trans with (List.length (concat rejected)); [|lia].
  clear -Hrej. induction Hrej as [|draws rejected (s & Hs & _) _ IH]; [done|].
  simpl. rewrite length_app.
  apply (draw_ship_app _ _ _ _ _ []) in Hs as [_ Hlen]. lia.
Qed.

Lemma create_ship_retries_witness :
  let self := update_forbidden_cells (ShipFactory_init None None) (ship_at (1, 1) (1, 1)) in
  create_ship self 1 ([0; 0; 0] ++ [1; 1; 1] ++ [0; 4; 4] ++ [7])
  = Done (ship_at (5, 5) (5, 5), update_forbidden_cells self (ship_at (5, 5) (5, 5)), [7]).
Proof.
  intros self.
  apply (create_ship_retries self 1 [[0; 0; 0]; [1; 1; 1]] [0; 4; 4]
           (ship_at (5, 5) (5, 5)) [7]).
  - repeat constructor.
    + exists (ship_at (1, 1) (1, 1)). split; vm_compute; reflexivity.
    + exists (ship_at (2, 2) (2, 2)). split; vm_compute; reflexivity.
  - vm_compute. reflexivity.
  - vm_compute. reflexivity.
Defined.

Lemma randint_raises (a b : Z) (draws : list Z) (e : exn) :
  randint a b draws = Raised e → e = ValueError.
Proof.
  unfold randint. destruct (b <? a); [by intros [= <-]|]. by destruct draws.
Qed.

Lemma draw_ship_raises (self : ShipFactory) (length : Z) (draws : list Z) (e : exn) :
  draw_ship self length draws = Raised e → e = ValueError.
Proof.
  unfold draw_ship.
  destruct (randint 0 1 draws) as [[d draws1]| |] eqn:H1; simpl;
    [|intros [= <-]; by eapply randint_raises|done].
  destruct (randint 1 _ draws1) as [[sc draws2]| |] eqn:H2; simpl;
    [|intros [= <-]; by eapply randint_raises|done].
  destruct (randint 1 _ draws2) as [[oc draws3]| |] eqn:H3; simpl;
    [|intros [= <-]; by eapply randint_raises|done].
  destruct (create_ship_input _ _ _ _ _) as [start end_].
  unfold Ship_init. destruct (_ && _); simpl; [by intros [= <-]|done].
Qed.

(** The only exception of [create_ship] is the [ValueError] of
    [random.randint] on an empty range. *)
Lemma create_ship_raises (self : ShipFactory) (length : Z) (draws : list Z) (e : exn) :
  create_ship self length draws = Raised e → e = ValueError.
Proof.
  unfold create_ship. generalize (S (List.length draws)) as fuel. intros fuel.
  revert draws. induction fuel as [|fuel IH]; intros draws; [done|]. simpl.
  destruct (draw_ship self length draws) as [[ship draws']| |] eqn:Hdraw; simpl.
  - destruct (is_free self ship); [done|apply IH].
  - intros [= <-]. by eapply draw_ship_raises.
  - done.
Qed.

Lemma getitem_1 (i : Z) : getitem (1, 1) i = 1.
Proof. unfold getitem. by destruct (i =? 0). Qed.

Lemma create_ship_input_1 (d o : Z) :
  create_ship_input 1 d o 1 1 = ((1, 1), (1, 1)).
Proof. unfold create_ship_input. by destruct (d =? 0). Qed.

(** On the 1 x 1 board whose only cell is taken, every candidate is the
    ship on that cell. *)
Lemma draw_ship_crowded (draws : list Z) :
  draw_ship crowded 1 draws = Starved
  ∨ ∃ draws', draw_ship crowded 1 draws = Done (ship_at (1, 1) (1, 1), draws').
Proof.
  unfold draw_ship, randint. change (board_size crowded) with (1, 1).
  destruct draws as [|r1 [|r2 [|r3 draws']]]; simpl; rewrite ?getitem_1; simpl.
  - by left.
  - by left.
  - by left.
  - right. exists draws'. rewrite !Z.mod_1_r, create_ship_input_1. reflexivity.
Qed.

(** It is rejected, round after round. *)
Lemma create_ship_loop_crowded (fuel : nat) (draws : list Z) :
  create_ship_loop fuel crowded 1 draws = Starved.
Proof.
  revert draws. induction fuel as [|fuel IH]; intros draws; [done|]. simpl.
  destruct (draw_ship_crowded draws) as [->|[draws' ->]]; [done|]. simpl.
  replace (is_free crowded (ship_at (1, 1) (1, 1))) with false by (vm_compute; reflexivity).
  apply IH.
Qed.

(** The first ship of [factory_1] is the ship on the only cell. *)
Lemma create_ship_factory_1 (draws : list Z) :
  create_ship factory_1 1 draws = Starved
  ∨ ∃ draws', create_ship factory_1 1 draws = Done (ship_at (1, 1) (1, 1), crowded, draws').
Proof.
  unfold create_ship. simpl. unfold draw_ship, randint.
  change (board_size factory_1) with (1, 1).
  destruct draws as [|r1 [|r2 [|r3 draws']]]; simpl; rewrite ?getitem_1; simpl.
  - by left.
  - by left.
  - by left.
  - right. exists draws'. rewrite !Z.mod_1_r, create_ship_input_1. reflexivity.
Qed.

(** C6 fails as stated.  [ShipFactory(board_size=(1, 1),
    ships_per_length={1: 2})] places its first ship on the only cell;
    after that no supply of draws, however long, makes [create_ship]
    return or raise: the loop goes on for ever, and so does
    [generate_ships]. *)
Lemma create_ship_cap_counterexample :
  create_ship factory_1 1 [0; 0; 0] = Done (ship_at (1, 1) (1, 1), crowded, [])
  ∧ (¬ ∃ draws, create_ship crowded 1 draws ≠ Starved)
  ∧ (¬ ∃ draws, generate_ships factory_1 draws ≠ Starved).
Proof.
  split; [vm_compute; reflexivity|]. split.
  - intros [draws H]. apply H. apply create_ship_loop_crowded.
  - intros [draws H]. apply H. clear H.
    unfold generate_ships. change (ships_per_length factory_1) with [(1, 2)].
    simpl.
    destruct (create_ship_factory_1 draws) as [->|[draws' ->]]; [done|]. simpl.
    unfold create_ship. by rewrite create_ship_loop_crowded.
Qed.

(** *** Fleets on boards of at most 10 x 10 *)

Section small_boards.
Implicit Types (self : ShipFactory) (a b ship : Ship) (c : cell).

(** A ship that is horizontal or vertical occupies its bounding box. *)
Lemma elem_of_get_cells_box ship c :
  is_horizontal ship = true ∨ is_vertical ship = true →
  x_start ship ≤ x_end ship → y_start ship ≤ y_end ship →
  c ∈ get_cells ship ↔
    x_start ship ≤ fst c ≤ x_end ship ∧ y_start ship ≤ snd c ≤ y_end ship.
Proof.
  intros Haxis Hx Hy. rewrite elem_of_get_cells by done.
  unfold is_horizontal, is_vertical in *.
  destruct (Z.eqb_spec (y_start ship) (y_end ship)); [lia|].
  destruct Haxis as [?|Hv%Z.eqb_eq]; [done|]. lia.
Qed.

(** The candidates of [create_ship] for a positive length are horizontal
    or vertical ships on the board. *)
Lemma draw_ship_on_grid self length draws ship draws' :
  1 ≤ length →
  draw_ship self length draws = Done (ship, draws') →
  on_grid (board_size self) ship
  ∧ (is_horizontal ship = true ∨ is_vertical ship = true).
Proof.
  intros Hlen. unfold draw_ship.
  destruct (randint 0 1 draws) as [[d draws1]| |] eqn:H1; try done.
  apply randint_range in H1 as [Hd _]. simpl.
  destruct (randint 1 _ draws1) as [[sc draws2]| |] eqn:H2; try done.
  apply randint_range in H2 as [Hsc _]. simpl.
  destruct (randint 1 _ draws2) as [[oc draws3]| |] eqn:H3; try done.
  apply randint_range in H3 as [Hoc _]. simpl.
  unfold create_ship_input, getitem in *.
  destruct (Z.eqb_spec d 0) as [->|Hd0].
  - change ((0 + 1) `mod` 2 =? 0) with false in Hoc. cbn [fst snd] in *.
    unfold Ship_init, is_horizontal, is_vertical; cbn [fst snd x_start x_end y_start y_end].
    rewrite Z.min_id, Z.max_id, Z.eqb_refl. simpl.
    intros [= <- <-]. unfold on_grid, is_horizontal; simpl.
    rewrite Z.eqb_refl. split; [lia|by left].
  - assert (d = 1) as -> by lia.
    change ((1 + 1) `mod` 2 =? 0) with true in Hoc. cbn [fst snd] in *.
    unfold Ship_init, is_horizontal, is_vertical; cbn [fst snd x_start x_end y_start y_end].
    rewrite Z.min_id, Z.max_id, Z.eqb_refl, andb_false_r. simpl.
    intros [= <- <-]. unfold on_grid, is_vertical; simpl.
    rewrite Z.eqb_refl. split; [lia|by right].
Qed.

Lemma existsb_false {A} (f : A → bool) (l : list A) :
  existsb f l = false ↔ ∀ x, x ∈ l → f x = false.
Proof.
  rewrite <-not_true_iff_false, existsb_exists. split.
  - intros H x Hx%list_elem_of_In. apply not_true_iff_false. intros Hf.
    apply H. by exists x.
  - intros H (x & Hx%list_elem_of_In & Hf). apply H in Hx. congruence.
Qed.

Lemma is_free_spec self ship :
  is_free self ship = true ↔ ∀ c, c ∈ get_cells ship → c ∉ forbidden_cells self.
Proof.
  unfold is_free. rewrite forallb_forall. split.
  - intros H c Hc%elem_of_elements%list_elem_of_In. apply H in Hc.
    by apply negb_true_iff, bool_decide_eq_false_1 in Hc.
  - intros H c Hc%list_elem_of_In%elem_of_elements.
    by apply negb_true_iff, bool_decide_eq_false_2, H.
Qed.

Lemma is_near_cell_spec ship c :
  is_near_cell ship c = true ↔
    x_start ship - 1 ≤ fst c ≤ x_end ship + 1
    ∧ y_start ship - 1 ≤ snd c ≤ y_end ship + 1.
Proof. unfold is_near_cell. rewrite !andb_true_iff, !Z.leb_le. lia. Qed.

(** A candidate with no forbidden cell is apart from every ship whose
    halo is forbidden. *)
Lemma apart_free self a b :
  on_grid (10, 10) a → is_horizontal a = true ∨ is_vertical a = true →
  halo (10, 10) a ⊆ forbidden_cells self →
  on_grid (10, 10) b → is_horizontal b = true ∨ is_vertical b = true →
  is_free self b = true →
  apart a b = true.
Proof.
  intros [Hax Hay] Ha Hhalo [Hbx Hby] Hb Hfree. cbn [fst snd] in *.
  rewrite is_free_spec in Hfree.
  assert (∀ c, c ∈ get_cells b → is_near_cell a c = false) as Hfar.
  { intros c Hc. apply not_true_iff_false. intros Hnear%is_near_cell_spec.
    apply (Hfree c Hc), Hhalo, elem_of_halo. cbn [fst snd].
    apply elem_of_get_cells_box in Hc; [|done|lia..]. lia. }
  unfold apart. rewrite !andb_true_iff, !negb_true_iff. repeat split.
  - apply existsb_false. intros c Hc%elem_of_elements.
    apply bool_decide_eq_false_2. intros Hcb.
    apply (Hfree c Hcb), Hhalo, elem_of_halo. cbn [fst snd].
    apply elem_of_get_cells_box in Hc; [|done|lia..]. lia.
  - apply existsb_false. intros c Hc%elem_of_elements. by apply Hfar.
  - apply existsb_false. intros c Hc%elem_of_elements.
    apply not_true_iff_false. intros Hnear%is_near_cell_spec.
    apply elem_of_get_cells_box in Hc; [|done|lia..].
    pose (c' := (Z.max (x_start b) (Z.min (fst c) (x_end b)),
                 Z.max (y_start b) (Z.min (snd c) (y_end b)))).
    assert (c' ∈ get_cells b) as Hc'.
    { apply elem_of_get_cells_box; [done|lia..|]. subst c'; cbn [fst snd]. lia. }
    apply Hfar in Hc'. apply not_true_iff_false in Hc'. apply Hc'.
    apply is_near_cell_spec. subst c'; cbn [fst snd]. lia.
Qed.

Lemma fleet_ok_snoc (ships : list Ship) b :
  fleet_ok (ships ++ [b]) = fleet_ok ships && forallb (λ a, apart a b) ships.
Proof.
  induction ships as [|a ships IH]; [done|]. simpl.
  rewrite forallb_app, IH. simpl.
  destruct (forallb (apart a) ships), (apart a b), (fleet_ok ships),
    (forallb (λ a0, apart a0 b) ships); done.
Qed.

Lemma placed_accept self (ships : list Ship) b :
  on_grid (10, 10) b → is_horizontal b = true ∨ is_vertical b = true →
  is_free self b = true →
  placed self ships → fleet_ok ships = true →
  placed (update_forbidden_cells self b) (ships ++ [b])
  ∧ fleet_ok (ships ++ [b]) = true.
Proof.
  intros Hgrid Haxis Hfree Hplaced Hok.
  destruct (update_forbidden_cells_10 self b Haxis Hgrid) as [_ Hforb].
  split.
  - apply Forall_app. split.
    + eapply Forall_impl; [exact Hplaced|]. intros a (? & ? & Hhalo).
      split; [done|]. split; [done|]. rewrite Hforb. set_solver.
    + apply Forall_singleton. split; [done|]. split; [done|].
      rewrite Hforb. set_solver.
  - rewrite fleet_ok_snoc, Hok. simpl. apply forallb_forall.
    intros a Ha%list_elem_of_In.
    unfold placed in Hplaced. rewrite Forall_forall in Hplaced.
    destruct (Hplaced a Ha) as (? & ? & ?). by eapply apart_free.
Qed.

Lemma on_grid_10 (size : Z * Z) ship :
  fst size ≤ 10 → snd size ≤ 10 → on_grid size ship → on_grid (10, 10) ship.
Proof. unfold on_grid; cbn [fst snd]. lia. Qed.

Lemma create_ship_loop_placed fuel self length draws (ships : list Ship)
    ship self' draws' :
  fst (board_size self) ≤ 10 → snd (board_size self) ≤ 10 → 1 ≤ length →
  placed self ships → fleet_ok ships = true →
  create_ship_loop fuel self length draws = Done (ship, self', draws') →
  board_size self' = board_size self
  ∧ placed self' (ships ++ [ship]) ∧ fleet_ok (ships ++ [ship]) = true.
Proof.
  intros Hw Hh Hlen Hplaced Hok. revert draws.
  induction fuel as [|fuel IH]; intros draws; [done|]. simpl.
  destruct (draw_ship self length draws) as [[b draws0]| |] eqn:Hdraw; try done.
  simpl. apply draw_ship_on_grid in Hdraw as [Hgrid Haxis]; [|done].
  apply on_grid_10 in Hgrid; [|done..].
  destruct (is_free self b) eqn:Hfree; [|apply IH].
  intros [= <- <- <-]. split; [done|]. by apply placed_accept.
Qed.

Lemma create_ships_placed count self length (ships : list Ship) draws
    ships' self' draws' :
  fst (board_size self) ≤ 10 → snd (board_size self) ≤ 10 → 1 ≤ length →
  placed self ships → fleet_ok ships = true →
  create_ships count self length ships draws = Done (ships', self', draws') →
  board_size self' = board_size self
  ∧ placed self' ships' ∧ fleet_ok ships' = true.
Proof.
  intros Hw Hh Hlen. revert self ships draws Hw Hh.
  induction count as [|count IH]; intros self ships draws Hw Hh Hplaced Hok; simpl.
  - by intros [= <- <- <-].
  - destruct (create_ship self length draws) as [[[b self1] draws1]| |] eqn:Hb; try done.
    simpl. unfold create_ship in Hb.
    eapply create_ship_loop_placed in Hb as (Hsize & Hplaced1 & Hok1); [|done..].
    intros H. apply IH in H as (Hsize' & ? & ?); try done; try congruence.
    split; [congruence|done].
Qed.

Lemma generate_ships_items_placed (items : list (Z * Z)) self (ships : list Ship)
    draws ships' self' draws' :
  fst (board_size self) ≤ 10 → snd (board_size self) ≤ 10 →
  Forall (λ item, 1 ≤ fst item) items →
  placed self ships → fleet_ok ships = true →
  generate_ships_items items self ships draws = Done (ships', self', draws') →
  fleet_ok ships' = true.
Proof.
  intros Hw Hh Hitems. revert self ships draws Hw Hh.
  induction Hitems as [|[length count] items Hlen _ IH];
    intros self ships draws Hw Hh Hplaced Hok; simpl.
  - by intros [= <- <- <-].
  - destruct (create_ships _ self length ships draws)
      as [[[ships1 self1] draws1]| |] eqn:H1; try done.
    simpl. eapply create_ships_placed in H1 as (Hsize & ? & ?); [|done..].
    apply IH; try done; congruence.
Qed.

(** On a board of at most 10 x 10, whatever the forbidden cells the
    factory starts from, a fleet of ships of positive lengths returned by
    [generate_ships] passes the validation: no two of its ships share a
    cell or are near each other. *)
Lemma generate_ships_10 self draws (ships : list Ship) self' draws' :
  fst (board_size self) ≤ 10 → snd (board_size self) ≤ 10 →
  Forall (λ item, 1 ≤ fst item) (ships_per_length self) →
  generate_ships self draws = Done (ships, self', draws') →
  validate_ships ships = Done ().
Proof.
  intros Hw Hh Hitems Hgen. unfold validate_ships.
  by erewrite (generate_ships_items_placed _ self []); [| | | |constructor| |].
Qed.
End small_boards.

(** The default factory, with two rejected candidates on the way. *)
Example generate_ships_10_default :
  ∃ ships self',
    generate_ships (ShipFactory_init None None)
      [0; 0; 0; 0; 0; 0; 1; 3; 3; 0; 5; 5; 1; 7; 0; 0; 2; 9; 1; 0; 9]
    = Done (ships, self', [])
    ∧ List.length ships = 5%nat
    ∧ validate_ships ships = Done ().
Proof.
  eexists _, _. split; [vm_compute; reflexivity|]. split; [reflexivity|].
  eapply (generate_ships_10 (ShipFactory_init None None)
            [0; 0; 0; 0; 0; 0; 1; 3; 3; 0; 5; 5; 1; 7; 0; 0; 2; 9; 1; 0; 9]).
  - done.
  - done.
  - repeat constructor; done.
  - vm_compute. reflexivity.
Qed.

(** ** The automatic player *)

Section player.
Implicit Types (self : AutomaticPlayer) (c : cell) (draws : list Z).

Lemma get_random_coordinates_app self draws c draws' rest :
  get_random_coordinates self draws = Done (c, draws') →
  get_random_coordinates self (draws ++ rest) = Done (c, draws' ++ rest)
  ∧ (1 ≤ fst c ≤ width (board self) ∧ 1 ≤ snd c ≤ height (board self))
  ∧ List.length draws = (2 + List.length draws')%nat.
Proof.
  unfold get_random_coordinates. intros H.
  destruct (randint 1 (width _) draws) as [[x draws1]| |] eqn:H1; try done.
  pose proof (randint_range _ _ _ _ _ H1) as [Hx Hl1].
  apply (randint_app _ _ _ _ _ rest) in H1 as [-> _]. simpl in *.
  destruct (randint 1 (height _) draws1) as [[y draws2]| |] eqn:H2; try done.
  pose proof (randint_range _ _ _ _ _ H2) as [Hy Hl2].
  apply (randint_app _ _ _ _ _ rest) in H2 as [-> _]. simpl in *.
  injection H as <- <-. simpl. split; [done|]. split; [done|lia].
Qed.

(** What the random search returns is on the board and not in the
    tracker. *)
Lemma generate_random_target_loop_fresh fuel self draws c draws' :
  generate_random_target_loop fuel self draws = Done (c, draws') →
  (c ∉ tracker self)
  ∧ (1 ≤ fst c ≤ width (board self) ∧ 1 ≤ snd c ≤ height (board self)).
Proof.
  revert draws. induction fuel as [|fuel IH]; intros draws; [done|]. simpl.
  destruct (get_random_coordinates self draws) as [[c0 draws0]| |] eqn:Hc; try done.
  simpl. destruct (bool_decide_reflect (c0 ∈ tracker self)) as [Hin|Hout].
  - apply IH.
  - intros [= <- <-]. split; [done|].
    by apply (get_random_coordinates_app _ _ _ _ []) in Hc as (_ & ? & _).
Qed.

Lemma generate_random_target_fresh self draws c draws' :
  generate_random_target self draws = Done (c, draws') →
  is_valid self c = true.
Proof.
  intros (Hc & Hx & Hy)%generate_random_target_loop_fresh.
  unfold is_valid. rewrite bool_decide_eq_false_2 by done. simpl.
  repeat (apply andb_true_intro; split); lia.
Qed.

(** The random search skips the draws that fall on tracked cells and
    returns the first cell that is not tracked. *)
Lemma generate_random_target_loop_skips fuel self (skipped : list (list Z))
    chosen c rest :
  Forall (λ draws, ∃ c0, get_random_coordinates self draws = Done (c0, [])
                         ∧ c0 ∈ tracker self) skipped →
  get_random_coordinates self chosen = Done (c, []) →
  c ∉ tracker self →
  (List.length skipped < fuel)%nat →
  generate_random_target_loop fuel self (concat skipped ++ chosen ++ rest)
  = Done (c, rest).
Proof.
  intros Hskip Hc Hfresh. revert fuel.
  induction Hskip as [|draws skipped (c0 & Hc0 & Hin) _ IH]; intros fuel Hfuel.
  - destruct fuel as [|fuel]; [simpl in Hfuel; lia|]. simpl.
    apply (get_random_coordinates_app _ _ _ _ rest) in Hc as [-> _]. simpl.
    by rewrite bool_decide_eq_false_2.
  - destruct fuel as [|fuel]; [simpl in Hfuel; lia|]. simpl.
    rewrite <-(assoc_L (++)).
    apply (get_random_coordinates_app _ _ _ _ (concat skipped ++ chosen ++ rest))
      in Hc0 as [-> _].
    simpl. rewrite bool_decide_eq_true_2 by done. apply IH. simpl in Hfuel. lia.
Qed.

Lemma generate_random_target_skips self (skipped : list (list Z)) chosen c rest :
  Forall (λ draws, ∃ c0, get_random_coordinates self draws = Done (c0, [])
                         ∧ c0 ∈ tracker self) skipped →
  get_random_coordinates self chosen = Done (c, []) →
  c ∉ tracker self →
  generate_random_target self (concat skipped ++ chosen ++ rest) = Done (c, rest).
Proof.
  intros Hskip Hc Hfresh. unfold generate_random_target.
  apply generate_random_target_loop_skips; [done..|].
  rewrite length_app.
  apply Nat.lt_succ_r, Nat.le_trans with (List.length (concat skipped)); [|lia].
  clear -Hskip. induction Hskip as [|draws skipped (c0 & Hc0 & _) _ IH]; [done|].
  simpl. rewrite length_app.
  apply (get_random_coordinates_app _ _ _ _ []) in Hc0 as (_ & _ & Hlen). lia.
Qed.

(** Every cell of the board is the outcome of some pair of draws. *)
Lemma get_random_coordinates_any self c :
  1 ≤ fst c ≤ width (board self) → 1 ≤ snd c ≤ height (board self) →
  get_random_coordinates self [fst c - 1; snd c - 1] = Done (c, []).
Proof.
  intros Hx Hy. unfold get_random_coordinates, randint.
  destruct (Z.ltb_spec (width (board self)) 1); [lia|]. simpl.
  destruct (Z.ltb_spec (height (board self)) 1); [lia|]. simpl.
  rewrite !Z.mod_small by lia. destruct c as [x y]; simpl. do 3 f_equal; lia.
Qed.

(** A selected cell is recorded as the previous move and added to the
    tracker.  It was valid before the call, unless it comes from the
    branch that turns to the opposite direction, which selects the
    neighbour of [target] without a test. *)
Lemma select_target_selected self draws c self' draws' :
  select_target self draws = Done (Some c, self', draws') →
  tracker self' = {[c]} ∪ tracker self
  ∧ prev_move self' = Some c
  ∧ (is_valid self c = true
     ∨ ∃ tg pm d,
         prev_result self = (true, false) ∧ target self = Some tg
         ∧ prev_move self = Some pm ∧ direction self = Some d
         ∧ is_valid self (possible_moves pm d) = false
         ∧ c = possible_moves tg (opposite_direction d)).
Proof.
  unfold select_target.
  destruct (bool_decide (size (tracker self) = 0%nat)).
  { destruct (generate_random_target self draws) as [[c0 draws0]| |] eqn:Hr; try done.
    simpl. intros [= <- <- <-]. split; [done|]. split; [done|]. left.
    by eapply generate_random_target_fresh. }
  destruct (prev_result self) as [hit sunk]; cbn [fst snd]. destruct sunk.
  { destruct (generate_random_target _ draws) as [[c0 draws0]| |] eqn:Hr; try done.
    simpl. intros [= <- <- <-]. split; [done|]. split; [done|]. left.
    by apply generate_random_target_fresh in Hr. }
  destruct hit.
  - destruct (target self) as [tg|] eqn:Htg.
    + destruct (prev_move self) as [pm|] eqn:Hpm; [|done].
      destruct (direction self) as [d|] eqn:Hd; [|done].
      destruct (is_valid self (possible_moves pm d)) eqn:Hv.
      * intros [= <- <- <-]. split; [done|]. split; [done|]. by left.
      * intros [= <- <- <-]. split; [done|]. split; [done|]. right.
        by exists tg, pm, d.
    + change (prev_move (set_target self (prev_move self))) with (prev_move self).
      destruct (prev_move self) as [pm|] eqn:Hpm; [|done].
      destruct (find _ keys) as [d|] eqn:Hfind; [|done].
      apply find_some in Hfind as [_ Hv].
      intros [= <- <- <-]. split; [done|]. split; [done|]. left. exact Hv.
  - destruct (target self) as [tg|] eqn:Htg.
    + destruct (find _ keys) as [d|] eqn:Hfind; [|done].
      apply find_some in Hfind as [_ [_ Hv]%andb_prop].
      intros [= <- <- <-]. split; [done|]. split; [done|]. left. exact Hv.
    + destruct (generate_random_target self draws) as [[c0 draws0]| |] eqn:Hr; try done.
      simpl. intros [= <- <- <-]. split; [done|]. split; [done|]. left.
      by eapply generate_random_target_fresh.
Qed.

(** A game played turn by turn stays among the reachable states. *)
Lemma play_reachable b self turns self' :
  reachable b self → play self turns = Some self' → reachable b self'.
Proof.
  revert self. induction turns as [|[draws [hit sunk]] turns IH]; intros self Hr; simpl.
  - by intros [= <-].
  - unfold turn.
    destruct (select_target self draws) as [[[[c|] self1] draws1]| |] eqn:Hsel; try done.
    destruct (sunk && negb hit) eqn:Hhonest; [done|]. simpl.
    apply IH. eapply reachable_turn; [done..|].
    intros ->. by destruct hit.
Qed.
(** The random search reads the board and the tracker only. *)
Lemma generate_random_target_ext self1 self2 draws :
  board self1 = board self2 → tracker self1 = tracker self2 →
  generate_random_target self1 draws = generate_random_target self2 draws.
Proof.
  intros Hb Ht. unfold generate_random_target.
  generalize (S (List.length draws)) as fuel. intros fuel. revert draws.
  induction fuel as [|fuel IH]; intros draws; [done|]. simpl.
  unfold get_random_coordinates. rewrite Hb, Ht.
  destruct (randint 1 _ draws) as [[x draws1]| |]; try done. simpl.
  destruct (randint 1 _ draws1) as [[y draws2]| |]; try done. simpl.
  by rewrite IH.
Qed.

(** After the report of a sunk ship the player hunts, with [target] and
    [unsuccessful_directions] emptied and nothing else changed. *)
Lemma select_target_sunk self draws :
  tracker self ≠ ∅ → snd (prev_result self) = true →
  select_target self draws
  = hunting (set_target (set_unsuccessful_directions self []) None) draws.
Proof.
  intros Hne Hsunk. unfold select_target, hunting.
  rewrite bool_decide_eq_false_2 by (by intros ?%size_empty_inv%leibniz_equiv).
  rewrite Hsunk.
  by rewrite (generate_random_target_ext
                (set_target (set_unsuccessful_directions self []) None)
                (set_unsuccessful_directions self [])).
Qed.
End player.

(** When no cell is selected, the call is one of the two searches around a
    hit: after a first hit none of the four neighbours of the previous
    move is valid, or after a miss none of the neighbours of the target in
    a direction that is not exhausted is valid.  No draw is consumed and
    the tracker is unchanged. *)
Lemma select_target_None (self : AutomaticPlayer) (draws : list Z)
    (self' : AutomaticPlayer) (draws' : list Z) :
  select_target self draws = Done (None, self', draws') →
  draws' = draws ∧ tracker self' = tracker self ∧ snd (prev_result self) = false
  ∧ ((fst (prev_result self) = true ∧ target self = None
      ∧ ∃ pm, prev_move self = Some pm ∧ target self' = Some pm
              ∧ ∀ d, is_valid self (possible_moves pm d) = false)
     ∨ (fst (prev_result self) = false
        ∧ ∃ tg, target self = Some tg ∧ target self' = Some tg
                ∧ ∀ d, Some d ∈ unsuccessful_directions self ++ [direction self]
                       ∨ is_valid self (possible_moves tg d) = false)).
Proof.
  assert (∀ d, In d keys) as Hkeys by (intros []; simpl; tauto).
  unfold select_target.
  destruct (bool_decide (size (tracker self) = 0%nat)).
  { by destruct (generate_random_target self draws) as [[c0 draws0]| |]. }
  destruct (prev_result self) as [hit sunk]; cbn [fst snd]. destruct sunk.
  { by destruct (generate_random_target _ draws) as [[c0 draws0]| |]. }
  destruct hit.
  - destruct (target self) as [tg|] eqn:Htg.
    + destruct (prev_move self) as [pm|]; [|done].
      destruct (direction self) as [d|]; [|done].
      by destruct (is_valid self (possible_moves pm d)).
    + change (prev_move (set_target self (prev_move self))) with (prev_move self).
      destruct (prev_move self) as [pm|] eqn:Hpm; [|done].
      destruct (find _ keys) as [d|] eqn:Hfind; [done|].
      intros [= <- <-]. do 3 (split; [done|]). left. do 2 (split; [done|]).
      exists pm. do 2 (split; [done|]). intros d.
      exact (find_none _ _ Hfind d (Hkeys d)).
  - destruct (target self) as [tg|] eqn:Htg.
    + destruct (find _ keys) as [d|] eqn:Hfind; [done|].
      intros [= <- <-]. do 3 (split; [done|]). right. split; [done|].
      exists tg. do 2 (split; [done|]). intros d.
      pose proof (find_none _ _ Hfind d (Hkeys d)) as [Hd|Hd]%andb_false_iff.
      * left. by apply negb_false_iff, bool_decide_eq_true_1 in Hd.
      * right. exact Hd.
    + by destruct (generate_random_target self draws) as [[c0 draws0]| |].
Qed.

Lemma reachable_after_first_hit : reachable board_10 after_first_hit.
Proof.
  apply (play_reachable _ (AutomaticPlayer_init board_10) [([4; 4], (true, false))]);
    [constructor|]. vm_compute. reflexivity.
Qed.

Lemma reachable_after_sink : reachable board_10 after_sink.
Proof.
  apply (play_reachable _ after_first_hit
           [([], (false, false)); ([], (false, false)); ([], (false, false));
            ([], (true, false)); ([], (true, true))]);
    [apply reachable_after_first_hit|]. vm_compute. reflexivity.
Qed.

Lemma reachable_blocked_between : reachable board_10 blocked_between.
Proof.
  apply (play_reachable _ (AutomaticPlayer_init board_10)
           [([7; 4], (false, false)); ([4; 4], (true, false)); ([], (false, false));
            ([], (true, false)); ([], (true, false))]);
    [constructor|]. vm_compute. reflexivity.
Qed.

(** C1. On the 10 x 10 board, from the state reached by a first hit at
    (5, 5), the player selects (4, 5); after a miss, (6, 5); after a miss,
    (5, 4); after a miss, (5, 6); after a hit, (5, 7); none of these calls
    consumes a random draw.  After the report that (5, 7) sank the ship,
    the next selection is the random search over the cells that are not
    in the tracker, with [target] and [unsuccessful_directions] emptied. *)
Theorem scenario (d1 d2 d3 d4 d5 d6 : list Z) :
  reachable board_10 after_first_hit
  ∧ ∃ p1 p2 p3 p4 p5 : AutomaticPlayer,
      select_target after_first_hit d1 = Done (Some (4, 5), p1, d1)
      ∧ select_target (receive_result p1 false false) d2 = Done (Some (6, 5), p2, d2)
      ∧ select_target (receive_result p2 false false) d3 = Done (Some (5, 4), p3, d3)
      ∧ select_target (receive_result p3 false false) d4 = Done (Some (5, 6), p4, d4)
      ∧ select_target (receive_result p4 true false) d5 = Done (Some (5, 7), p5, d5)
      ∧ receive_result p5 true true = after_sink
      ∧ select_target after_sink d6
        = hunting (set_target (set_unsuccessful_directions after_sink []) None) d6.
Proof.
  split; [apply reachable_after_first_hit|].
  do 5 eexists.
  split; [vm_compute; reflexivity|].
  split; [vm_compute; reflexivity|].
  split; [vm_compute; reflexivity|].
  split; [vm_compute; reflexivity|].
  split; [vm_compute; reflexivity|].
  split; [vm_compute; reflexivity|].
  apply select_target_sunk; [|done].
  intros Hempty. assert ((5, 7) ∈ tracker after_sink) as Hin
    by (apply (bool_decide_unpack _); vm_compute; exact I).
  rewrite Hempty in Hin. by apply not_elem_of_empty in Hin.
Qed.

(** The reports of the scenario are those of a fleet made of the single
    ship from (5, 5) to (5, 7). *)
Lemma scenario_reports :
  reports [ship_at (5, 5) (5, 7)] [(5, 5); (4, 5); (6, 5); (5, 4); (5, 6); (5, 7)]
  = [(true, false); (false, false); (false, false); (false, false);
     (true, false); (true, true)].
Proof. vm_compute. reflexivity. Qed.

(** C5 fails as stated: after the sunk ship of the scenario the next
    selection leaves [direction] at ["down"]. *)
Lemma select_target_after_sunk_counterexample :
  reachable board_10 after_sink
  ∧ snd (prev_result after_sink) = true
  ∧ ∃ self', select_target after_sink [0; 0] = Done (Some (1, 1), self', [])
             ∧ target self' = None
             ∧ unsuccessful_directions self' = []
             ∧ direction self' = Some Down
             ∧ direction self' ≠ None.
Proof.
  split; [apply reachable_after_sink|]. split; [done|].
  eexists. split; [vm_compute; reflexivity|]. done.
Qed.

(** C5, as the code has it.  When the report says that a ship has sunk,
    the next call of [select_target] empties [target] and
    [unsuccessful_directions] and leaves [direction] as it was; it skips
    the draws that fall on cells of the tracker and selects the first
    drawn cell that is not in the tracker, which is on the board and is
    added to the tracker. *)
Theorem select_target_after_sunk (p : AutomaticPlayer) (is_ship_hit : bool)
    (skipped : list (list Z)) (chosen : list Z) (c : cell) (rest : list Z) :
  tracker p ≠ ∅ →
  Forall (λ draws, ∃ c0, get_random_coordinates p draws = Done (c0, [])
                         ∧ c0 ∈ tracker p) skipped →
  get_random_coordinates p chosen = Done (c, []) →
  c ∉ tracker p →
  ∃ self',
    select_target (receive_result p is_ship_hit true) (concat skipped ++ chosen ++ rest)
    = Done (Some c, self', rest)
    ∧ target self' = None
    ∧ unsuccessful_directions self' = []
    ∧ direction self' = direction p
    ∧ tracker self' = {[c]} ∪ tracker p
    ∧ prev_move self' = Some c
    ∧ (1 ≤ fst c ≤ width (board p) ∧ 1 ≤ snd c ≤ height (board p)).
Proof.
  intros Hne Hskip Hc Hfresh.
  rewrite select_target_sunk by done. unfold hunting.
  rewrite (generate_random_target_ext _ p) by done.
  rewrite (generate_random_target_skips p skipped chosen c rest) by done.
  simpl. eexists. split; [reflexivity|]. simpl.
  repeat (split; [done|]).
  by apply (get_random_coordinates_app _ _ _ _ []) in Hc as (_ & ? & _).
Qed.

Lemma select_target_after_sunk_witness :
  ∃ self',
    select_target after_sink ([4; 4] ++ [3; 4] ++ [2; 2] ++ [9])
    = Done (Some (3, 3), self', [9])
    ∧ target self' = None
    ∧ unsuccessful_directions self' = []
    ∧ direction self' = Some Down.
Proof.
  destruct (select_target_after_sunk after_sink true
              [[4; 4]; [3; 4]] [2; 2] (3, 3) [9])
    as (self' & Hsel & Htg & Hun & Hdir & _).
  - intros Hempty. assert ((5, 7) ∈ tracker after_sink) as Hin
      by (apply (bool_decide_unpack _); vm_compute; exact I).
    rewrite Hempty in Hin. by apply not_elem_of_empty in Hin.
  - repeat constructor.
    + exists (5, 5). split; [reflexivity|].
      apply (bool_decide_unpack _). vm_compute. exact I.
    + exists (4, 5). split; [reflexivity|].
      apply (bool_decide_unpack _). vm_compute. exact I.
  - reflexivity.
  - apply (bool_decide_unpack _). vm_compute. exact I.
  - exists self'. split; [exact Hsel|]. split; [exact Htg|]. split; [exact Hun|].
    exact Hdir.
Defined.

(** ** More on ships *)

(** The order of the two cells given to the constructor does not matter. *)
Theorem Ship_init_order (start end_ : cell) (should_validate : bool) :
  Ship_init start end_ should_validate = Ship_init end_ start should_validate.
Proof.
  unfold Ship_init.
  rewrite (Z.min_comm (fst start)), (Z.max_comm (fst start)),
    (Z.min_comm (snd start)), (Z.max_comm (snd start)).
  reflexivity.
Qed.

(** What the constructor returns. *)
Lemma Ship_init_Done (start end_ : cell) (should_validate : bool) (ship : Ship) :
  Ship_init start end_ should_validate = Done ship →
  x_start ship = Z.min (fst start) (fst end_)
  ∧ x_end ship = Z.max (fst start) (fst end_)
  ∧ y_start ship = Z.min (snd start) (snd end_)
  ∧ y_end ship = Z.max (snd start) (snd end_)
  ∧ cells ship = get_cells ship
  ∧ damaged_cells ship = ∅
  ∧ size (get_cells ship) = Z.to_nat (length ship)
  ∧ 1 ≤ length ship.
Proof.
  destruct start as [xs ys], end_ as [xe ye]. unfold Ship_init; cbn [fst snd].
  destruct (_ && _); [done|]. intros [= <-]. do 6 (split; [done|]).
  unfold get_cells, length, is_horizontal; simpl.
  destruct (Z.eqb_spec (Z.min ys ye) (Z.max ys ye)).
  - destruct (Z.ltb_spec (Z.max xs xe) (Z.min xs xe)); [lia|].
    rewrite size_row. split; [f_equal|]; lia.
  - destruct (Z.ltb_spec (Z.max ys ye) (Z.min ys ye)); [lia|].
    rewrite size_column. split; [f_equal|]; lia.
Qed.

(** Every ship that the constructor returns, validated or not, has
    [length()] cells, stores them in [cells], has no damage and is not
    sunk.  It occupies the two given cells when they share a coordinate;
    when they differ in [y] its cells are those of the column of the
    smaller [x] between the two [y], so that with validation disabled a
    diagonal pair gives a vertical ship. *)
Theorem Ship_init_cells (start end_ : cell) (should_validate : bool) (ship : Ship) :
  Ship_init start end_ should_validate = Done ship →
  cells ship = get_cells ship
  ∧ length ship = Z.of_nat (size (get_cells ship))
  ∧ 1 ≤ length ship
  ∧ count_damaged_cells ship = 0
  ∧ has_sunk ship = false
  ∧ (snd start ≠ snd end_ →
       ∀ c, c ∈ get_cells ship ↔
         fst c = Z.min (fst start) (fst end_)
         ∧ Z.min (snd start) (snd end_) ≤ snd c ≤ Z.max (snd start) (snd end_))
  ∧ (fst start = fst end_ ∨ snd start = snd end_ →
       is_occupying_cell ship start = true ∧ is_occupying_cell ship end_ = true).
Proof.
  intros (Hxs & Hxe & Hys & Hye & Hcells & Hdam & Hsize & Hlen)%Ship_init_Done.
  split; [done|]. split; [lia|]. split; [done|]. split; [|split; [|split]].
  - unfold count_damaged_cells. by rewrite Hdam, size_empty.
  - apply not_true_iff_false. intros Hsunk%has_sunk_subseteq.
    rewrite Hdam in Hsunk.
    assert (get_cells ship = ∅) as Hempty by (apply leibniz_equiv; set_solver).
    rewrite Hempty, size_empty in Hsize. lia.
  - intros Hy c. rewrite elem_of_get_cells by lia.
    unfold is_horizontal. rewrite Hxs, Hys, Hye.
    destruct (Z.eqb_spec (Z.min (snd start) (snd end_)) (Z.max (snd start) (snd end_)));
      [lia|done].
  - intros Haxis. unfold is_occupying_cell.
    rewrite !bool_decide_eq_true, !elem_of_get_cells by lia.
    unfold is_horizontal. rewrite Hxs, Hxe, Hys, Hye.
    destruct (Z.eqb_spec (Z.min (snd start) (snd end_)) (Z.max (snd start) (snd end_)));
      lia.
Qed.

Lemma Ship_init_cells_witness :
  ∃ ship, Ship_init (1, 1) (3, 3) false = Done ship
          ∧ length ship = 3
          ∧ ((3, 3) ∉ get_cells ship).
Proof.
  exists (ship_at (1, 1) (3, 3)).
  destruct (Ship_init_cells (1, 1) (3, 3) false (ship_at (1, 1) (3, 3)) eq_refl)
    as (_ & Hlen & _ & _ & _ & Hcol & _).
  split; [reflexivity|]. split; [reflexivity|].
  rewrite Hcol by done. simpl. lia.
Defined.

(** A cell is near a horizontal or vertical ship exactly when it touches
    one of the cells of the ship. *)
Theorem is_near_cell_touching (self : Ship) (c : cell) :
  is_horizontal self = true ∨ is_vertical self = true →
  x_start self ≤ x_end self → y_start self ≤ y_end self →
  is_near_cell self c = true ↔ ∃ c', c' ∈ get_cells self ∧ touching c c'.
Proof.
  intros Haxis Hx Hy. rewrite is_near_cell_spec. unfold touching. split.
  - intros Hnear.
    exists (Z.max (x_start self) (Z.min (fst c) (x_end self)),
            Z.max (y_start self) (Z.min (snd c) (y_end self))).
    rewrite elem_of_get_cells_box by done. cbn [fst snd]. lia.
  - intros (c' & Hc'%elem_of_get_cells_box & Htouch); [|done..]. lia.
Qed.

Lemma is_near_cell_touching_witness :
  is_near_cell (ship_at (2, 2) (4, 2)) (5, 3) = true
  ↔ ∃ c', c' ∈ get_cells (ship_at (2, 2) (4, 2)) ∧ touching (5, 3) c'.
Proof.
  apply (is_near_cell_touching (ship_at (2, 2) (4, 2)) (5, 3)).
  - left. reflexivity.
  - simpl. lia.
  - simpl. lia.
Defined.

Lemma is_near_ship_spec (self other_ship : Ship) :
  is_near_ship self other_ship = true
  ↔ ∃ c, c ∈ get_cells other_ship ∧ is_near_cell self c = true.
Proof.
  unfold is_near_ship. rewrite existsb_exists. split.
  - intros (c & Hc%list_elem_of_In%elem_of_elements & Hn). by exists c.
  - intros (c & Hc & Hn). exists c. split; [|done].
    by apply list_elem_of_In, elem_of_elements.
Qed.

(** Between horizontal or vertical ships [is_near_ship] is symmetric, and
    two ships that share a cell are near each other. *)
Theorem is_near_ship_sym (a b : Ship) :
  is_horizontal a = true ∨ is_vertical a = true →
  x_start a ≤ x_end a → y_start a ≤ y_end a →
  is_horizontal b = true ∨ is_vertical b = true →
  x_start b ≤ x_end b → y_start b ≤ y_end b →
  is_near_ship a b = is_near_ship b a
  ∧ (overlap a b = true → is_near_ship a b = true).
Proof.
  intros Ha Hax Hay Hb Hbx Hby.
  assert (∀ a b : Ship,
            is_horizontal a = true ∨ is_vertical a = true →
            x_start a ≤ x_end a → y_start a ≤ y_end a →
            is_horizontal b = true ∨ is_vertical b = true →
            x_start b ≤ x_end b → y_start b ≤ y_end b →
            is_near_ship a b = true → is_near_ship b a = true) as Hsym.
  { clear. intros a b Ha Hax Hay Hb Hbx Hby.
    rewrite !is_near_ship_spec.
    intros (c & Hc%elem_of_get_cells_box & Hn%is_near_cell_spec); [|done..].
    exists (Z.max (x_start a) (Z.min (fst c) (x_end a)),
            Z.max (y_start a) (Z.min (snd c) (y_end a))).
    rewrite elem_of_get_cells_box, is_near_cell_spec by done. cbn [fst snd]. lia. }
  split.
  - destruct (is_near_ship a b) eqn:Hab, (is_near_ship b a) eqn:Hba; try done.
    + apply Hsym in Hab; [congruence|done..].
    + apply Hsym in Hba; [congruence|done..].
  - unfold overlap. rewrite existsb_exists.
    intros (c & Hc%list_elem_of_In%elem_of_elements & Hcb%bool_decide_eq_true_1).
    apply is_near_ship_spec. exists c. split; [done|].
    apply is_near_cell_spec. apply elem_of_get_cells_box in Hc; [|done..]. lia.
Qed.

Lemma is_near_ship_sym_witness :
  is_near_ship (ship_at (3, 1) (3, 10)) (ship_at (4, 1) (4, 5))
  = is_near_ship (ship_at (4, 1) (4, 5)) (ship_at (3, 1) (3, 10)).
Proof.
  destruct (is_near_ship_sym (ship_at (3, 1) (3, 10)) (ship_at (4, 1) (4, 5)))
    as [Hsym _].
  - right. reflexivity.
  - simpl. lia.
  - simpl. lia.
  - right. reflexivity.
  - simpl. lia.
  - simpl. lia.
  - exact Hsym.
Defined.

(** ** Sequences of attacks on a ship *)

(** A sequence of attacks changes the damage of the ship and nothing
    else. *)
Lemma receive_damages_record (self : Ship) (attacks : list cell) :
  receive_damages self attacks
  = {| x_start := x_start self; y_start := y_start self;
       x_end := x_end self; y_end := y_end self;
       cells := cells self;
       damaged_cells :=
         damaged_cells self ∪ (list_to_set attacks ∩ get_cells self) |}.
Proof.
  revert self. induction attacks as [|c attacks IH]; intros self; simpl.
  - destruct self as [xs ys xe ye cs ds]; simpl. f_equal. set_solver.
  - rewrite IH. unfold receive_damage, is_occupying_cell.
    destruct (bool_decide_reflect (c ∈ get_cells self)) as [Hin|Hout]; simpl.
    + f_equal. change (get_cells _) with (get_cells self). set_solver.
    + f_equal. set_solver.
Qed.

(** After any sequence of attacks the ship occupies the same cells, and
    its damage is the damage it had plus the attacked cells that it
    occupies; so the damage never shrinks, and neither the order of the
    attacks nor their repetition matters. *)
Theorem receive_damages_damage (self : Ship) (attacks : list cell) :
  get_cells (receive_damages self attacks) = get_cells self
  ∧ damaged_cells (receive_damages self attacks)
    = damaged_cells self ∪ (list_to_set attacks ∩ get_cells self)
  ∧ damaged_cells self ⊆ damaged_cells (receive_damages self attacks)
  ∧ ∀ attacks', (∀ c, c ∈ attacks ↔ c ∈ attacks') →
      receive_damages self attacks' = receive_damages self attacks.
Proof.
  rewrite !receive_damages_record. split; [done|]. split; [done|]. simpl.
  split; [set_solver|]. intros attacks' Hsame. rewrite receive_damages_record.
  f_equal. f_equal. f_equal. apply set_eq. intros c.
  by rewrite !elem_of_list_to_set.
Qed.

(** A ship built by the constructor and then attacked any number of times
    has its damage among its cells, at most [length()] damaged cells, and
    it has sunk exactly when every one of its cells has been attacked,
    which is when the count of damaged cells reaches [length()]. *)
Theorem has_sunk_attacked (start end_ : cell) (should_validate : bool)
    (ship : Ship) (attacks : list cell) :
  Ship_init start end_ should_validate = Done ship →
  damaged_cells (receive_damages ship attacks) ⊆ get_cells ship
  ∧ count_damaged_cells (receive_damages ship attacks) ≤ length ship
  ∧ (has_sunk (receive_damages ship attacks) = true
     ↔ ∀ c, c ∈ get_cells ship → c ∈ attacks)
  ∧ (has_sunk (receive_damages ship attacks) = true
     ↔ count_damaged_cells (receive_damages ship attacks) = length ship).
Proof.
  intros (_ & _ & _ & _ & _ & Hfresh & Hsize & Hpos)%Ship_init_Done.
  assert (length ship = Z.of_nat (size (get_cells ship))) as Hlen by lia.
  assert (get_cells (receive_damages ship attacks) = get_cells ship) as Hcells
    by by rewrite receive_damages_record.
  assert (damaged_cells (receive_damages ship attacks)
          = list_to_set attacks ∩ get_cells ship) as Hdam.
  { rewrite receive_damages_record. simpl. rewrite Hfresh. set_solver. }
  assert (damaged_cells (receive_damages ship attacks) ⊆ get_cells ship) as Hsub
    by (rewrite Hdam; set_solver).
  split; [done|]. split; [|split].
  - unfold count_damaged_cells. rewrite Hlen.
    apply inj_le, subseteq_size, Hsub.
  - rewrite has_sunk_subseteq, Hcells, Hdam. set_solver.
  - rewrite has_sunk_subseteq, Hcells. unfold count_damaged_cells. rewrite Hlen.
    split.
    + intros Hall. f_equal. f_equal. apply leibniz_equiv. set_solver.
    + intros Heq%Nat2Z.inj.
      apply set_subseteq_size_eq in Hsub as ->; [done|lia].
Qed.

Lemma has_sunk_attacked_witness :
  let ship := ship_at (3, 10) (3, 1) in
  let ship' := receive_damages ship [(3, 1); (3, 6); (3, 10); (4, 4)] in
  count_damaged_cells ship' ≤ length ship
  ∧ (has_sunk ship' = true ↔ count_damaged_cells ship' = length ship).
Proof.
  intros ship ship'.
  destruct (has_sunk_attacked (3, 10) (3, 1) true ship
              [(3, 1); (3, 6); (3, 10); (4, 4)] eq_refl) as (_ & Hle & _ & Hiff).
  split; [exact Hle|exact Hiff].
Defined.

(** ** More on the factory *)

(** Every ship, whatever its coordinates, occupies some cell. *)
Lemma get_cells_inhabited (ship : Ship) : ∃ c, c ∈ get_cells ship.
Proof.
  unfold get_cells.
  destruct (is_horizontal ship).
  - destruct (Z.ltb_spec (x_end ship) (x_start ship)).
    + exists (x_end ship, y_start ship). apply elem_of_row. simpl. lia.
    + exists (x_start ship, y_start ship). apply elem_of_row. simpl. lia.
  - destruct (Z.ltb_spec (y_end ship) (y_start ship)).
    + exists (x_start ship, y_end ship). apply elem_of_column. simpl. lia.
    + exists (x_start ship, y_start ship). apply elem_of_column. simpl. lia.
Qed.

(** A candidate for a positive length has that length, and takes three
    draws. *)
Lemma draw_ship_length (self : ShipFactory) (len : Z) (draws : list Z)
    (ship : Ship) (draws' : list Z) :
  1 ≤ len →
  draw_ship self len draws = Done (ship, draws') →
  length ship = len ∧ List.length draws = (3 + List.length draws')%nat.
Proof.
  intros Hlen Hdraw.
  split; [|by apply (draw_ship_app _ _ _ _ _ []) in Hdraw as [_ ?]].
  revert Hdraw. unfold draw_ship.
  destruct (randint 0 1 draws) as [[d draws1]| |] eqn:H1; try done.
  apply randint_range in H1 as [Hd _]. simpl.
  destruct (randint 1 _ draws1) as [[sc draws2]| |] eqn:H2; try done. simpl.
  destruct (randint 1 _ draws2) as [[oc draws3]| |] eqn:H3; try done. simpl.
  unfold create_ship_input.
  destruct (Z.eqb_spec d 0) as [->|Hd0].
  - unfold Ship_init, is_horizontal, is_vertical; cbn [fst snd x_start x_end y_start y_end].
    rewrite Z.min_id, Z.max_id, Z.eqb_refl. simpl. intros [= <- <-].
    unfold length, is_horizontal; simpl. rewrite Z.eqb_refl. lia.
  - unfold Ship_init, is_horizontal, is_vertical; cbn [fst snd x_start x_end y_start y_end].
    rewrite Z.min_id, Z.max_id, Z.eqb_refl, andb_false_r. simpl. intros [= <- <-].
    unfold length, is_horizontal; simpl.
    destruct (Z.eqb_spec (Z.min sc (sc + len - 1)) (Z.max sc (sc + len - 1))); lia.
Qed.

(** The ship that [create_ship] returns is the candidate of its last
    round. *)
Lemma create_ship_loop_Done (fuel : nat) (self : ShipFactory) (len : Z)
    (draws : list Z) (ship : Ship) (self' : ShipFactory) (draws' : list Z) :
  create_ship_loop fuel self len draws = Done (ship, self', draws') →
  (∃ draws0, draw_ship self len draws0 = Done (ship, draws'))
  ∧ is_free self ship = true
  ∧ self' = update_forbidden_cells self ship
  ∧ ∃ rounds : nat, List.length draws = (3 * S rounds + List.length draws')%nat.
Proof.
  revert draws. induction fuel as [|fuel IH]; intros draws; [done|]. simpl.
  destruct (draw_ship self len draws) as [[b draws0]| |] eqn:Hdraw; try done.
  simpl. pose proof (draw_ship_app _ _ _ _ _ [] Hdraw) as [_ Hlen].
  destruct (is_free self b) eqn:Hfree.
  - intros [= <- <- <-]. split; [by exists draws|]. split; [done|]. split; [done|].
    exists 0%nat. lia.
  - intros (? & ? & ? & rounds & Hrounds)%IH. split; [done|]. split; [done|].
    split; [done|]. exists (S rounds). lia.
Qed.

Lemma placing_app self lens1 ships1 self1 lens2 ships2 self2 :
  placing self lens1 ships1 self1 → placing self1 lens2 ships2 self2 →
  placing self (lens1 ++ lens2) (ships1 ++ ships2) self2.
Proof.
  induction 1 as [|self len draws ship draws' lens ships self' Hd Hf _ IH]; [done|].
  intros H2. simpl. eapply placing_cons; [done..|]. by apply IH.
Qed.

Lemma create_ships_placing (count : nat) (self : ShipFactory) (len : Z)
    (ships : list Ship) (draws : list Z) ships' self' draws' :
  create_ships count self len ships draws = Done (ships', self', draws') →
  ∃ new, ships' = ships ++ new ∧ placing self (replicate count len) new self'.
Proof.
  revert self ships draws. induction count as [|count IH]; intros self ships draws; simpl.
  - intros [= <- <- <-]. exists []. split; [by rewrite app_nil_r|constructor].
  - destruct (create_ship self len draws) as [[[b self1] draws1]| |] eqn:Hb; try done.
    simpl. apply create_ship_loop_Done in Hb as ([draws0 Hd] & Hf & -> & _).
    intros (new & -> & Hnew)%IH. exists (b :: new).
    split; [by rewrite <-(assoc_L (++))|]. by eapply placing_cons.
Qed.

Lemma generate_ships_items_placing (items : list (Z * Z)) (self : ShipFactory)
    (ships : list Ship) (draws : list Z) ships' self' draws' :
  generate_ships_items items self ships draws = Done (ships', self', draws') →
  ∃ new, ships' = ships ++ new ∧ placing self (lengths_of items) new self'.
Proof.
  revert self ships draws.
  induction items as [|[len count] items IH]; intros self ships draws; simpl.
  - intros [= <- <- <-]. exists []. split; [by rewrite app_nil_r|constructor].
  - destruct (create_ships _ self len ships draws) as [[[ships1 self1] draws1]| |] eqn:H1;
      try done.
    simpl. apply create_ships_placing in H1 as (new1 & -> & Hnew1).
    intros (new2 & -> & Hnew2)%IH. exists (new1 ++ new2).
    split; [by rewrite <-(assoc_L (++))|].
    change (placing self (replicate (Z.to_nat count) len ++ lengths_of items)
              (new1 ++ new2) self').
    by eapply placing_app.
Qed.

Lemma generate_ships_placing (self : ShipFactory) (draws : list Z) ships self' draws' :
  generate_ships self draws = Done (ships, self', draws') →
  placing self (lengths_of (ships_per_length self)) ships self'.
Proof. by intros (new & -> & Hnew)%generate_ships_items_placing. Qed.

Lemma update_forbidden_cells_subseteq (self : ShipFactory) (ship : Ship) :
  forbidden_cells self ∪ get_cells ship
  ⊆ forbidden_cells (update_forbidden_cells self ship).
Proof. intros c Hc. apply elem_of_update_forbidden_cells. set_solver. Qed.

(** What the accepted ships have in common, on a board of any size. *)
Lemma placing_forbidden self lens ships self' :
  placing self lens ships self' →
  board_size self' = board_size self
  ∧ ships_per_length self' = ships_per_length self
  ∧ forbidden_cells self ⊆ forbidden_cells self'
  ∧ Forall (λ ship, get_cells ship ⊆ forbidden_cells self'
                    ∧ get_cells ship ## forbidden_cells self) ships
  ∧ (∀ i j a b, (i < j)%nat → ships !! i = Some a → ships !! j = Some b →
       get_cells a ## get_cells b).
Proof.
  induction 1 as [|self len draws ship draws' lens ships self' Hd Hf _ IH].
  - split; [done|]. split; [done|]. split; [done|]. split; [constructor|].
    intros i j a b _ Hi. by rewrite lookup_nil in Hi.
  - destruct IH as (Hsize & Hspec & Hsub & Hall & Hpair).
    pose proof (update_forbidden_cells_subseteq self ship) as Hup.
    rewrite is_free_spec in Hf.
    split; [done|]. split; [done|]. split; [set_solver|]. split.
    + constructor; [split; [set_solver|]; by intros c ? ?; eapply Hf|].
      eapply Forall_impl; [exact Hall|]. intros b [? ?]. split; [done|set_solver].
    + intros [|i] [|j] a b Hij; simpl; try lia.
      * intros [= <-] Hb. rewrite Forall_forall in Hall.
        destruct (Hall b) as [_ Hdisj]; [by eapply list_elem_of_lookup_2|]. set_solver.
      * apply Hpair. lia.
Qed.

Lemma placing_lengths self lens ships self' :
  placing self lens ships self' → Forall (λ len, 1 ≤ len) lens →
  length <$> ships = lens
  ∧ Forall (λ ship, on_grid (board_size self) ship
                    ∧ (is_horizontal ship = true ∨ is_vertical ship = true)) ships.
Proof.
  induction 1 as [|self len draws ship draws' lens ships self' Hd Hf _ IH].
  - by split.
  - intros [Hlen Hlens]%Forall_cons. destruct (IH Hlens) as [Hl Hgrid]. split.
    + rewrite fmap_cons. f_equal; [by eapply draw_ship_length|done].
    + constructor; [by eapply draw_ship_on_grid|exact Hgrid].
Qed.

(** For a positive length, the ship that [create_ship] returns has that
    length, is horizontal or vertical, lies on the board, and none of its
    cells was forbidden; the factory that results has the same board, the
    forbidden set updated with the ship, in which all the cells of the
    ship are forbidden, so that the same ship is never accepted again.
    The call has consumed three draws for each of its rounds. *)
Theorem create_ship_Done (self : ShipFactory) (len : Z) (draws : list Z)
    (ship : Ship) (self' : ShipFactory) (draws' : list Z) :
  1 ≤ len →
  create_ship self len draws = Done (ship, self', draws') →
  length ship = len
  ∧ on_grid (board_size self) ship
  ∧ (is_horizontal ship = true ∨ is_vertical ship = true)
  ∧ (get_cells ship ## forbidden_cells self)
  ∧ self' = update_forbidden_cells self ship
  ∧ board_size self' = board_size self
  ∧ get_cells ship ⊆ forbidden_cells self'
  ∧ is_free self' ship = false
  ∧ ∃ rounds : nat, List.length draws = (3 * S rounds + List.length draws')%nat.
Proof.
  intros Hlen ([draws0 Hd] & Hfree & -> & Hrounds)%create_ship_loop_Done.
  destruct (draw_ship_length _ _ _ _ _ Hlen Hd) as [Hl _].
  destruct (draw_ship_on_grid _ _ _ _ _ Hlen Hd) as [Hgrid Haxis].
  pose proof (update_forbidden_cells_subseteq self ship) as Hup.
  split; [done|]. split; [done|]. split; [done|]. split.
  { rewrite is_free_spec in Hfree. intros c ? ?. by eapply Hfree. }
  split; [done|]. split; [done|]. split; [set_solver|]. split; [|done].
  apply not_true_iff_false. rewrite is_free_spec. intros Hnone.
  destruct (get_cells_inhabited ship) as [c Hc]. apply (Hnone c Hc). set_solver.
Qed.

Lemma create_ship_Done_witness :
  ∃ ship self',
    create_ship (ShipFactory_init None None) 3 [1; 2; 3; 9] = Done (ship, self', [9])
    ∧ length ship = 3
    ∧ is_free self' ship = false.
Proof.
  destruct (create_ship (ShipFactory_init None None) 3 [1; 2; 3; 9])
    as [[[ship self'] draws']| |] eqn:Hcreate; [|by vm_compute in Hcreate..].
  assert (draws' = [9]) as -> by (vm_compute in Hcreate; congruence).
  exists ship, self'. split; [reflexivity|].
  destruct (create_ship_Done (ShipFactory_init None None) 3 [1; 2; 3; 9] ship self' [9])
    as (Hlen & _ & _ & _ & _ & _ & _ & Hbusy & _).
  - lia.
  - exact Hcreate.
  - split; [exact Hlen|exact Hbusy].
Defined.

Lemma randint_empty (a b : Z) (draws : list Z) :
  b < a → randint a b draws = Raised ValueError.
Proof. intros Hlt. unfold randint. by destruct (Z.ltb_spec b a); [|lia]. Qed.

(** A ship longer than both sides of the board cannot be drawn: as soon as
    the direction is drawn, [random.randint] is given an empty range and
    [create_ship] raises [ValueError]. *)
Theorem create_ship_too_long (self : ShipFactory) (len r : Z) (draws : list Z) :
  fst (board_size self) < len → snd (board_size self) < len →
  create_ship self len (r :: draws) = Raised ValueError.
Proof.
  intros Hw Hh.
  assert (draw_ship self len (r :: draws) = Raised ValueError) as Hdraw.
  { unfold draw_ship.
    destruct (randint 0 1 (r :: draws)) as [[d draws1]| |] eqn:H1; try done.
    simpl. rewrite randint_empty; [done|].
    unfold getitem. case_match; lia. }
  unfold create_ship. cbn [create_ship_loop List.length]. by rewrite Hdraw.
Qed.

Lemma create_ship_too_long_witness :
  create_ship (ShipFactory_init (Some (3, 2)) None) 4 [0] = Raised ValueError.
Proof.
  apply (create_ship_too_long (ShipFactory_init (Some (3, 2)) None) 4 0 []).
  - simpl. lia.
  - simpl. lia.
Defined.

Lemma draw_ship_fits (self : ShipFactory) (len : Z) (draws : list Z) (e : exn) :
  1 ≤ fst (board_size self) → 1 ≤ snd (board_size self) →
  len ≤ fst (board_size self) → len ≤ snd (board_size self) →
  draw_ship self len draws ≠ Raised e.
Proof.
  intros Hw Hh Hlw Hlh. unfold draw_ship.
  destruct (randint 0 1 draws) as [[d draws1]| |] eqn:H1; simpl;
    [| |done].
  2: { unfold randint in H1. by destruct draws. }
  assert (∀ i, 1 ≤ getitem (board_size self) i ∧ len ≤ getitem (board_size self) i)
    as Hside by (intros i; unfold getitem; case_match; lia).
  destruct (randint 1 _ draws1) as [[sc draws2]| |] eqn:H2; simpl; [| |done].
  2: { unfold randint in H2. destruct (Z.ltb_spec (getitem (board_size self) d - len + 1) 1).
       - specialize (Hside d). lia.
       - by destruct draws1. }
  destruct (randint 1 _ draws2) as [[oc draws3]| |] eqn:H3; simpl; [| |done].
  2: { unfold randint in H3.
       destruct (Z.ltb_spec (getitem (board_size self) ((d + 1) `mod` 2)) 1).
       - specialize (Hside ((d + 1) `mod` 2)). lia.
       - by destruct draws2. }
  apply randint_range in H1 as [Hd _].
  unfold create_ship_input.
  destruct (Z.eqb_spec d 0).
  - unfold Ship_init, is_horizontal; cbn [fst snd x_start x_end y_start y_end].
    by rewrite Z.min_id, Z.max_id, Z.eqb_refl.
  - unfold Ship_init, is_horizontal, is_vertical; cbn [fst snd x_start x_end y_start y_end].
    by rewrite Z.min_id, Z.max_id, Z.eqb_refl, andb_false_r.
Qed.

(** On a board that has cells, a ship no longer than either side never
    makes [create_ship] raise: the call returns a ship or goes on
    drawing. *)
Theorem create_ship_fits (self : ShipFactory) (len : Z) (draws : list Z) (e : exn) :
  1 ≤ fst (board_size self) → 1 ≤ snd (board_size self) →
  len ≤ fst (board_size self) → len ≤ snd (board_size self) →
  create_ship self len draws ≠ Raised e.
Proof.
  intros Hw Hh Hlw Hlh. unfold create_ship.
  generalize (S (List.length draws)) as fuel. intros fuel. revert draws.
  induction fuel as [|fuel IH]; intros draws; [done|]. simpl.
  destruct (draw_ship self len draws) as [[ship draws']| |] eqn:Hdraw; simpl.
  - destruct (is_free self ship); [done|apply IH].
  - by apply draw_ship_fits in Hdraw.
  - done.
Qed.

Lemma create_ship_fits_witness :
  create_ship crowded 1 [0; 0; 0; 1; 1; 1] ≠ Raised ValueError.
Proof.
  apply (create_ship_fits crowded 1 [0; 0; 0; 1; 1; 1] ValueError).
  - simpl. lia.
  - simpl. lia.
  - simpl. lia.
  - simpl. lia.
Defined.

(** In columns and rows 1 to 10, after a horizontal or vertical ship of
    that grid is accepted, a cell is forbidden exactly when it was
    forbidden before or touches a cell of the ship. *)
Theorem update_forbidden_cells_touching (self : ShipFactory) (ship : Ship) (c : cell) :
  is_horizontal ship = true ∨ is_vertical ship = true →
  on_grid (10, 10) ship →
  1 ≤ fst c ≤ 10 → 1 ≤ snd c ≤ 10 →
  c ∈ forbidden_cells (update_forbidden_cells self ship)
  ↔ c ∈ forbidden_cells self ∨ ∃ c', c' ∈ get_cells ship ∧ touching c c'.
Proof.
  intros Haxis Hgrid Hx Hy.
  destruct (update_forbidden_cells_10 self ship Haxis Hgrid) as [_ ->].
  destruct Hgrid as [Hgx Hgy]. cbn [fst snd] in *.
  rewrite elem_of_union, elem_of_halo. cbn [fst snd].
  apply or_iff_compat_l. unfold touching. split.
  - intros Hhalo.
    exists (Z.max (x_start ship) (Z.min (fst c) (x_end ship)),
            Z.max (y_start ship) (Z.min (snd c) (y_end ship))).
    rewrite elem_of_get_cells_box by (done || lia). cbn [fst snd]. lia.
  - intros (c' & Hc'%elem_of_get_cells_box & Htouch); [|done|lia..]. lia.
Qed.

Lemma update_forbidden_cells_touching_witness :
  (2, 2) ∈ forbidden_cells
             (update_forbidden_cells (ShipFactory_init None None) (ship_at (1, 1) (1, 1)))
  ↔ (2, 2) ∈ forbidden_cells (ShipFactory_init None None)
    ∨ ∃ c', c' ∈ get_cells (ship_at (1, 1) (1, 1)) ∧ touching (2, 2) c'.
Proof.
  apply (update_forbidden_cells_touching (ShipFactory_init None None)
           (ship_at (1, 1) (1, 1)) (2, 2)).
  - left. reflexivity.
  - unfold on_grid. simpl. lia.
  - simpl. lia.
  - simpl. lia.
Defined.

(** The fleet that [generate_ships] returns obeys the specification of
    the factory when its lengths are positive: the lengths of the ships
    are, in order, each length of [ships_per_length] repeated as many
    times as its count, and every ship is a horizontal or vertical ship on
    the board.  The board and the specification of the factory are
    unchanged. *)
Theorem generate_ships_lengths (self : ShipFactory) (draws : list Z)
    (ships : list Ship) (self' : ShipFactory) (draws' : list Z) :
  Forall (λ item, 1 ≤ fst item) (ships_per_length self) →
  generate_ships self draws = Done (ships, self', draws') →
  length <$> ships = lengths_of (ships_per_length self)
  ∧ Forall (λ ship, on_grid (board_size self) ship
                    ∧ (is_horizontal ship = true ∨ is_vertical ship = true)) ships
  ∧ board_size self' = board_size self
  ∧ ships_per_length self' = ships_per_length self.
Proof.
  intros Hpos Hplacing%generate_ships_placing.
  assert (Forall (λ len, 1 ≤ len) (lengths_of (ships_per_length self))) as Hlens.
  { clear -Hpos. induction Hpos as [|[len count] items Hlen _ IH]; [constructor|].
    change (lengths_of ((len, count) :: items))
      with (replicate (Z.to_nat count) len ++ lengths_of items).
    apply Forall_app. split; [|done]. by apply Forall_replicate. }
  destruct (placing_lengths _ _ _ _ Hplacing Hlens) as [Hl Hgrid].
  destruct (placing_forbidden _ _ _ _ Hplacing) as (Hb & Hs & _).
  done.
Qed.

Lemma generate_ships_lengths_witness :
  ∃ ships self' draws',
    generate_ships factory_3 draws_3 = Done (ships, self', draws')
    ∧ length <$> ships = [2; 1; 1].
Proof.
  destruct (generate_ships factory_3 draws_3) as [[[ships self'] draws']| |] eqn:Hgen;
    [|by vm_compute in Hgen..].
  exists ships, self', draws'. split; [reflexivity|].
  destruct (generate_ships_lengths factory_3 draws_3 ships self' draws') as [Hl _].
  - repeat constructor; done.
  - exact Hgen.
  - exact Hl.
Defined.

(** On a board of any size, the ships that [generate_ships] returns share
    no cell with each other nor with the cells that were forbidden before
    the call; after the call all their cells are forbidden, and no cell
    has left the forbidden set.  So the ships of a later call on the same
    factory share no cell with those of an earlier call. *)
Theorem generate_ships_disjoint (self : ShipFactory) (draws : list Z)
    (ships : list Ship) (self' : ShipFactory) (draws' : list Z) :
  generate_ships self draws = Done (ships, self', draws') →
  forbidden_cells self ⊆ forbidden_cells self'
  ∧ Forall (λ ship, get_cells ship ⊆ forbidden_cells self'
                    ∧ get_cells ship ## forbidden_cells self) ships
  ∧ (∀ i j a b, i ≠ j → ships !! i = Some a → ships !! j = Some b →
       get_cells a ## get_cells b).
Proof.
  intros (_ & _ & Hsub & Hall & Hpair)%generate_ships_placing%placing_forbidden.
  split; [done|]. split; [done|].
  intros i j a b Hij Ha Hb.
  destruct (decide (i < j)%nat) as [Hlt|Hge].
  - by eapply Hpair.
  - symmetry. eapply (Hpair j i); [lia|done..].
Qed.

Lemma generate_ships_disjoint_witness :
  ∃ ships self' draws',
    generate_ships factory_12 [0; 10; 4; 0; 10; 3] = Done (ships, self', draws')
    ∧ ∀ i j a b, i ≠ j → ships !! i = Some a → ships !! j = Some b →
        get_cells a ## get_cells b.
Proof.
  destruct (generate_ships factory_12 [0; 10; 4; 0; 10; 3])
    as [[[ships self'] draws']| |] eqn:Hgen; [|by vm_compute in Hgen..].
  exists ships, self', draws'. split; [reflexivity|].
  exact (proj2 (proj2 (generate_ships_disjoint factory_12 [0; 10; 4; 0; 10; 3]
                         ships self' draws' Hgen))).
Defined.

Lemma fleet_ok_lookup (ships : list Ship) (i j : nat) (a b : Ship) :
  fleet_ok ships = true → (i < j)%nat →
  ships !! i = Some a → ships !! j = Some b → apart a b = true.
Proof.
  revert i j. induction ships as [|s ships IH]; intros i j; [by rewrite lookup_nil|].
  simpl. intros [Hhead Htail]%andb_prop Hij.
  destruct i as [|i], j as [|j]; simpl; try lia.
  - intros [= <-] Hb. rewrite forallb_forall in Hhead.
    by apply Hhead, list_elem_of_In, list_elem_of_lookup_2 with j.
  - apply IH; [done|lia].
Qed.

(** On a board of at most 10 x 10, no ship of a fleet that
    [generate_ships] returns for positive lengths is near another ship of
    the fleet, in the sense of [is_near_ship]. *)
Theorem generate_ships_apart (self : ShipFactory) (draws : list Z)
    (ships : list Ship) (self' : ShipFactory) (draws' : list Z) :
  fst (board_size self) ≤ 10 → snd (board_size self) ≤ 10 →
  Forall (λ item, 1 ≤ fst item) (ships_per_length self) →
  generate_ships self draws = Done (ships, self', draws') →
  ∀ i j a b, i ≠ j → ships !! i = Some a → ships !! j = Some b →
    is_near_ship a b = false.
Proof.
  intros Hw Hh Hpos Hgen i j a b Hij Ha Hb.
  assert (fleet_ok ships = true) as Hok.
  { eapply (generate_ships_items_placed _ self []); [done..|constructor|done|exact Hgen]. }
  destruct (decide (i < j)%nat) as [Hlt|Hge].
  - pose proof (fleet_ok_lookup _ _ _ _ _ Hok Hlt Ha Hb) as Hap.
    unfold apart in Hap. rewrite !andb_true_iff, !negb_true_iff in Hap. tauto.
  - assert (j < i)%nat as Hlt by lia.
    pose proof (fleet_ok_lookup _ _ _ _ _ Hok Hlt Hb Ha) as Hap.
    unfold apart in Hap. rewrite !andb_true_iff, !negb_true_iff in Hap. tauto.
Qed.

Lemma generate_ships_apart_witness :
  ∃ ships self' draws',
    generate_ships factory_3 draws_3 = Done (ships, self', draws')
    ∧ ∀ i j a b, i ≠ j → ships !! i = Some a → ships !! j = Some b →
        is_near_ship a b = false.
Proof.
  destruct (generate_ships factory_3 draws_3) as [[[ships self'] draws']| |] eqn:Hgen;
    [|by vm_compute in Hgen..].
  exists ships, self', draws'. split; [reflexivity|].
  apply (generate_ships_apart factory_3 draws_3 ships self' draws').
  - simpl. lia.
  - simpl. lia.
  - repeat constructor; done.
  - exact Hgen.
Defined.

(** ** The random player *)

Lemma RandomPlayer_get_random_coordinates_Done (self : RandomPlayer) (draws : list Z)
    (c : cell) (draws' : list Z) :
  RandomPlayer_get_random_coordinates self draws = Done (c, draws') →
  (1 ≤ fst c ≤ width (rp_board self) ∧ 1 ≤ snd c ≤ height (rp_board self))
  ∧ List.length draws = (2 + List.length draws')%nat.
Proof.
  unfold RandomPlayer_get_random_coordinates.
  destruct (randint 1 (width _) draws) as [[x draws1]| |] eqn:H1; try done.
  apply randint_range in H1 as [Hx Hl1]. simpl.
  destruct (randint 1 (height _) draws1) as [[y draws2]| |] eqn:H2; try done.
  apply randint_range in H2 as [Hy Hl2]. simpl.
  intros [= <- <-]. simpl. split; [done|lia].
Qed.

Lemma RandomPlayer_generate_random_target_loop_Done (fuel : nat) (self : RandomPlayer)
    (draws : list Z) (c : cell) (draws' : list Z) :
  RandomPlayer_generate_random_target_loop fuel self draws = Done (c, draws') →
  (c ∉ rp_tracker self)
  ∧ (1 ≤ fst c ≤ width (rp_board self) ∧ 1 ≤ snd c ≤ height (rp_board self))
  ∧ ∃ rounds : nat, List.length draws = (2 * S rounds + List.length draws')%nat.
Proof.
  revert draws. induction fuel as [|fuel IH]; intros draws; [done|]. simpl.
  destruct (RandomPlayer_get_random_coordinates self draws) as [[c0 draws0]| |] eqn:Hc;
    try done.
  apply RandomPlayer_get_random_coordinates_Done in Hc as [Hboard Hlen]. simpl.
  destruct (bool_decide_reflect (c0 ∈ rp_tracker self)) as [Hin|Hout].
  - intros (? & ? & rounds & Hrounds)%IH. split; [done|]. split; [done|].
    exists (S rounds). lia.
  - intros [= <- <-]. split; [done|]. split; [done|]. exists 0%nat. lia.
Qed.

(** The cell that the random player selects is a cell of the board that
    it had not attacked; it is added to the tracker, which grows by
    exactly one cell, and two draws are consumed for each cell tried. *)
Theorem RandomPlayer_select_target_fresh (self : RandomPlayer) (draws : list Z)
    (c : cell) (self' : RandomPlayer) (draws' : list Z) :
  RandomPlayer_select_target self draws = Done (c, self', draws') →
  (c ∉ rp_tracker self)
  ∧ (1 ≤ fst c ≤ width (rp_board self) ∧ 1 ≤ snd c ≤ height (rp_board self))
  ∧ rp_board self' = rp_board self
  ∧ rp_tracker self' = {[c]} ∪ rp_tracker self
  ∧ size (rp_tracker self') = S (size (rp_tracker self))
  ∧ ∃ rounds : nat, List.length draws = (2 * S rounds + List.length draws')%nat.
Proof.
  unfold RandomPlayer_select_target, RandomPlayer_generate_random_target.
  destruct (RandomPlayer_generate_random_target_loop _ self draws)
    as [[c0 draws0]| |] eqn:Hloop; try done.
  apply RandomPlayer_generate_random_target_loop_Done in Hloop as (Hfresh & Hboard & Hrounds).
  simpl. intros [= <- <- <-]. simpl.
  split; [done|]. split; [done|]. split; [done|]. split; [done|]. split; [|done].
  rewrite size_union by set_solver. rewrite size_singleton. lia.
Qed.

Lemma RandomPlayer_select_target_fresh_witness :
  let self := {| rp_board := board_10; rp_tracker := {[ (5, 5) ]} |} in
  ∃ c self' draws',
    RandomPlayer_select_target self [4; 4; 2; 7; 1] = Done (c, self', draws')
    ∧ (c ∉ rp_tracker self)
    ∧ size (rp_tracker self') = 2%nat.
Proof.
  intros self.
  destruct (RandomPlayer_select_target self [4; 4; 2; 7; 1])
    as [[[c self'] draws']| |] eqn:Hsel; [|by vm_compute in Hsel..].
  exists c, self', draws'. split; [reflexivity|].
  destruct (RandomPlayer_select_target_fresh self [4; 4; 2; 7; 1] c self' draws' Hsel)
    as (Hfresh & _ & _ & _ & Hsize & _).
  split; [exact Hfresh|]. rewrite Hsize. reflexivity.
Defined.

(** Once every cell of the board is in the tracker the random player
    cannot select a cell: on every supply of draws the search goes on
    until the supply is used up. *)
Theorem RandomPlayer_select_target_exhausted (self : RandomPlayer) (draws : list Z) :
  1 ≤ width (rp_board self) → 1 ≤ height (rp_board self) →
  (∀ c, 1 ≤ fst c ≤ width (rp_board self) → 1 ≤ snd c ≤ height (rp_board self) →
        c ∈ rp_tracker self) →
  RandomPlayer_select_target self draws = Starved.
Proof.
  intros Hw Hh Hfull.
  unfold RandomPlayer_select_target, RandomPlayer_generate_random_target.
  generalize (S (List.length draws)) as fuel. intros fuel.
  assert (RandomPlayer_generate_random_target_loop fuel self draws = Starved) as ->; [|done].
  revert draws. induction fuel as [|fuel IH]; intros draws; [done|]. simpl.
  destruct (RandomPlayer_get_random_coordinates self draws) as [[c0 draws0]| |] eqn:Hc.
  - apply RandomPlayer_get_random_coordinates_Done in Hc as [[Hx Hy] _]. simpl.
    rewrite bool_decide_eq_true_2 by by apply Hfull. apply IH.
  - exfalso. revert Hc. unfold RandomPlayer_get_random_coordinates, randint.
    destruct (Z.ltb_spec (width (rp_board self)) 1); [lia|].
    destruct draws as [|r1 draws1]; [done|]. simpl.
    destruct (Z.ltb_spec (height (rp_board self)) 1); [lia|].
    by destruct draws1.
  - done.
Qed.

Lemma RandomPlayer_select_target_exhausted_witness :
  RandomPlayer_select_target
    {| rp_board := {| width := 1; height := 1 |}; rp_tracker := {[ (1, 1) ]} |}
    [0; 0; 3; 4; 5; 6]
  = Starved.
Proof.
  apply (RandomPlayer_select_target_exhausted
           {| rp_board := {| width := 1; height := 1 |}; rp_tracker := {[ (1, 1) ]} |}).
  - simpl. lia.
  - simpl. lia.
  - simpl. intros [x y] Hx Hy. simpl in *.
    assert (x = 1) as -> by lia. assert (y = 1) as -> by lia.
    by apply elem_of_singleton.
Defined.

(** ** More on the automatic player *)

(** What [find] returns is the first element that passes the test. *)
Lemma find_first {A} (f : A → bool) (l : list A) (x : A) :
  find f l = Some x →
  f x = true ∧ ∃ l1 l2, l = l1 ++ x :: l2 ∧ Forall (λ y, f y = false) l1.
Proof.
  induction l as [|y l IH]; [done|]. simpl. destruct (f y) eqn:Hy.
  - intros [= <-]. split; [done|]. exists [], l. by split.
  - intros [Hx (l1 & l2 & -> & Hl1)]%IH. split; [done|].
    exists (y :: l1), l2. split; [done|]. by constructor.
Qed.

Lemma tracker_nonempty (self : AutomaticPlayer) :
  bool_decide (size (tracker self) = 0%nat) = false ↔ tracker self ≠ ∅.
Proof.
  rewrite bool_decide_eq_false. split.
  - intros Hsize Heq. apply Hsize. rewrite Heq. apply size_empty.
  - intros Hne ?%size_empty_inv%leibniz_equiv. done.
Qed.

(** The branches of [select_target] that select a cell, one by one:
    hunting; hunting after a sunk ship; the first probe around a hit; one
    more step in the direction of the last hit; the turn to the opposite
    direction; the next direction after a miss. *)
Lemma select_target_step (self : AutomaticPlayer) (draws : list Z) (c : cell)
    (self' : AutomaticPlayer) (draws' : list Z) :
  select_target self draws = Done (Some c, self', draws') →
  board self' = board self ∧ prev_result self' = prev_result self
  ∧ tracker self' = {[c]} ∪ tracker self ∧ prev_move self' = Some c
  ∧ ((generate_random_target self draws = Done (c, draws')
      ∧ (tracker self = ∅ ∨ prev_result self = (false, false) ∧ target self = None)
      ∧ target self' = target self ∧ direction self' = direction self
      ∧ unsuccessful_directions self' = unsuccessful_directions self)
     ∨ (generate_random_target self draws = Done (c, draws')
        ∧ tracker self ≠ ∅ ∧ snd (prev_result self) = true
        ∧ target self' = None ∧ direction self' = direction self
        ∧ unsuccessful_directions self' = [])
     ∨ (∃ pm d before after,
          tracker self ≠ ∅ ∧ prev_result self = (true, false)
          ∧ target self = None ∧ prev_move self = Some pm
          ∧ keys = before ++ d :: after
          ∧ Forall (λ d', is_valid self (possible_moves pm d') = false) before
          ∧ is_valid self (possible_moves pm d) = true
          ∧ c = possible_moves pm d
          ∧ target self' = Some pm ∧ direction self' = Some d
          ∧ unsuccessful_directions self' = unsuccessful_directions self
          ∧ draws' = draws)
     ∨ (∃ tg pm d,
          tracker self ≠ ∅ ∧ prev_result self = (true, false)
          ∧ target self = Some tg ∧ prev_move self = Some pm ∧ direction self = Some d
          ∧ is_valid self (possible_moves pm d) = true
          ∧ c = possible_moves pm d
          ∧ target self' = Some tg ∧ direction self' = Some d
          ∧ unsuccessful_directions self' = unsuccessful_directions self
          ∧ draws' = draws)
     ∨ (∃ tg pm d,
          tracker self ≠ ∅ ∧ prev_result self = (true, false)
          ∧ target self = Some tg ∧ prev_move self = Some pm ∧ direction self = Some d
          ∧ is_valid self (possible_moves pm d) = false
          ∧ c = possible_moves tg (opposite_direction d)
          ∧ target self' = Some tg ∧ direction self' = Some (opposite_direction d)
          ∧ unsuccessful_directions self' = unsuccessful_directions self
          ∧ draws' = draws)
     ∨ (∃ tg d before after,
          tracker self ≠ ∅ ∧ prev_result self = (false, false)
          ∧ target self = Some tg
          ∧ unsuccessful_directions self'
            = unsuccessful_directions self ++ [direction self]
          ∧ keys = before ++ d :: after
          ∧ Forall (λ d', Some d' ∈ unsuccessful_directions self'
                          ∨ is_valid self (possible_moves tg d') = false) before
          ∧ (Some d ∉ unsuccessful_directions self')
          ∧ is_valid self (possible_moves tg d) = true
          ∧ c = possible_moves tg d
          ∧ target self' = Some tg ∧ direction self' = Some d
          ∧ draws' = draws)).
Proof.
  unfold select_target.
  destruct (bool_decide (size (tracker self) = 0%nat)) eqn:Hsize.
  { apply bool_decide_eq_true_1, size_empty_inv, leibniz_equiv in Hsize.
    destruct (generate_random_target self draws) as [[c0 draws0]| |] eqn:Hr; try done.
    simpl. intros [= <- <- <-]. do 4 (split; [done|]). left. split; [done|].
    split; [by left|done]. }
  apply tracker_nonempty in Hsize.
  destruct (prev_result self) as [hit sunk] eqn:Hres; cbn [fst snd]. destruct sunk.
  { rewrite (generate_random_target_ext _ self) by done.
    destruct (generate_random_target self draws) as [[c0 draws0]| |] eqn:Hr; try done.
    simpl. intros [= <- <- <-]. do 4 (split; [done|]). right; left. done. }
  destruct hit.
  - destruct (target self) as [tg|] eqn:Htg.
    + destruct (prev_move self) as [pm|] eqn:Hpm; [|done].
      destruct (direction self) as [d|] eqn:Hd; [|done].
      destruct (is_valid self (possible_moves pm d)) eqn:Hv.
      * intros [= <- <- <-]. do 4 (split; [done|]). do 3 right; left.
        by exists tg, pm, d.
      * intros [= <- <- <-]. do 4 (split; [done|]). do 4 right; left.
        by exists tg, pm, d.
    + change (prev_move (set_target self (prev_move self))) with (prev_move self).
      destruct (prev_move self) as [pm|] eqn:Hpm; [|done].
      destruct (find _ keys) as [d|] eqn:Hfind; [|done].
      apply find_first in Hfind as (Hv & before & after & Hkeys & Hbefore).
      intros [= <- <- <-]. do 4 (split; [done|]). do 2 right; left.
      by exists pm, d, before, after.
  - destruct (target self) as [tg|] eqn:Htg.
    + destruct (find _ keys) as [d|] eqn:Hfind; [|done].
      apply find_first in Hfind as ([Hd Hv]%andb_prop & before & after & Hkeys & Hbefore).
      intros [= <- <- <-]. do 4 (split; [done|]). do 5 right.
      exists tg, d, before, after. do 5 (split; [done|]). split; [|split].
      * eapply Forall_impl; [exact Hbefore|]. intros d' [H1|H2]%andb_false_iff.
        -- left. by apply negb_false_iff, bool_decide_eq_true_1 in H1.
        -- by right.
      * by apply negb_true_iff, bool_decide_eq_false_1 in Hd.
      * done.
    + destruct (generate_random_target self draws) as [[c0 draws0]| |] eqn:Hr; try done.
      simpl. intros [= <- <- <-]. do 4 (split; [done|]). left. split; [done|].
      split; [by right|done].
Qed.

(** A move leads to a different cell that touches the first one, the
    move in the opposite direction leads back, and the opposite of the
    opposite direction is the direction itself. *)
Theorem possible_moves_opposite (c : cell) (d : Direction) :
  possible_moves (possible_moves c d) (opposite_direction d) = c
  ∧ opposite_direction (opposite_direction d) = d
  ∧ opposite_direction d ≠ d
  ∧ possible_moves c d ≠ c
  ∧ touching c (possible_moves c d).
Proof.
  destruct c as [x y]. unfold touching.
  destruct d; simpl; unfold move_left, move_right, move_up, move_down; simpl;
    (split; [f_equal; lia|]); (split; [done|]); (split; [done|]);
    (split; [intros [=]; lia|lia]).
Qed.

Lemma generate_random_target_raises (self : AutomaticPlayer) (draws : list Z) (e : exn) :
  generate_random_target self draws = Raised e →
  e = ValueError ∧ (width (board self) < 1 ∨ height (board self) < 1).
Proof.
  unfold generate_random_target. generalize (S (List.length draws)) as fuel.
  intros fuel. revert draws. induction fuel as [|fuel IH]; intros draws; [done|]. simpl.
  destruct (get_random_coordinates self draws) as [[c0 draws0]| |] eqn:Hc; simpl.
  - destruct (bool_decide (c0 ∈ tracker self)); [apply IH|done].
  - intros [= <-]. revert Hc. unfold get_random_coordinates, randint.
    destruct (Z.ltb_spec (width (board self)) 1); simpl; [intros [= <-]; split; [done|lia]|].
    destruct draws as [|r1 draws1]; [done|]. simpl.
    destruct (Z.ltb_spec (height (board self)) 1); simpl; [intros [= <-]; split; [done|lia]|].
    by destruct draws1.
  - done.
Qed.

(** A turn keeps the player consistent. *)
Lemma select_target_consistent (self : AutomaticPlayer) (draws : list Z) (c : cell)
    (self' : AutomaticPlayer) (draws' : list Z) :
  consistent self →
  select_target self draws = Done (Some c, self', draws') →
  consistent self'.
Proof.
  intros (Hinit & Hmoved & Htarget & Hnone) Hsel.
  apply select_target_step in Hsel as (Hb & Hres & Htr & Hpm & Hcases).
  assert (tracker self' ≠ ∅) as Hne' by (rewrite Htr; set_solver).
  unfold consistent. rewrite Hb, Hpm, Htr.
  destruct Hcases as
    [(Hr & Hwhen & Ht & Hd & Hu)
    |[(Hr & Hne & Hsunk & Ht & Hd & Hu)
    |[(pm & d & before & after & Hne & _ & Htn & Hpm0 & _ & _ & _ & -> & Ht & Hd & Hu & _)
    |[(tg & pm & d & Hne & _ & Htg & _ & _ & _ & _ & Ht & Hd & Hu & _)
    |[(tg & pm & d & Hne & _ & Htg & _ & _ & _ & _ & Ht & Hd & Hu & _)
    |(tg & d & before & after & Hne & _ & Htg & Hu & _ & _ & _ & _ & _ & Ht & Hd & _)]]]]].
  - apply generate_random_target_loop_fresh in Hr as (_ & Hx & Hy).
    split; [set_solver|]. split; [intros _; split; [exists c; set_solver|lia]|].
    rewrite Ht, Hd, Hu. split; [|done].
    intros tg Htg. destruct (Htarget tg Htg) as [Hin Hdir].
    split; [set_solver|]. destruct Hwhen as [Hempty|[_ Hnt]]; [|congruence].
    destruct (Hinit Hempty) as (_ & ? & _). congruence.
  - destruct (Hmoved Hne) as (_ & Hw & Hh).
    split; [set_solver|]. split; [intros _; split; [exists c; set_solver|done]|].
    rewrite Ht, Hu. split; [done|done].
  - destruct (Hmoved Hne) as ((pm' & Hpm' & Hin) & Hw & Hh).
    assert (pm' = pm) as -> by congruence.
    split; [set_solver|].
    split; [intros _; split; [exists (possible_moves pm d); set_solver|done]|].
    rewrite Ht, Hd. split; [|done]. intros tg [= <-]. split; [set_solver|by exists d].
  - destruct (Hmoved Hne) as (_ & Hw & Hh). destruct (Htarget tg Htg) as [Hin _].
    split; [set_solver|]. split; [intros _; split; [exists c; set_solver|done]|].
    rewrite Ht, Hd. split; [|done]. intros tg' [= <-]. split; [set_solver|by exists d].
  - destruct (Hmoved Hne) as (_ & Hw & Hh). destruct (Htarget tg Htg) as [Hin _].
    split; [set_solver|]. split; [intros _; split; [exists c; set_solver|done]|].
    rewrite Ht, Hd. split; [|done]. intros tg' [= <-].
    split; [set_solver|by eexists].
  - destruct (Hmoved Hne) as (_ & Hw & Hh). destruct (Htarget tg Htg) as [Hin _].
    split; [set_solver|]. split; [intros _; split; [exists c; set_solver|done]|].
    rewrite Ht, Hd. split; [|done]. intros tg' [= <-]. split; [set_solver|by exists d].
Qed.

Lemma reachable_consistent (b : Board) (self : AutomaticPlayer) :
  reachable b self → board self = b ∧ consistent self.
Proof.
  induction 1 as [|self draws c self' draws' hit sunk _ [Hb Hc] Hsel _].
  - split; [done|]. unfold consistent; simpl. split; [done|]. split; [done|].
    split; [done|done].
  - pose proof (select_target_consistent _ _ _ _ _ Hc Hsel) as Hc'.
    apply select_target_step in Hsel as (Hb' & _). split; [simpl; congruence|].
    exact Hc'.
Qed.

(** In a state that a game can reach, [select_target] never raises
    [KeyError] or [UnboundLocalError]: the dictionaries it reads exist and
    the direction it looks up is set.  The only exception it can raise is
    the [ValueError] of [random.randint], before the first move, on a
    board without cells.  The state is also consistent: the previous move
    and the target are cells of the tracker, and a target comes with a
    direction. *)
Theorem select_target_reachable (b : Board) (self : AutomaticPlayer) :
  reachable b self →
  board self = b ∧ consistent self
  ∧ ∀ draws e, select_target self draws = Raised e →
      e = ValueError ∧ tracker self = ∅ ∧ (width b < 1 ∨ height b < 1).
Proof.
  intros [Hb (Hinit & Hmoved & Htarget & Hnone)]%reachable_consistent.
  split; [done|]. split; [done|]. intros draws e. unfold select_target.
  destruct (bool_decide (size (tracker self) = 0%nat)) eqn:Hsize.
  { apply bool_decide_eq_true_1, size_empty_inv, leibniz_equiv in Hsize.
    destruct (generate_random_target self draws) as [[c0 draws0]| |] eqn:Hr; try done.
    simpl. intros [= <-]. apply generate_random_target_raises in Hr as [-> Hdim].
    by rewrite <-Hb. }
  apply tracker_nonempty in Hsize. destruct (Hmoved Hsize) as ((pm & Hpm & _) & Hw & Hh).
  destruct (prev_result self) as [hit sunk]; cbn [fst snd]. destruct sunk.
  { destruct (generate_random_target _ draws) as [[c0 draws0]| |] eqn:Hr; try done.
    simpl. intros [= <-]. apply generate_random_target_raises in Hr as [_ Hdim].
    simpl in Hdim. lia. }
  destruct hit.
  - destruct (target self) as [tg|] eqn:Htg.
    + rewrite Hpm. destruct (Htarget tg eq_refl) as [_ [d ->]].
      by destruct (is_valid self (possible_moves pm d)).
    + change (prev_move (set_target self (prev_move self))) with (prev_move self).
      rewrite Hpm. by destruct (find _ keys).
  - destruct (target self) as [tg|] eqn:Htg.
    + by destruct (find _ keys).
    + destruct (generate_random_target self draws) as [[c0 draws0]| |] eqn:Hr; try done.
      simpl. intros [= <-]. apply generate_random_target_raises in Hr as [_ Hdim]. lia.
Qed.

Lemma select_target_reachable_witness :
  consistent blocked_between
  ∧ ∀ draws e, select_target blocked_between draws = Raised e →
      e = ValueError ∧ tracker blocked_between = ∅
      ∧ (width board_10 < 1 ∨ height board_10 < 1).
Proof.
  destruct (select_target_reachable board_10 blocked_between) as (_ & Hc & Hraise).
  - apply reachable_blocked_between.
  - split; [exact Hc|exact Hraise].
Defined.

(** While a ship is being worked on (the last report is a hit that sank
    nothing, or a target is set and nothing sank) a selection consumes no
    draw and leaves the player with a target and a direction; the
    selected cell is one step in that direction from the target or, when
    the last hit is followed up, from the previous move. *)
Theorem select_target_probe (self : AutomaticPlayer) (draws : list Z) (c : cell)
    (self' : AutomaticPlayer) (draws' : list Z) :
  tracker self ≠ ∅ →
  snd (prev_result self) = false →
  fst (prev_result self) = true ∨ target self ≠ None →
  select_target self draws = Done (Some c, self', draws') →
  draws' = draws
  ∧ ∃ tg d, target self' = Some tg ∧ direction self' = Some d
            ∧ (c = possible_moves tg d
               ∨ ∃ pm, prev_move self = Some pm ∧ c = possible_moves pm d).
Proof.
  intros Hne Hsunk Hwork (_ & _ & _ & _ & Hcases)%select_target_step.
  destruct Hcases as
    [(_ & Hwhen & _)
    |[(_ & _ & Hs & _)
    |[(pm & d & before & after & _ & _ & _ & _ & _ & _ & _ & -> & Ht & Hd & _ & ->)
    |[(tg & pm & d & _ & _ & _ & Hpm & _ & _ & -> & Ht & Hd & _ & ->)
    |[(tg & pm & d & _ & _ & _ & _ & _ & _ & -> & Ht & Hd & _ & ->)
    |(tg & d & before & after & _ & _ & _ & _ & _ & _ & _ & _ & -> & Ht & Hd & ->)]]]]].
  - destruct Hwhen as [Hempty|[Hres Htn]]; [done|].
    rewrite Hres in Hwork. destruct Hwork as [?|?]; done.
  - congruence.
  - split; [done|]. exists pm, d. by auto.
  - split; [done|]. exists tg, d. split; [done|]. split; [done|]. right. by exists pm.
  - split; [done|]. exists tg, (opposite_direction d). by auto.
  - split; [done|]. exists tg, d. by auto.
Qed.

Lemma select_target_probe_witness :
  ∃ c self' draws',
    select_target blocked_between [7; 7] = Done (Some c, self', draws')
    ∧ draws' = [7; 7]
    ∧ ∃ tg d, target self' = Some tg ∧ direction self' = Some d
              ∧ (c = possible_moves tg d
                 ∨ ∃ pm, prev_move blocked_between = Some pm ∧ c = possible_moves pm d).
Proof.
  destruct (select_target blocked_between [7; 7]) as [[[[c|] self'] draws']| |] eqn:Hsel;
    [|by vm_compute in Hsel..].
  exists c, self', draws'. split; [reflexivity|].
  apply (select_target_probe blocked_between [7; 7] c self' draws').
  - intros Hempty. assert ((5, 5) ∈ tracker blocked_between) as Hin
      by (apply (bool_decide_unpack _); vm_compute; exact I).
    rewrite Hempty in Hin. by apply not_elem_of_empty in Hin.
  - reflexivity.
  - left. reflexivity.
  - exact Hsel.
Defined.

(** After a first hit (a hit that sank nothing, with no target set) the
    previous move becomes the target, and the selected cell is its
    neighbour in the first of the directions left, right, up, down whose
    neighbour is valid; that direction becomes the player's direction. *)
Theorem select_target_first_hit (self : AutomaticPlayer) (draws : list Z) (c : cell)
    (self' : AutomaticPlayer) (draws' : list Z) :
  tracker self ≠ ∅ →
  prev_result self = (true, false) →
  target self = None →
  select_target self draws = Done (Some c, self', draws') →
  ∃ pm d before after,
    prev_move self = Some pm
    ∧ [Left; Right; Up; Down] = before ++ d :: after
    ∧ Forall (λ d', is_valid self (possible_moves pm d') = false) before
    ∧ is_valid self (possible_moves pm d) = true
    ∧ c = possible_moves pm d
    ∧ target self' = Some pm
    ∧ direction self' = Some d.
Proof.
  intros Hne Hres Htn (_ & _ & _ & _ & Hcases)%select_target_step.
  destruct Hcases as
    [(_ & Hwhen & _)
    |[(_ & _ & Hs & _)
    |[(pm & d & before & after & _ & _ & _ & Hpm & Hkeys & Hbefore & Hv & -> & Ht & Hd & _)
    |[(tg & pm & d & _ & _ & Htg & _)
    |[(tg & pm & d & _ & _ & Htg & _)
    |(tg & d & before & after & _ & _ & Htg & _)]]]]]; try congruence.
  - destruct Hwhen as [?|[? _]]; [done|congruence].
  - rewrite Hres in Hs. done.
  - by exists pm, d, before, after.
Qed.

Lemma select_target_first_hit_witness :
  ∃ c self' draws',
    select_target after_first_hit [] = Done (Some c, self', draws')
    ∧ ∃ pm d before after,
        prev_move after_first_hit = Some pm
        ∧ [Left; Right; Up; Down] = before ++ d :: after
        ∧ Forall (λ d', is_valid after_first_hit (possible_moves pm d') = false) before
        ∧ is_valid after_first_hit (possible_moves pm d) = true
        ∧ c = possible_moves pm d
        ∧ target self' = Some pm
        ∧ direction self' = Some d.
Proof.
  destruct (select_target after_first_hit []) as [[[[c|] self'] draws']| |] eqn:Hsel;
    [|by vm_compute in Hsel..].
  exists c, self', draws'. split; [reflexivity|].
  apply (select_target_first_hit after_first_hit [] c self' draws').
  - intros Hempty. assert ((5, 5) ∈ tracker after_first_hit) as Hin
      by (apply (bool_decide_unpack _); vm_compute; exact I).
    rewrite Hempty in Hin. by apply not_elem_of_empty in Hin.
  - reflexivity.
  - reflexivity.
  - exact Hsel.
Defined.

(** After a miss with a target set, the direction of the missed probe is
    added to the unsuccessful directions, and the selected cell is the
    neighbour of the target in the first of the directions left, right,
    up, down that is not unsuccessful and whose neighbour is valid; the
    target is kept and that direction becomes the player's direction. *)
Theorem select_target_after_miss (self : AutomaticPlayer) (draws : list Z) (c : cell)
    (self' : AutomaticPlayer) (draws' : list Z) (tg : cell) :
  tracker self ≠ ∅ →
  prev_result self = (false, false) →
  target self = Some tg →
  select_target self draws = Done (Some c, self', draws') →
  unsuccessful_directions self' = unsuccessful_directions self ++ [direction self]
  ∧ target self' = Some tg
  ∧ ∃ d before after,
      [Left; Right; Up; Down] = before ++ d :: after
      ∧ Forall (λ d', Some d' ∈ unsuccessful_directions self'
                      ∨ is_valid self (possible_moves tg d') = false) before
      ∧ (Some d ∉ unsuccessful_directions self')
      ∧ is_valid self (possible_moves tg d) = true
      ∧ c = possible_moves tg d
      ∧ direction self' = Some d.
Proof.
  intros Hne Hres Htg (_ & _ & _ & _ & Hcases)%select_target_step.
  destruct Hcases as
    [(_ & Hwhen & _)
    |[(_ & _ & Hs & _)
    |[(pm & d & before & after & _ & Hr & _)
    |[(tg' & pm & d & _ & Hr & _)
    |[(tg' & pm & d & _ & Hr & _)
    |(tg' & d & before & after & _ & _ & Htg' & Hu & Hkeys & Hbefore & Hd & Hv & -> & Ht & Hdir & _)]]]]];
    try congruence.
  - destruct Hwhen as [?|[_ ?]]; [done|congruence].
  - rewrite Hres in Hs. done.
  - assert (tg' = tg) as -> by congruence.
    split; [done|]. split; [done|]. by exists d, before, after.
Qed.

Lemma select_target_after_miss_witness :
  ∃ c self' draws',
    select_target after_first_miss [] = Done (Some c, self', draws')
    ∧ unsuccessful_directions self' = [Some Left]
    ∧ target self' = Some (5, 5).
Proof.
  destruct (select_target after_first_miss []) as [[[[c|] self'] draws']| |] eqn:Hsel;
    [|by vm_compute in Hsel..].
  exists c, self', draws'. split; [reflexivity|].
  destruct (select_target_after_miss after_first_miss [] c self' draws' (5, 5))
    as (Hu & Ht & _).
  - intros Hempty. assert ((5, 5) ∈ tracker after_first_miss) as Hin
      by (apply (bool_decide_unpack _); vm_compute; exact I).
    rewrite Hempty in Hin. by apply not_elem_of_empty in Hin.
  - reflexivity.
  - reflexivity.
  - exact Hsel.
  - split; [exact Hu|exact Ht].
Defined.

(** When no ship is being worked on and none has just sunk (at the very
    start, or after a miss with no target) the player hunts: it skips the
    draws that fall on cells of the tracker and selects the first drawn
    cell that is not in the tracker; only the previous move and the
    tracker change. *)
Theorem select_target_hunts (self : AutomaticPlayer) (skipped : list (list Z))
    (chosen : list Z) (c : cell) (rest : list Z) :
  tracker self = ∅ ∨ prev_result self = (false, false) ∧ target self = None →
  Forall (λ draws, ∃ c0, get_random_coordinates self draws = Done (c0, [])
                         ∧ c0 ∈ tracker self) skipped →
  get_random_coordinates self chosen = Done (c, []) →
  c ∉ tracker self →
  select_target self (concat skipped ++ chosen ++ rest)
  = Done (Some c, attack self c, rest).
Proof.
  intros Hwhen Hskip Hc Hfresh.
  pose proof (generate_random_target_skips self skipped chosen c rest Hskip Hc Hfresh)
    as Hhunt.
  unfold select_target.
  destruct (bool_decide (size (tracker self) = 0%nat)) eqn:Hsize.
  { by rewrite Hhunt. }
  apply tracker_nonempty in Hsize.
  destruct Hwhen as [?|[-> ->]]; [done|]. cbn [fst snd]. by rewrite Hhunt.
Qed.

Lemma select_target_hunts_witness :
  select_target (AutomaticPlayer_init board_10) ([] ++ [4; 4] ++ [6])
  = Done (Some (5, 5), attack (AutomaticPlayer_init board_10) (5, 5), [6]).
Proof.
  apply (select_target_hunts (AutomaticPlayer_init board_10) [] [4; 4] (5, 5) [6]).
  - left. reflexivity.
  - constructor.
  - reflexivity.
  - apply not_elem_of_empty.
Defined.

Lemma generate_random_target_full (self : AutomaticPlayer) (draws : list Z) :
  1 ≤ width (board self) → 1 ≤ height (board self) →
  (∀ c, 1 ≤ fst c ≤ width (board self) → 1 ≤ snd c ≤ height (board self) →
        c ∈ tracker self) →
  generate_random_target self draws = Starved.
Proof.
  intros Hw Hh Hfull. unfold generate_random_target.
  generalize (S (List.length draws)) as fuel. intros fuel.
  revert draws. induction fuel as [|fuel IH]; intros draws; [done|]. simpl.
  destruct (get_random_coordinates self draws) as [[c0 draws0]| |] eqn:Hc.
  - apply (get_random_coordinates_app _ _ _ _ []) in Hc as (_ & [Hx Hy] & _). simpl.
    rewrite bool_decide_eq_true_2 by by apply Hfull. apply IH.
  - exfalso. revert Hc. unfold get_random_coordinates, randint.
    destruct (Z.ltb_spec (width (board self)) 1); [lia|].
    destruct draws as [|r1 draws1]; [done|]. simpl.
    destruct (Z.ltb_spec (height (board self)) 1); [lia|].
    by destruct draws1.
  - done.
Qed.

(** Once every cell of the board is in the tracker, a call of
    [select_target] that hunts (after a sunk ship, or after a miss with no
    target) selects nothing and raises nothing: on every supply of draws
    the search goes on until the supply is used up. *)
Theorem select_target_exhausted (self : AutomaticPlayer) (draws : list Z) :
  1 ≤ width (board self) → 1 ≤ height (board self) →
  (∀ c, 1 ≤ fst c ≤ width (board self) → 1 ≤ snd c ≤ height (board self) →
        c ∈ tracker self) →
  snd (prev_result self) = true
  ∨ fst (prev_result self) = false ∧ target self = None →
  select_target self draws = Starved.
Proof.
  intros Hw Hh Hfull Hwhen.
  assert (tracker self ≠ ∅) as Hne.
  { intros Hempty. assert ((1, 1) ∈ tracker self) as Hin by (apply Hfull; simpl; lia).
    rewrite Hempty in Hin. by apply not_elem_of_empty in Hin. }
  unfold select_target. rewrite (proj2 (tracker_nonempty self) Hne).
  destruct (prev_result self) as [hit sunk]; cbn [fst snd] in *. destruct sunk.
  - by rewrite generate_random_target_full.
  - destruct Hwhen as [?|[-> ->]]; [done|]. by rewrite generate_random_target_full.
Qed.

Lemma select_target_exhausted_witness :
  select_target
    {| board := {| width := 1; height := 1 |}; unsuccessful_directions := [];
       tracker := {[ (1, 1) ]}; prev_result := (true, true); target := None;
       prev_move := Some (1, 1); direction := None |}
    [0; 0; 1; 2]
  = Starved.
Proof.
  apply select_target_exhausted.
  - simpl. lia.
  - simpl. lia.
  - simpl. intros [x y] Hx Hy. simpl in *.
    assert (x = 1) as -> by lia. assert (y = 1) as -> by lia.
    by apply elem_of_singleton.
  - left. reflexivity.
Defined.

Lemma select_target_selected_witness :
  ∃ c self' draws',
    select_target blocked_right [3] = Done (Some c, self', draws')
    ∧ tracker self' = {[c]} ∪ tracker blocked_right
    ∧ prev_move self' = Some c.
Proof.
  destruct (select_target blocked_right [3]) as [[[[c|] self'] draws']| |] eqn:Hsel;
    [|by vm_compute in Hsel..].
  exists c, self', draws'. split; [reflexivity|].
  destruct (select_target_selected blocked_right [3] c self' draws' Hsel)
    as (Htr & Hpm & _).
  split; [exact Htr|exact Hpm].
Defined.

Lemma select_target_None_witness :
  ∃ self' draws',
    select_target cornered [5; 5] = Done (None, self', draws')
    ∧ draws' = [5; 5]
    ∧ tracker self' = tracker cornered.
Proof.
  destruct (select_target cornered [5; 5]) as [[[[c|] self'] draws']| |] eqn:Hsel;
    [by vm_compute in Hsel| |by vm_compute in Hsel..].
  exists self', draws'. split; [reflexivity|].
  destruct (select_target_None cornered [5; 5] self' draws' Hsel) as (Hd & Htr & _).
  split; [exact Hd|exact Htr].
Defined.

(** ** Games against a fleet: the reports of the attacks *)

Lemma is_valid_spec (self : AutomaticPlayer) (c : cell) :
  is_valid self c = true
  ↔ (c ∉ tracker self)
    ∧ (1 ≤ fst c ≤ width (board self) ∧ 1 ≤ snd c ≤ height (board self)).
Proof.
  unfold is_valid. rewrite !andb_true_iff, negb_true_iff, bool_decide_eq_false, !Z.leb_le.
  tauto.
Qed.

Lemma get_cells_damaged_by (T : gset cell) (s : Ship) :
  get_cells (damaged_by T s) = get_cells s.
Proof. reflexivity. Qed.

Lemma has_sunk_damaged_by (T : gset cell) (s : Ship) :
  has_sunk (damaged_by T s) = true ↔ get_cells s ⊆ T.
Proof.
  rewrite has_sunk_subseteq, get_cells_damaged_by. simpl. set_solver.
Qed.

(** The damage of one more attack. *)
Lemma receive_damage_damaged_by (T : gset cell) (s : Ship) (c : cell) :
  receive_damage (damaged_by T s) c
  = (is_occupying_cell s c, damaged_by ({[c]} ∪ T) s).
Proof.
  unfold receive_damage, is_occupying_cell. rewrite get_cells_damaged_by.
  destruct (bool_decide_reflect (c ∈ get_cells s)) as [Hin|Hout].
  - unfold damaged_by; simpl. do 2 f_equal. set_solver.
  - unfold damaged_by; simpl. do 2 f_equal. set_solver.
Qed.

(** An attack on a fleet that has been attacked at the cells of [T]. *)
Lemma is_attacked_at_damaged_by (fleet : list Ship) (T : gset cell) (c : cell) :
  is_attacked_at (damaged_by T <$> fleet) c
  = (report_of fleet T c, damaged_by ({[c]} ∪ T) <$> fleet).
Proof.
  induction fleet as [|s fleet IH]; [done|].
  rewrite fmap_cons. cbn [is_attacked_at]. rewrite receive_damage_damaged_by, IH.
  cbn [report_of]. by destruct (is_occupying_cell s c).
Qed.

Lemma damaged_by_empty (fleet : list Ship) :
  Forall (λ s, damaged_cells s = ∅) fleet → damaged_by ∅ <$> fleet = fleet.
Proof.
  induction 1 as [|s fleet Hs _ IH]; [done|]. rewrite fmap_cons, IH. f_equal.
  destruct s as [xs ys xe ye cs ds]. unfold damaged_by; simpl in *. f_equal.
  rewrite Hs. set_solver.
Qed.

Lemma fleet_ok_pair (fleet : list Ship) (s s' : Ship) :
  fleet_ok fleet = true → s ∈ fleet → s' ∈ fleet →
  s = s' ∨ apart s s' = true ∨ apart s' s = true.
Proof.
  intros Hok [i Hi]%list_elem_of_lookup [j Hj]%list_elem_of_lookup.
  destruct (Nat.lt_trichotomy i j) as [Hlt|[->|Hgt]].
  - right; left. by eapply fleet_ok_lookup.
  - left. congruence.
  - right; right. by eapply fleet_ok_lookup.
Qed.

Lemma overlap_false (a b : Ship) :
  overlap a b = false ↔ get_cells a ## get_cells b.
Proof.
  unfold overlap. rewrite existsb_false. split.
  - intros H c Hca Hcb. apply elem_of_elements, H in Hca.
    by apply bool_decide_eq_false_1 in Hca.
  - intros H c Hc%elem_of_elements. apply bool_decide_eq_false_2. set_solver.
Qed.

Lemma apart_not_near (a b : Ship) :
  apart a b = true ∨ apart b a = true →
  is_near_ship a b = false ∧ get_cells a ## get_cells b.
Proof.
  unfold apart. rewrite !andb_true_iff, !negb_true_iff, !overlap_false.
  intros [[[H1 H2] H3]|[[H1 H2] H3]]; (split; [done|set_solver]).
Qed.

(** In a valid fleet a cell that is near a ship belongs to no other
    ship. *)
Lemma near_same (fleet : list Ship) (s s' : Ship) (c : cell) :
  fleet_ok fleet = true → s ∈ fleet → s' ∈ fleet →
  c ∈ get_cells s' → is_near_cell s c = true → s' = s.
Proof.
  intros Hok Hs Hs' Hc Hnear.
  destruct (fleet_ok_pair fleet s s' Hok Hs Hs') as [->|Hapart]; [done|].
  apply apart_not_near in Hapart as [Hfar _].
  assert (is_near_ship s s' = true) as Hn; [|congruence].
  unfold is_near_ship. apply existsb_exists. exists c. split; [|done].
  by apply list_elem_of_In, elem_of_elements.
Qed.

Lemma report_of_miss (fleet : list Ship) (T : gset cell) (c : cell) :
  (∀ s, s ∈ fleet → c ∉ get_cells s) → report_of fleet T c = (false, false).
Proof.
  induction fleet as [|s fleet IH]; [done|]. intros Hnone. simpl.
  unfold is_occupying_cell. rewrite bool_decide_eq_false_2 by (apply Hnone; set_solver).
  apply IH. intros s' Hs'. apply Hnone. set_solver.
Qed.

Lemma report_of_hit (fleet : list Ship) (T : gset cell) (c : cell) (s : Ship) :
  s ∈ fleet → c ∈ get_cells s →
  (∀ s', s' ∈ fleet → c ∈ get_cells s' → s' = s) →
  report_of fleet T c = (true, has_sunk (damaged_by ({[c]} ∪ T) s)).
Proof.
  induction fleet as [|s0 fleet IH]; [by intros ?%elem_of_nil|].
  intros Hs Hc Huniq. simpl. unfold is_occupying_cell.
  destruct (bool_decide_reflect (c ∈ get_cells s0)) as [Hin|Hout].
  - by rewrite (Huniq s0) by (done || set_solver).
  - apply IH; [|done|].
    + apply elem_of_cons in Hs as [->|?]; done.
    + intros s' Hs'. apply Huniq. set_solver.
Qed.

(** In a game against a fleet without damage, the fleet is at any time
    the initial fleet with the damage of the cells of the tracker. *)
Lemma game_ships (b : Board) (fleet : list Ship) (self : AutomaticPlayer)
    (ships : list Ship) :
  Forall (λ s, damaged_cells s = ∅) fleet →
  game b fleet self ships →
  ships = damaged_by (tracker self) <$> fleet.
Proof.
  intros Hfresh.
  induction 1 as [|self ships draws c self' draws' result ships' _ IH Hsel Hatt].
  - simpl. by rewrite damaged_by_empty.
  - subst ships. rewrite is_attacked_at_damaged_by in Hatt.
    injection Hatt as _ <-.
    apply select_target_step in Hsel as (_ & _ & Htr & _). simpl. by rewrite Htr.
Qed.

Section fleet.
Context (b : Board) (fleet : list Ship) (Hfleet : fleet_on b fleet).

(** The ships of the fleet are boxes of the grid, one cell wide or one
    cell high. *)
Lemma fleet_ship (s : Ship) :
  s ∈ fleet →
  (1 ≤ x_start s ∧ x_start s ≤ x_end s ∧ x_end s ≤ width b)
  ∧ (1 ≤ y_start s ∧ y_start s ≤ y_end s ∧ y_end s ≤ height b)
  ∧ (y_start s = y_end s ∨ x_start s = x_end s)
  ∧ ∀ c, c ∈ get_cells s ↔
      x_start s ≤ fst c ≤ x_end s ∧ y_start s ≤ snd c ≤ y_end s.
Proof.
  intros Hs. destruct Hfleet as [_ Hall]. rewrite Forall_forall in Hall.
  destruct (Hall s Hs) as ([Hx Hy] & Hstraight & _). cbn [fst snd] in *.
  split; [done|]. split; [done|]. split.
  - destruct Hstraight as [H%Z.eqb_eq|H%Z.eqb_eq]; [by left|by right].
  - intros c. apply elem_of_get_cells_box; [done|lia..].
Qed.

Lemma fleet_unique (s s' : Ship) (c : cell) :
  s ∈ fleet → s' ∈ fleet → c ∈ get_cells s → c ∈ get_cells s' → s' = s.
Proof.
  intros Hs Hs' Hc Hc'. destruct Hfleet as [Hok _].
  eapply near_same; [done..|]. apply is_near_cell_spec.
  apply (fleet_ship s Hs) in Hc. lia.
Qed.

Lemma all_directions (P : Direction → Prop) :
  (∀ d, P d) ↔ P Left ∧ P Right ∧ P Up ∧ P Down.
Proof. split; [by auto|]. intros (? & ? & ? & ?) []; done. Qed.

(** All the cells of a ship are in the tracker when the box of its
    tracked cells reaches its four ends. *)
Lemma covered_iff (self : AutomaticPlayer) (s : Ship) (tg : cell) (B : Box) :
  s ∈ fleet → box_in s tg B → tracked_box self s B →
  get_cells s ⊆ tracker self ↔ ∀ d, closed s B d.
Proof.
  intros Hs [Hbx Hby] Htr.
  destruct (fleet_ship s Hs) as (Hx & Hy & _ & Hbox).
  rewrite all_directions. unfold closed. split.
  - intros Hsub.
    assert ((x_start s, y_start s) ∈ get_cells s) as H1 by (apply Hbox; simpl; lia).
    assert ((x_end s, y_end s) ∈ get_cells s) as H2 by (apply Hbox; simpl; lia).
    pose proof (proj1 (Htr _ H1) (Hsub _ H1)) as H1'.
    pose proof (proj1 (Htr _ H2) (Hsub _ H2)) as H2'.
    simpl in *. lia.
  - intros (H1 & H2 & H3 & H4) c Hc. apply (Htr c Hc).
    apply Hbox in Hc. lia.
Qed.

Lemma settled_attack (self self' : AutomaticPlayer) (s : Ship) (c : cell) :
  tracker self' = {[c]} ∪ tracker self →
  c ∉ get_cells s → settled self s → settled self' s.
Proof. unfold settled. intros -> Hc [H|H]; [left|right]; set_solver. Qed.

(** Hunting keeps the invariant. *)
Lemma hunt_inv (self : AutomaticPlayer) (c : cell) :
  board self = b → Forall (settled self) fleet →
  target self = None → unsuccessful_directions self = [] →
  c ∉ tracker self →
  game_inv b fleet
    (receive_result (attack self c)
       (fst (report_of fleet (tracker self) c))
       (snd (report_of fleet (tracker self) c))).
Proof.
  intros Hb Hsettled Htn Hu Hfresh. rewrite Forall_forall in Hsettled.
  split; [done|].
  destruct (decide (Exists (λ s, c ∈ get_cells s) fleet)) as [Hex|Hno].
  - apply Exists_exists in Hex as (s & Hs & Hc).
    rewrite (report_of_hit fleet _ c s Hs Hc)
      by (intros s' Hs' Hc'; by eapply fleet_unique).
    cbn [fst snd].
    assert (get_cells s ## tracker self) as Hdisj.
    { destruct (Hsettled s Hs) as [?|Hsub]; [done|]. by apply Hsub in Hc. }
    destruct (fleet_ship s Hs) as (Hx & Hy & Hdeg & Hbox).
    destruct (has_sunk _) eqn:Hsunk.
    + left. split.
      * apply Forall_forall. intros s' Hs'.
        destruct (decide (c ∈ get_cells s')) as [Hc'|Hc'].
        -- rewrite (fleet_unique s s' c Hs Hs' Hc Hc').
           right. apply has_sunk_damaged_by in Hsunk. exact Hsunk.
        -- eapply settled_attack; [reflexivity|done|by apply Hsettled].
      * left. split; [done|]. simpl. set_solver.
    + right; left. split; [done|]. split; [done|]. split; [done|].
      exists s, c. split; [done|]. split; [done|]. split; [done|].
      assert (tracked_box (receive_result (attack self c) true false) s
                (mkBox (fst c) (fst c) (snd c) (snd c))) as Hbox'.
      { intros c0 Hc0. simpl. rewrite elem_of_union, elem_of_singleton. split.
        - intros [->|Hin]; [lia|]. by destruct (Hdisj c0).
        - intros Heq. left. destruct c0, c; simpl in *. f_equal; lia. }
      split; [done|]. split.
      * intros Hall. apply not_true_iff_false in Hsunk. apply Hsunk.
        apply has_sunk_damaged_by.
        apply (covered_iff (receive_result (attack self c) true false) s c
                 (mkBox (fst c) (fst c) (snd c) (snd c))); [done| |done|done].
        apply Hbox in Hc. unfold box_in; simpl. lia.
      * intros s' Hs' Hc'. eapply settled_attack; [reflexivity|done|by apply Hsettled].
  - rewrite report_of_miss.
    2: { intros s Hs Hc. apply Hno, Exists_exists. by exists s. }
    left. split.
    + apply Forall_forall. intros s Hs.
      eapply settled_attack; [reflexivity| |by apply Hsettled].
      intros Hc. apply Hno, Exists_exists. by exists s.
    + right. done.
Qed.

Lemma closed_dec (s : Ship) (B : Box) (d : Direction) :
  closed s B d ∨ ¬ closed s B d.
Proof. destruct d; simpl; lia. Qed.

Lemma In_keys (d : Direction) : In d keys.
Proof. destruct d; simpl; tauto. Qed.

(** The cell after the box in a direction in which the box does not reach
    the end of the ship is a cell of the ship that can be selected. *)
Lemma probe_open (self : AutomaticPlayer) (s : Ship) (tg : cell) (B : Box)
    (e : Direction) :
  board self = b → s ∈ fleet → box_in s tg B → tracked_box self s B →
  ¬ closed s B e →
  possible_moves (far_end tg B e) e ∈ get_cells s
  ∧ is_valid self (possible_moves (far_end tg B e) e) = true.
Proof.
  intros Hb Hs [Hbx Hby] Htr Hopen.
  destruct (fleet_ship s Hs) as (Hx & Hy & Hdeg & Hbox).
  assert (possible_moves (far_end tg B e) e ∈ get_cells s) as Hc.
  { apply Hbox. destruct e; simpl in *; lia. }
  split; [done|]. apply is_valid_spec. rewrite Hb. split.
  - rewrite (Htr _ Hc). destruct e; simpl in *; lia.
  - apply Hbox in Hc. lia.
Qed.

(** The cell after the box in a direction in which the box reaches the
    end of the ship belongs to no ship. *)
Lemma probe_closed (s : Ship) (tg : cell) (B : Box) (e : Direction) (s' : Ship) :
  s ∈ fleet → box_in s tg B → closed s B e → s' ∈ fleet →
  possible_moves (far_end tg B e) e ∉ get_cells s'.
Proof.
  intros Hs [Hbx Hby] Hclosed Hs' Hc.
  destruct (fleet_ship s Hs) as (Hx & Hy & Hdeg & Hbox).
  assert (s' = s) as ->.
  { destruct Hfleet as [Hok _]. eapply near_same; [done..|].
    apply is_near_cell_spec. destruct e; simpl in *; lia. }
  apply Hbox in Hc. destruct e; simpl in *; lia.
Qed.


(** A probe after the box of the tracked cells of a ship keeps the
    invariant. *)
Lemma probe_inv (self : AutomaticPlayer) (s : Ship) (tg : cell) (B : Box)
    (e : Direction) (c : cell) :
  board self = b → s ∈ fleet →
  target self = Some tg → direction self = Some e →
  box_in s tg B → tracked_box self s B →
  ¬ (∀ d, closed s B d) →
  (∀ d, Some d ∈ unsuccessful_directions self → closed s B d) →
  (∀ d, d ≠ e → has_side tg B d → closed s B d) →
  (∀ s', s' ∈ fleet → tg ∉ get_cells s' → settled self s') →
  c = possible_moves (far_end tg B e) e →
  game_inv b fleet
    (receive_result (attack self c)
       (fst (report_of fleet (tracker self) c))
       (snd (report_of fleet (tracker self) c))).
Proof.
  intros Hb Hs Htg Hd Hin Htr Hpart HU Hsides Hothers ->.
  set (c := possible_moves (far_end tg B e) e).
  destruct (fleet_ship s Hs) as (Hx & Hy & Hdeg & Hbox).
  assert (tg ∈ get_cells s) as Htgs.
  { apply Hbox. destruct Hin as [? ?]. lia. }
  split; [done|]. destruct (closed_dec s B e) as [Hclosed|Hopen].
  - (* the cell is off the ship: a miss *)
    rewrite report_of_miss by (intros s' Hs'; by apply (probe_closed s tg B e s')).
    cbn [fst snd]. right; right. split; [done|].
    exists s, tg, e, c, B. do 5 (split; [done|]). split.
    { intros c0 Hc0. cbn. rewrite elem_of_union, elem_of_singleton, <- (Htr c0 Hc0).
      split; [|by right]. intros [->|?]; [|done].
      by destruct (probe_closed s tg B e s). }
    do 3 (split; [done|]). split; [done|].
    intros s' Hs' Htg'. eapply settled_attack; [reflexivity| |by apply Hothers].
    by apply (probe_closed s tg B e s').
  - (* the cell is on the ship: a hit *)
    destruct (probe_open self s tg B e Hb Hs Hin Htr Hopen) as [Hc Hv].
    rewrite (report_of_hit fleet _ c s Hs Hc)
      by (intros s' Hs' Hc'; by eapply fleet_unique).
    cbn [fst snd].
    assert (∀ s', s' ∈ fleet → tg ∉ get_cells s' → c ∉ get_cells s') as Hfar.
    { intros s' Hs' Htg' Hc'.
      by rewrite (fleet_unique s s' c Hs Hs' Hc Hc') in Htg'. }
    assert (box_in s tg (grow B e)) as Hin'.
    { destruct Hin as [Hbx Hby]. unfold box_in. destruct e; simpl in *; lia. }
    assert (∀ r1 r2, tracked_box (receive_result (attack self c) r1 r2) s (grow B e))
      as Htr'.
    { intros r1 r2 c0 Hc0. cbn [tracker receive_result attack].
      rewrite elem_of_union, elem_of_singleton, (Htr c0 Hc0).
      destruct Hin as [Hbx Hby]. apply Hbox in Hc0.
      assert (c0 = c ↔ fst c0 = fst c ∧ snd c0 = snd c) as ->.
      { destruct c0, c. simpl. split; [by intros [= -> ->]|by intros [-> ->]]. }
      subst c. destruct e; simpl in *; lia. }
    destruct (has_sunk _) eqn:Hsunk.
    + left. split.
      * apply Forall_forall. intros s' Hs'.
        destruct (decide (tg ∈ get_cells s')) as [Htg'|Htg'].
        -- rewrite (fleet_unique s s' tg Hs Hs' Htgs Htg').
           right. by apply has_sunk_damaged_by in Hsunk.
        -- eapply settled_attack; [reflexivity|by apply Hfar|by apply Hothers].
      * left. split; [done|]. cbn. set_solver.
    + right; right. split; [done|].
      exists s, tg, e, c, (grow B e). do 5 (split; [done|]). split; [done|]. split.
      { intros Hall. apply not_true_iff_false in Hsunk. apply Hsunk.
        apply has_sunk_damaged_by.
        by apply (covered_iff
                    (receive_result (attack self c) true false) s tg (grow B e)). }
      split.
      { intros d Hdu. specialize (HU d Hdu).
        destruct d, e; simpl in *; done. }
      split.
      { intros d Hne Hside.
        assert (has_side tg B d) as Hside' by (destruct d, e; simpl in *; done).
        specialize (Hsides d Hne Hside').
        destruct d, e; simpl in *; done. }
      split.
      { cbn [fst prev_result receive_result]. subst c.
        destruct Hin as [Hbx Hby]. destruct e; simpl; (split; [lia|done]). }
      intros s' Hs' Htg'. eapply settled_attack; [reflexivity|by apply Hfar|by apply Hothers].
Qed.

(** The anchor is the last cell of the box on a side where the box has no
    other cell. *)
Lemma far_end_anchor (s : Ship) (tg : cell) (B : Box) (e : Direction) :
  box_in s tg B → ¬ has_side tg B e → far_end tg B e = tg.
Proof.
  intros [Hbx Hby] Hside. destruct tg as [x y].
  destruct e; simpl in *; f_equal; lia.
Qed.

(** The cell next to the anchor on a side where the box has cells cannot
    be selected. *)
Lemma step_tracked (self : AutomaticPlayer) (s : Ship) (tg : cell) (B : Box)
    (e : Direction) :
  s ∈ fleet → box_in s tg B → tracked_box self s B → has_side tg B e →
  is_valid self (possible_moves tg e) = false.
Proof.
  intros Hs [Hbx Hby] Htr Hside.
  destruct (fleet_ship s Hs) as (Hx & Hy & Hdeg & Hbox).
  apply not_true_iff_false. intros [Hfresh _]%is_valid_spec. apply Hfresh.
  assert (possible_moves tg e ∈ get_cells s) as Hc.
  { apply Hbox. destruct e; simpl in *; lia. }
  apply (Htr _ Hc). destruct e; simpl in *; lia.
Qed.

(** A box that reaches both ends of the ship on one axis covers the
    ship. *)
Lemma closed_both (s : Ship) (tg : cell) (B : Box) (e : Direction) :
  s ∈ fleet → box_in s tg B → has_side tg B e →
  closed s B e → closed s B (opposite_direction e) → ∀ d, closed s B d.
Proof.
  intros Hs [Hbx Hby] Hside H1 H2.
  destruct (fleet_ship s Hs) as (Hx & Hy & Hdeg & Hbox).
  intros d. destruct d, e; simpl in *; lia.
Qed.

(** [is_valid] reads the board and the tracker only. *)
Lemma is_valid_ext (self1 self2 : AutomaticPlayer) (c : cell) :
  board self1 = board self2 → tracker self1 = tracker self2 →
  is_valid self1 c = is_valid self2 c.
Proof. unfold is_valid. by intros -> ->. Qed.

(** While the box does not cover the ship, one of the four directions
    passes the test of the first probe and of the next direction. *)
Lemma find_open (self : AutomaticPlayer) (s : Ship) (tg : cell) (B : Box)
    (f : Direction → bool) :
  ¬ (∀ d, closed s B d) →
  (∀ d, ¬ closed s B d → f d = true) →
  find f keys ≠ None.
Proof.
  intros Hpart Hf Hnone. apply Hpart. intros d.
  destruct (closed_dec s B d) as [?|Hopen]; [done|].
  apply Hf in Hopen. by rewrite (find_none _ _ Hnone d (In_keys d)) in Hopen.
Qed.

(** One call of [select_target] in a game: a cell is selected, it passes
    the test of [is_valid], and the state after the report of the attack
    is a state of the invariant again. *)
Lemma game_inv_select (self : AutomaticPlayer) (draws : list Z)
    (oc : option cell) (self' : AutomaticPlayer) (draws' : list Z) :
  game_inv b fleet self →
  select_target self draws = Done (oc, self', draws') →
  ∃ c, oc = Some c ∧ is_valid self c = true
       ∧ game_inv b fleet
           (receive_result self'
              (fst (report_of fleet (tracker self) c))
              (snd (report_of fleet (tracker self) c))).
Proof.
  intros [Hb [Hidle|[Hfirst|Hprobing]]].
  - (* hunting *)
    destruct Hidle as [Hsettled [[Hsunk Hne]|(Hres & Htn & Hu)]].
    + rewrite select_target_sunk by done. unfold hunting.
      set (self0 := set_target (set_unsuccessful_directions self []) None).
      destruct (generate_random_target self0 draws) as [[c draws0]| |] eqn:Hr; try done.
      simpl. intros [= <- <- <-]. exists c. split; [done|].
      apply generate_random_target_fresh in Hr as Hv.
      split; [exact Hv|].
      apply (hunt_inv self0 c); try done.
      by apply is_valid_spec in Hv as [? _].
    + assert (select_target self draws = hunting self draws) as ->.
      { unfold select_target, hunting. rewrite Hres, Htn. cbn [fst snd].
        by destruct (bool_decide (size (tracker self) = 0%nat)). }
      unfold hunting.
      destruct (generate_random_target self draws) as [[c draws0]| |] eqn:Hr; try done.
      simpl. intros [= <- <- <-]. exists c. split; [done|].
      apply generate_random_target_fresh in Hr as Hv.
      split; [exact Hv|].
      apply (hunt_inv self c); try done.
      by apply is_valid_spec in Hv as [? _].
  - (* the first probe *)
    destruct Hfirst as (Hres & Htn & Hu & s & pm & Hs & Hpm & Hc & Htr & Hpart & Hothers).
    destruct pm as [px py]. cbn [fst snd] in *.
    set (B := mkBox px px py py) in *.
    destruct (fleet_ship s Hs) as (Hx & Hy & Hdeg & Hbox).
    assert (box_in s (px, py) B) as Hin.
    { apply Hbox in Hc. unfold box_in. simpl in *. lia. }
    assert (∀ d, far_end (px, py) B d = (px, py)) as Hfar by (by intros []).
    assert ((px, py) ∈ tracker self) as Htracked.
    { apply (Htr _ Hc). simpl. lia. }
    unfold select_target.
    rewrite bool_decide_eq_false_2
      by (intros ?%size_empty_inv%leibniz_equiv; set_solver).
    rewrite Hres. cbn [fst snd]. rewrite Htn.
    change (prev_move (set_target self (prev_move self))) with (prev_move self).
    rewrite Hpm.
    destruct (find _ keys) as [d|] eqn:Hfind.
    + apply find_first in Hfind as [Hv _].
      intros [= <- <- <-]. exists (possible_moves (px, py) d). split; [done|].
      split; [exact Hv|].
      apply (probe_inv (set_direction (set_target self (Some (px, py))) (Some d))
               s (px, py) B d); try done.
      * intros e He. cbn in He. rewrite Hu in He. by apply elem_of_nil in He.
      * intros e _ Hside. destruct e; simpl in Hside; lia.
      * by rewrite Hfar.
    + intros _. exfalso. revert Hfind. apply (find_open self s (px, py) B); [done|].
      intros d Hopen.
      destruct (probe_open self s (px, py) B d Hb Hs Hin Htr Hopen) as [_ Hv].
      by rewrite Hfar in Hv.
  - (* a ship is worked on *)
    destruct Hprobing as (Hsunk & s & tg & d & pm & B & Hs & Htg & Hd & Hpm & Hin
                          & Htr & Hpart & HU & Hsides & Hmode & Hothers).
    destruct (fleet_ship s Hs) as (Hx & Hy & Hdeg & Hbox).
    assert (tg ∈ tracker self) as Htracked.
    { destruct Hin as [? ?].
      assert (tg ∈ get_cells s) as Htgs by (apply Hbox; lia).
      apply (Htr _ Htgs). lia. }
    unfold select_target.
    rewrite bool_decide_eq_false_2
      by (intros ?%size_empty_inv%leibniz_equiv; set_solver).
    rewrite Hsunk. destruct (fst (prev_result self)) eqn:Hhit.
    + (* after a hit *)
      destruct Hmode as [Hside ->]. rewrite Htg, Hpm, Hd.
      destruct (is_valid self (possible_moves (far_end tg B d) d)) eqn:Hv.
      * intros [= <- <- <-]. eexists. split; [done|]. split; [exact Hv|].
        by apply (probe_inv self s tg B d).
      * assert (closed s B d) as Hclosed.
        { destruct (closed_dec s B d) as [?|Hopen]; [done|].
          destruct (probe_open self s tg B d Hb Hs Hin Htr Hopen) as [_ Hv'].
          congruence. }
        assert (¬ closed s B (opposite_direction d)) as Hopen.
        { intros Hclosed'. apply Hpart. by apply (closed_both s tg B d). }
        assert (¬ has_side tg B (opposite_direction d)) as Hnoside.
        { intros Hside'. apply Hopen, Hsides; [by destruct d|done]. }
        pose proof (far_end_anchor s tg B _ Hin Hnoside) as Hfar.
        destruct (probe_open self s tg B _ Hb Hs Hin Htr Hopen) as [_ Hv'].
        rewrite Hfar in Hv'.
        intros [= <- <- <-]. eexists. split; [done|]. split; [exact Hv'|].
        apply (probe_inv (set_direction self (Some (opposite_direction d)))
                 s tg B (opposite_direction d)); try done.
        -- intros e Hne Hside'. destruct (decide (e = d)) as [->|Hne']; [done|].
           by apply Hsides.
        -- by rewrite Hfar.
    + (* after a miss *)
      destruct Hmode as [-> Hclosed]. rewrite Htg.
      set (self1 := set_unsuccessful_directions self
                      (unsuccessful_directions self ++ [direction self])).
      assert (∀ e, Some e ∈ unsuccessful_directions self1 → closed s B e) as HU'.
      { intros e. cbn. rewrite Hd, elem_of_app, list_elem_of_singleton.
        intros [He|[= ->]]; [by apply HU|done]. }
      assert (∀ e, ¬ closed s B e → ¬ has_side tg B e) as Hnoside.
      { intros e Hopen Hside. apply Hopen, Hsides; [|done]. by intros ->. }
      destruct (find _ keys) as [e|] eqn:Hfind.
      * apply find_first in Hfind as [[Hfresh Hv]%andb_prop _].
        apply negb_true_iff, bool_decide_eq_false_1 in Hfresh.
        change (is_valid self (possible_moves tg e) = true) in Hv.
        assert (¬ has_side tg B e) as Hnoside'.
        { intros Hside. by rewrite (step_tracked self s tg B e) in Hv. }
        pose proof (far_end_anchor s tg B e Hin Hnoside') as Hfar.
        intros [= <- <- <-]. eexists. split; [done|]. split; [exact Hv|].
        apply (probe_inv (set_direction self1 (Some e)) s tg B e); try done.
        -- intros e' Hne Hside. destruct (decide (e' = d)) as [->|Hne']; [done|].
           by apply Hsides.
        -- by rewrite Hfar.
      * intros _. exfalso. revert Hfind. apply (find_open self s tg B); [done|].
        intros e Hopen. apply andb_true_intro. split.
        -- apply negb_true_iff, bool_decide_eq_false_2. intros He. by apply Hopen, HU'.
        -- destruct (probe_open self s tg B e Hb Hs Hin Htr Hopen) as [_ Hv].
           by rewrite (far_end_anchor s tg B e Hin (Hnoside e Hopen)) in Hv.
Qed.
End fleet.

(** ** Games against a fleet: what every state of a game satisfies *)

(** A ship that an attack sinks is hit by it. *)
Lemma is_attacked_at_sunk (ships : list Ship) (c : cell) :
  snd (is_attacked_at ships c).1 = true → fst (is_attacked_at ships c).1 = true.
Proof.
  induction ships as [|ship ships IH]; [done|]. cbn [is_attacked_at].
  destruct (receive_damage ship c) as [hit ship'].
  destruct (is_attacked_at ships c) as [result ships'].
  by destruct hit.
Qed.

(** The states of a game are states that the calls of the two methods
    reach. *)
Lemma game_reachable (b : Board) (fleet : list Ship) (self : AutomaticPlayer)
    (ships : list Ship) :
  game b fleet self ships → reachable b self.
Proof.
  induction 1 as [|self ships draws c self' draws' result ships' _ IH Hsel Hatt].
  - constructor.
  - eapply reachable_turn; [done..|].
    pose proof (is_attacked_at_sunk ships c) as Hsunk. by rewrite Hatt in Hsunk.
Qed.

Lemma game_game_inv (b : Board) (fleet : list Ship) (self : AutomaticPlayer)
    (ships : list Ship) :
  fleet_on b fleet → game b fleet self ships → game_inv b fleet self.
Proof.
  intros Hfleet Hgame.
  assert (Forall (λ s, damaged_cells s = ∅) fleet) as Hfresh.
  { destruct Hfleet as [_ Hall]. eapply Forall_impl; [exact Hall|]. by intros s (_ & _ & ?). }
  induction Hgame as [|self ships draws c self' draws' result ships' Hgame IH Hsel Hatt].
  - split; [done|]. left. split; [|by right].
    apply Forall_forall. intros s _. left. cbn. set_solver.
  - rewrite (game_ships b fleet self ships Hfresh Hgame), is_attacked_at_damaged_by in Hatt.
    injection Hatt as <- _.
    destruct (game_inv_select b fleet Hfleet self draws _ _ _ IH Hsel)
      as (c' & [= <-] & _ & Hinv).
    exact Hinv.
Qed.

(** In a game, [select_target] returns a cell whenever it returns, and the
    cell passes the test of [is_valid]. *)
Lemma game_select (b : Board) (fleet : list Ship) (self : AutomaticPlayer)
    (ships : list Ship) (draws : list Z) (oc : option cell)
    (self' : AutomaticPlayer) (draws' : list Z) :
  fleet_on b fleet → game b fleet self ships →
  select_target self draws = Done (oc, self', draws') →
  board self = b ∧ ∃ c, oc = Some c ∧ is_valid self c = true.
Proof.
  intros Hfleet Hgame Hsel.
  pose proof (game_game_inv b fleet self ships Hfleet Hgame) as Hinv.
  split; [by destruct Hinv|].
  destruct (game_inv_select b fleet Hfleet self draws _ _ _ Hinv Hsel)
    as (c & -> & Hv & _).
  by exists c.
Qed.

(** After a hit the tracker of a game is not empty. *)
Lemma game_inv_hit (b : Board) (fleet : list Ship) (self : AutomaticPlayer) :
  fleet_on b fleet → game_inv b fleet self →
  fst (prev_result self) = true → tracker self ≠ ∅.
Proof.
  intros Hfleet [_ [Hidle|[Hfirst|Hprobing]]] Hhit.
  - destruct Hidle as [_ [[_ Hne]|(Hres & _)]]; [done|]. by rewrite Hres in Hhit.
  - destruct Hfirst as (_ & _ & _ & s & pm & Hs & _ & Hc & Htr & _).
    assert (pm ∈ tracker self) as Hin by (apply (Htr _ Hc); simpl; lia).
    set_solver.
  - destruct Hprobing as (_ & s & tg & d & pm & B & Hs & _ & _ & _ & Hin & Htr & _).
    destruct (fleet_ship b fleet Hfleet s Hs) as (_ & _ & _ & Hbox).
    destruct Hin as [? ?].
    assert (tg ∈ get_cells s) as Htgs by (apply Hbox; lia).
    assert (tg ∈ tracker self) as Htracked by (apply (Htr _ Htgs); lia).
    set_solver.
Qed.

(** A game that is run turn by turn is a game. *)
Lemma game_run_game (b : Board) (fleet : list Ship) (supplies : list (list Z))
    (self : AutomaticPlayer) (ships : list Ship)
    (self' : AutomaticPlayer) (ships' : list Ship) :
  game b fleet self ships →
  game_run self ships supplies = Some (self', ships') →
  game b fleet self' ships'.
Proof.
  revert self ships. induction supplies as [|draws supplies IH]; intros self ships Hgame.
  - by intros [= <- <-].
  - cbn [game_run]. unfold game_step.
    destruct (select_target self draws) as [[[[c|] self1] draws1]| |] eqn:Hsel; try done.
    destruct (is_attacked_at ships c) as [result ships1] eqn:Hatt. simpl.
    apply IH. by eapply game_turn.
Qed.

Lemma fleet_on_scenario : fleet_on board_10 fleet_scenario.
Proof.
  split; [done|]. apply Forall_singleton. split; [unfold on_grid; simpl; lia|].
  split; [by right|done].
Qed.

Lemma fleet_on_edge : fleet_on board_10 fleet_edge.
Proof.
  split; [done|]. apply Forall_singleton. split; [unfold on_grid; simpl; lia|].
  split; [by left|done].
Qed.

Lemma game_at_edge :
  game board_10 fleet_edge at_edge (damaged_by {[ (2, 5); (1, 5) ]} <$> fleet_edge).
Proof.
  apply (game_run_game _ _ [[1; 4]; []] (AutomaticPlayer_init board_10) fleet_edge);
    [constructor|]. vm_compute. reflexivity.
Qed.

Lemma game_after_first_miss :
  game board_10 fleet_scenario after_first_miss
    (damaged_by {[ (5, 5); (4, 5) ]} <$> fleet_scenario).
Proof.
  apply (game_run_game _ _ [[4; 4]; []] (AutomaticPlayer_init board_10) fleet_scenario);
    [constructor|]. vm_compute. reflexivity.
Qed.

(** While a ship is worked on, [select_target] returns without a draw. *)
Lemma game_inv_returns (b : Board) (fleet : list Ship) (self : AutomaticPlayer)
    (draws : list Z) :
  fleet_on b fleet → game_inv b fleet self →
  snd (prev_result self) = false →
  fst (prev_result self) = true ∨ target self ≠ None →
  ∃ oc self', select_target self draws = Done (oc, self', draws).
Proof.
  intros Hfleet [Hb [Hidle|[Hfirst|Hprobing]]] Hsunk Hbusy.
  - destruct Hidle as [_ [[Hsunk' _]|(Hres & Htn & _)]]; [congruence|].
    rewrite Hres in Hbusy. by destruct Hbusy.
  - destruct Hfirst as (Hres & Htn & _ & s & pm & Hs & Hpm & Hc & Htr & _).
    assert (pm ∈ tracker self) as Hin by (apply (Htr _ Hc); simpl; lia).
    unfold select_target.
    rewrite bool_decide_eq_false_2
      by (intros ?%size_empty_inv%leibniz_equiv; set_solver).
    rewrite Hres. cbn [fst snd]. rewrite Htn.
    change (prev_move (set_target self (prev_move self))) with (prev_move self).
    rewrite Hpm. destruct (find _ keys); by do 2 eexists.
  - destruct Hprobing as (_ & s & tg & d & pm & B & Hs & Htg & Hd & Hpm & Hin & Htr & _).
    destruct (fleet_ship b fleet Hfleet s Hs) as (_ & _ & _ & Hbox).
    destruct Hin as [? ?].
    assert (tg ∈ get_cells s) as Htgs by (apply Hbox; lia).
    assert (tg ∈ tracker self) as Htracked by (apply (Htr _ Htgs); lia).
    unfold select_target.
    rewrite bool_decide_eq_false_2
      by (intros ?%size_empty_inv%leibniz_equiv; set_solver).
    rewrite Hsunk, Htg. destruct (fst (prev_result self)).
    + rewrite Hpm, Hd. destruct (is_valid _ _); by do 2 eexists.
    + destruct (find _ keys); by do 2 eexists.
Qed.

(** C2. In a game against a valid fleet of straight ships that lie on a
    grid of the size of the player's board, with the reports of the
    attacks on that fleet, every cell that [select_target] returns is
    within the bounds of the board, was not in the tracker before the
    call, and is in the tracker when the call returns.  This holds in the
    branch that turns to the opposite direction from the target as well,
    although that branch selects its cell without the test of
    [is_valid]: when the move after the previous move is not valid, the
    cell returned is the one after the target in the opposite direction,
    and it passes the test. *)
Theorem select_target_valid (b : Board) (fleet : list Ship)
    (self : AutomaticPlayer) (ships : list Ship) (draws : list Z) (c : cell)
    (self' : AutomaticPlayer) (draws' : list Z) :
  fleet_on b fleet → game b fleet self ships →
  select_target self draws = Done (Some c, self', draws') →
  board self = b
  ∧ (1 ≤ fst c ≤ width b ∧ 1 ≤ snd c ≤ height b)
  ∧ (c ∉ tracker self)
  ∧ is_valid self c = true
  ∧ tracker self' = {[c]} ∪ tracker self
  ∧ c ∈ tracker self'
  ∧ ∀ tg pm d,
      prev_result self = (true, false) → target self = Some tg →
      prev_move self = Some pm → direction self = Some d →
      is_valid self (possible_moves pm d) = false →
      c = possible_moves tg (opposite_direction d)
      ∧ is_valid self (possible_moves tg (opposite_direction d)) = true.
Proof.
  intros Hfleet Hgame Hsel.
  destruct (game_select b fleet self ships draws _ _ _ Hfleet Hgame Hsel)
    as (Hb & c' & [= <-] & Hv).
  pose proof Hv as [Hfresh Hbounds]%is_valid_spec. rewrite Hb in Hbounds.
  pose proof (select_target_step self draws c self' draws' Hsel) as (_ & _ & Htr & _).
  do 4 (split; [done|]). split; [done|]. split; [rewrite Htr; set_solver|].
  intros tg pm d Hres Htg Hpm Hd Hblocked.
  assert (c = possible_moves tg (opposite_direction d)) as <-; [|done].
  pose proof (game_game_inv b fleet self ships Hfleet Hgame) as Hinv.
  pose proof (game_inv_hit b fleet self Hfleet Hinv) as Hne.
  rewrite Hres in Hne. specialize (Hne eq_refl).
  revert Hsel. unfold select_target.
  rewrite bool_decide_eq_false_2 by (by intros ?%size_empty_inv%leibniz_equiv).
  rewrite Hres. cbn [fst snd]. rewrite Htg, Hpm, Hd, Hblocked.
  by intros [= <- _ _].
Qed.

(** The theorem at [at_edge], a state of a game against [fleet_edge]:
    the move to the left of (1, 5) is off the board, the player turns to
    the right of its target (2, 5) and selects (3, 5). *)
Lemma select_target_valid_witness :
  fleet_on board_10 fleet_edge
  ∧ game board_10 fleet_edge at_edge (damaged_by {[ (2, 5); (1, 5) ]} <$> fleet_edge)
  ∧ is_valid at_edge (possible_moves (1, 5) Left) = false
  ∧ ∃ self',
      select_target at_edge [] = Done (Some (3, 5), self', [])
      ∧ (1 ≤ 3 ≤ width board_10 ∧ 1 ≤ 5 ≤ height board_10)
      ∧ ((3, 5) ∉ tracker at_edge)
      ∧ (3, 5) ∈ tracker self'
      ∧ (3, 5) = possible_moves (2, 5) (opposite_direction Left).
Proof.
  split; [apply fleet_on_edge|]. split; [apply game_at_edge|].
  split; [vm_compute; reflexivity|].
  assert (select_target at_edge []
          = Done (Some (3, 5),
                  attack (set_direction at_edge (Some Right)) (3, 5), [])) as Hsel
    by (vm_compute; reflexivity).
  eexists. split; [exact Hsel|].
  destruct (select_target_valid board_10 fleet_edge at_edge _ [] (3, 5) _ []
              fleet_on_edge game_at_edge Hsel)
    as (_ & Hbounds & Hfresh & _ & _ & Hin & Hturn).
  split; [exact Hbounds|]. split; [exact Hfresh|]. split; [exact Hin|].
  by destruct (Hturn (2, 5) (1, 5) Left) as [? _].
Defined.

(** The validity of the cell of the opposite direction comes from the
    game, not from the branch: at [blocked_right], a state of the player
    that no game against a fleet on the board reaches, the move to the
    right of (2, 5) is taken, the player turns to the left of its target
    (1, 5) and selects (0, 5), which is off the board. *)
Lemma select_target_opposite_off_game :
  (∀ draws, ∃ self',
     select_target blocked_right draws = Done (Some (0, 5), self', draws)
     ∧ is_valid blocked_right (0, 5) = false)
  ∧ ∀ fleet ships,
      fleet_on board_10 fleet → ¬ game board_10 fleet blocked_right ships.
Proof.
  split.
  - intros draws. eexists. split; vm_compute; reflexivity.
  - intros fleet ships Hfleet Hgame.
    destruct (select_target blocked_right []) as [[[oc self'] draws']| |] eqn:Hsel;
      try (by vm_compute in Hsel).
    destruct (game_select _ _ _ _ _ _ _ _ Hfleet Hgame Hsel) as (_ & c & -> & Hv).
    assert (c = (0, 5)) as -> by (vm_compute in Hsel; by injection Hsel as <- _ _).
    by vm_compute in Hv.
Qed.

(** C10 fails as stated: in no state of a game against a valid fleet of
    straight ships on a grid of the size of the player's board does
    [select_target] return [None]. *)
Lemma select_target_returns_None_counterexample :
  ¬ ∃ b fleet self ships draws self' draws',
      fleet_on b fleet ∧ game b fleet self ships
      ∧ select_target self draws = Done (None, self', draws').
Proof.
  intros (b & fleet & self & ships & draws & self' & draws' & Hfleet & Hgame & Hsel).
  by destruct (game_select b fleet self ships draws _ _ _ Hfleet Hgame Hsel)
    as (_ & c & [=] & _).
Qed.

(** C10, as the code has it.  In a game against a valid fleet of straight
    ships on a grid of the size of the player's board, a call of
    [select_target] that returns returns a cell, which is then in the
    tracker; and while a ship is worked on, after a hit that sank nothing
    or with a target set, the call does return a cell that passes the
    test of [is_valid], without a draw.  The states in which [select_target] returns [None] are
    states of the player that no such game reaches.  Two of them: at
    [cornered], after a miss with the target (1, 1) set, the directions
    right and down are exhausted and left and up lead off the board; at
    [walled_in], after a first hit at (1, 1), the four neighbours are off
    the board or in the tracker.  There, on every supply of draws, no
    cell is returned, no draw is consumed, the tracker is unchanged and
    the target stays set, so that the player does not go back to
    hunting. *)
Theorem select_target_None_off_game :
  (∀ b fleet self ships draws oc self' draws',
     fleet_on b fleet → game b fleet self ships →
     select_target self draws = Done (oc, self', draws') →
     ∃ c, oc = Some c ∧ c ∈ tracker self')
  ∧ (∀ b fleet self ships draws,
       fleet_on b fleet → game b fleet self ships →
       snd (prev_result self) = false →
       fst (prev_result self) = true ∨ target self ≠ None →
       ∃ c self', select_target self draws = Done (Some c, self', draws)
                  ∧ is_valid self c = true)
  ∧ (∀ draws,
       prev_result cornered = (false, false)
       ∧ target cornered = Some (1, 1)
       ∧ ∃ self', select_target cornered draws = Done (None, self', draws)
                  ∧ tracker self' = tracker cornered
                  ∧ target self' = Some (1, 1))
  ∧ (∀ draws,
       prev_result walled_in = (true, false)
       ∧ target walled_in = None
       ∧ Forall (λ d, is_valid walled_in (possible_moves (1, 1) d) = false) keys
       ∧ ∃ self', select_target walled_in draws = Done (None, self', draws)
                  ∧ tracker self' = tracker walled_in
                  ∧ target self' = Some (1, 1))
  ∧ (∀ fleet ships,
       fleet_on board_10 fleet →
       ¬ game board_10 fleet cornered ships
       ∧ ¬ game board_10 fleet walled_in ships).
Proof.
  split.
  { intros b fleet self ships draws oc self' draws' Hfleet Hgame Hsel.
    destruct (game_select b fleet self ships draws _ _ _ Hfleet Hgame Hsel)
      as (_ & c & -> & _).
    exists c. split; [done|].
    apply select_target_step in Hsel as (_ & _ & Htr & _). rewrite Htr. set_solver. }
  split.
  { intros b fleet self ships draws Hfleet Hgame Hsunk Hbusy.
    pose proof (game_game_inv b fleet self ships Hfleet Hgame) as Hinv.
    destruct (game_inv_returns b fleet self draws Hfleet Hinv Hsunk Hbusy)
      as (oc & self' & Hsel).
    destruct (game_select b fleet self ships draws _ _ _ Hfleet Hgame Hsel)
      as (_ & c & -> & Hv).
    by exists c, self'. }
  split.
  { intros draws. split; [done|]. split; [done|].
    eexists. split; [vm_compute; reflexivity|]. split; reflexivity. }
  split.
  { intros draws. split; [done|]. split; [done|]. split; [repeat constructor|].
    eexists. split; [vm_compute; reflexivity|]. split; reflexivity. }
  intros fleet ships Hfleet. split; intros Hgame.
  - destruct (select_target cornered []) as [[[[c|] self'] draws']| |] eqn:Hsel;
      try (by vm_compute in Hsel).
    by destruct (game_select _ _ _ _ _ _ _ _ Hfleet Hgame Hsel) as (_ & c & [=] & _).
  - destruct (select_target walled_in []) as [[[[c|] self'] draws']| |] eqn:Hsel;
      try (by vm_compute in Hsel).
    by destruct (game_select _ _ _ _ _ _ _ _ Hfleet Hgame Hsel) as (_ & c & [=] & _).
Qed.

(** The theorem in the game of the scenario, after the miss at (4, 5): the
    player has a target, the direction left is exhausted, and the call
    returns the cell (6, 5). *)
Lemma select_target_None_off_game_witness :
  fleet_on board_10 fleet_scenario
  ∧ game board_10 fleet_scenario after_first_miss
      (damaged_by {[ (5, 5); (4, 5) ]} <$> fleet_scenario)
  ∧ ∃ self', select_target after_first_miss [] = Done (Some (6, 5), self', [])
             ∧ (6, 5) ∈ tracker self'.
Proof.
  split; [apply fleet_on_scenario|]. split; [apply game_after_first_miss|].
  destruct (select_target after_first_miss []) as [[[oc self'] draws']| |] eqn:Hsel;
    [|by vm_compute in Hsel..].
  destruct (proj1 select_target_None_off_game board_10 fleet_scenario after_first_miss
              _ [] oc self' draws' fleet_on_scenario game_after_first_miss Hsel)
    as (c & -> & Hin).
  assert (c = (6, 5) ∧ draws' = []) as [-> ->].
  { vm_compute in Hsel. by injection Hsel as <- _ <-. }
  exists self'. by split.
Defined.
